(** * CrossFlow: the flow synthesis pipeline

    A shallow embedding of the algorithmic core of the CrossFlow simulator
    package ([simulator/utils.py], [simulator/simulation.py],
    [simulator/edge_mapping.py], [simulator/database.py]) and the properties
    its specification states about it.

    Modelling conventions.
    - A [datetime] is a naive time of whole seconds, written as an integer
      number of seconds; comparisons and differences of datetimes are those
      of [Z].  Times with a fraction of a second or with a UTC offset are
      outside this reading.
    - In the edge mapper and the locator coordinates and angles are real
      numbers: [math.atan2] is the two-argument arctangent with the C99
      conventions and [math.degrees] is multiplication by [180 / PI].  The
      binary64 arithmetic of the direction classifier is taken up in
      [Binary64], on the kernel's floats, with the C library's [atan2] as a
      parameter.
    - Python dictionaries whose iteration order matters (CSV rows, the
      direction tables of an edge mapping) are association lists in
      insertion order; the cache document is a finite map.  [FlowSynthesis]
      reads the rows of lines that have one cell for each name of the
      header; [CsvRows] reads the rows of any line.
    - Library functions that parse text ([datetime.fromisoformat],
      [datetime.strptime], [int]) are parameters of the functions that call
      them; reference implementations are supplied for the concrete
      scenarios. *)

From Stdlib Require Import ZArith QArith List Lia Lqa Lra Permutation.
From Stdlib Require Import String Ascii Bool Reals DecimalString.
From stdpp Require Import gmap strings.
From Stdlib Require DecimalPos DecimalZ.
From Stdlib Require Floats.
Import ListNotations.

Open Scope Z_scope.

(** ** Availability intervals *)

Module Availability.

Definition datetime := Z.

(** An interval is the Python tuple [(st, et)]. *)
Definition interval : Type := (datetime * datetime)%type.

(** [intervals.sort(key=lambda x: x[0])].  Python's sort is stable, and the
    stable sorted arrangement of a list is unique, so it is modelled by
    a stable insertion sort on the start time. *)
Fixpoint insert_by_start (x : interval) (l : list interval) : list interval :=
  match l with
  | [] => [x]
  | y :: l' => if fst x <=? fst y then x :: y :: l'
               else y :: insert_by_start x l'
  end.

Fixpoint sort_by_start (l : list interval) : list interval :=
  match l with
  | [] => []
  | x :: l' => insert_by_start x (sort_by_start l')
  end.

(** One iteration of the merging loop
    ([utils.py], [get_data_availability_by_intersection], and the same loop
    in [simulation.py], [simulate_simulation]):
<<
    if not merged: merged.append(interval)
    else:
        last = merged[-1]
        if interval[0] <= last[1]:
            merged[-1] = (last[0], max(last[1], interval[1]))
        else:
            merged.append(interval)
>> *)
Definition merge_step (merged : list interval) (iv : interval) : list interval :=
  match rev merged with
  | [] => merged ++ [iv]
  | last :: _ =>
      if fst iv <=? snd last
      then removelast merged ++ [(fst last, Z.max (snd last) (snd iv))]
      else merged ++ [iv]
  end.

Definition merge_sorted (intervals : list interval) : list interval :=
  fold_left merge_step intervals [].

(** The availability merge: sort, then merge greedily. *)
Definition merge_intervals (intervals : list interval) : list interval :=
  merge_sorted (sort_by_start intervals).

(** The same loop with the interval under construction kept apart. *)
Fixpoint merge_from (cur : interval) (rest : list interval) : list interval :=
  match rest with
  | [] => [cur]
  | iv :: rest' =>
      if fst iv <=? snd cur
      then merge_from (fst cur, Z.max (snd cur) (snd iv)) rest'
      else cur :: merge_from iv rest'
  end.

Definition merge_run (l : list interval) : list interval :=
  match l with
  | [] => []
  | x :: r => merge_from x r
  end.

(** *** Predicates on interval lists *)

Definition well_formed (iv : interval) : Prop := fst iv <= snd iv.

(** Starts ascend (weakly). *)
Fixpoint starts_sorted (l : list interval) : Prop :=
  match l with
  | [] => True
  | x :: r => match r with
              | [] => True
              | y :: _ => fst x <= fst y
              end /\ starts_sorted r
  end.

(** Consecutive intervals neither overlap nor touch: each one ends strictly
    before the next one starts. *)
Fixpoint separated (l : list interval) : Prop :=
  match l with
  | [] => True
  | x :: r => match r with
              | [] => True
              | y :: _ => snd x < fst y
              end /\ separated r
  end.

(** Starts ascend strictly. *)
Fixpoint starts_ascending (l : list interval) : Prop :=
  match l with
  | [] => True
  | x :: r => match r with
              | [] => True
              | y :: _ => fst x < fst y
              end /\ starts_ascending r
  end.

(** Any two distinct positions hold intervals that neither overlap nor
    touch. *)
Definition pairwise_apart (l : list interval) : Prop :=
  forall i j a b, (i < j)%nat -> nth_error l i = Some a ->
                  nth_error l j = Some b -> snd a < fst b.

(** The canonical form of an availability set. *)
Definition canonical (l : list interval) : Prop :=
  Forall well_formed l /\ separated l.

(** The instants of the time line are rationals; an interval covers the
    closed range between its end points. *)
Definition covers (iv : interval) (q : Q) : Prop :=
  (inject_Z (fst iv) <= q /\ q <= inject_Z (snd iv))%Q.

Definition covered_by (l : list interval) (q : Q) : Prop :=
  exists iv, In iv l /\ covers iv q.

End Availability.

(** ** Python built-ins used by the package

    String operations the package applies to column names ([str.split],
    [str.lower], [str.strip], the substring test [in]) on ASCII text, and
    reference implementations of the parsers that the pipeline takes as
    parameters. *)

Module Py.

Definition is_space (c : ascii) : bool :=
  let n := nat_of_ascii c in
  ((n =? 32) || ((9 <=? n) && (n <=? 13)) || ((28 <=? n) && (n <=? 31)))%nat.

Fixpoint drop_spaces (l : list ascii) : list ascii :=
  match l with
  | c :: l' => if is_space c then drop_spaces l' else l
  | [] => []
  end.

(** [s.strip()] *)
Definition strip (s : string) : string :=
  string_of_list_ascii
    (rev (drop_spaces (rev (drop_spaces (list_ascii_of_string s))))).

Definition lower_ascii (c : ascii) : ascii :=
  let n := nat_of_ascii c in
  if ((65 <=? n) && (n <=? 90))%nat then ascii_of_nat (n + 32) else c.

(** [s.lower()] *)
Fixpoint lower (s : string) : string :=
  match s with
  | EmptyString => EmptyString
  | String c s' => String (lower_ascii c) (lower s')
  end.

(** [s.split(sep)] for a one-character separator. *)
Fixpoint split (sep : ascii) (s : string) : list string :=
  match s with
  | EmptyString => [EmptyString]
  | String c s' =>
      if Ascii.eqb c sep then EmptyString :: split sep s'
      else match split sep s' with
           | w :: ws => String c w :: ws
           | [] => [String c EmptyString]
           end
  end.

(** [needle in hay] on strings. *)
Fixpoint contains (needle hay : string) : bool :=
  String.prefix needle hay ||
  match hay with
  | EmptyString => false
  | String _ hay' => contains needle hay'
  end.

(** [repr(s)] for a [str] whose characters are code points below 256: the
    quote is the apostrophe, unless the string has an apostrophe and no
    double quote; the quote and the backslash are escaped with a backslash,
    tab, newline and carriage return are written [\t], [\n] and [\r], and
    every other character that is not printable (below 32, from 127 to 160,
    and 173) is written [\xhh]. *)
Definition dquote : ascii := "034"%char.
Definition backslash : ascii := "092"%char.

Definition hex_digit (n : N) : ascii :=
  ascii_of_N (if (n <? 10)%N then 48 + n else 87 + n)%N.

Definition has_char (c : ascii) (s : string) : bool :=
  existsb (Ascii.eqb c) (list_ascii_of_string s).

Definition repr_char (quote c : ascii) : string :=
  let n := N_of_ascii c in
  if Ascii.eqb c quote || Ascii.eqb c backslash then
    String backslash (String c EmptyString)
  else if (n =? 9)%N then String backslash "t"
  else if (n =? 10)%N then String backslash "n"
  else if (n =? 13)%N then String backslash "r"
  else if (n <? 32)%N || ((127 <=? n)%N && (n <=? 160)%N) || (n =? 173)%N then
    String backslash
      (String "x" (String (hex_digit (n / 16))
                          (String (hex_digit (n mod 16)) EmptyString)))
  else String c EmptyString.

Fixpoint repr_body (quote : ascii) (s : string) : string :=
  match s with
  | EmptyString => EmptyString
  | String c s' => String.append (repr_char quote c) (repr_body quote s')
  end.

Definition repr (s : string) : string :=
  let quote := if has_char "'" s && negb (has_char dquote s)
               then dquote else "'"%char in
  String quote (String.append (repr_body quote s) (String quote EmptyString)).

(** [str(n)] for an integer. *)
Definition str_of_int (n : Z) : string :=
  DecimalString.NilZero.string_of_int (Z.to_int n).

Definition digit_val (c : ascii) : option Z :=
  let n := nat_of_ascii c in
  if ((48 <=? n) && (n <=? 57))%nat then Some (Z.of_nat (n - 48)) else None.

Fixpoint digits_value (acc : Z) (after_digit : bool) (s : string) : option Z :=
  match s with
  | EmptyString => if after_digit then Some acc else None
  | String c s' =>
      match digit_val c with
      | Some d => digits_value (10 * acc + d) true s'
      | None => if Ascii.eqb c "_" && after_digit
                then digits_value acc false s'
                else None
      end
  end.

(** Reference model of [int(text)]: surrounding white space, an optional
    sign, decimal digits with single underscores between them; [None]
    stands for [ValueError]. *)
Definition int_of_str (s : string) : option Z :=
  match strip s with
  | String "-" r => option_map Z.opp (digits_value 0 false r)
  | String "+" r => digits_value 0 false r
  | t => digits_value 0 false t
  end.

(** *** Calendar arithmetic (proleptic Gregorian, as [datetime]) *)

Definition is_leap (y : Z) : bool :=
  (y mod 4 =? 0) && (negb (y mod 100 =? 0) || (y mod 400 =? 0)).

Definition days_in_month (y m : Z) : Z :=
  if m =? 2 then (if is_leap y then 29 else 28)
  else if (m =? 4) || (m =? 6) || (m =? 9) || (m =? 11) then 30
  else 31.

Definition days_before_year (y : Z) : Z :=
  let p := y - 1 in 365 * p + p / 4 - p / 100 + p / 400.

Definition days_before_month (y m : Z) : Z :=
  fold_left (fun acc k => acc + days_in_month y (Z.of_nat k))
            (seq 1 (Z.to_nat (m - 1))) 0.

(** Seconds elapsed since 0001-01-01 00:00:00. *)
Definition to_seconds (y m d hh mm ss : Z) : Z :=
  (days_before_year y + days_before_month y m + d - 1) * 86400
  + hh * 3600 + mm * 60 + ss.

Fixpoint take_digits (n : nat) (acc : Z) (s : string) : option (Z * string) :=
  match n with
  | O => Some (acc, s)
  | S n' =>
      match s with
      | EmptyString => None
      | String c s' =>
          match digit_val c with
          | Some d => take_digits n' (10 * acc + d) s'
          | None => None
          end
      end
  end.

Definition expect (c : ascii) (s : string) : option string :=
  match s with
  | String c' s' => if Ascii.eqb c c' then Some s' else None
  | EmptyString => None
  end.

Definition parse_date (s : string) : option (Z * Z * Z * string) :=
  match take_digits 4 0 s with
  | None => None
  | Some (y, s1) =>
  match expect "-" s1 with
  | None => None
  | Some s2 =>
  match take_digits 2 0 s2 with
  | None => None
  | Some (m, s3) =>
  match expect "-" s3 with
  | None => None
  | Some s4 =>
  match take_digits 2 0 s4 with
  | None => None
  | Some (d, s5) =>
      if (1 <=? y) && (1 <=? m) && (m <=? 12) && (1 <=? d)
         && (d <=? days_in_month y m)
      then Some (y, m, d, s5) else None
  end end end end end.

Definition parse_time (s : string) : option (Z * Z * Z) :=
  match take_digits 2 0 s with
  | None => None
  | Some (hh, s1) =>
  match expect ":" s1 with
  | None => None
  | Some s2 =>
  match take_digits 2 0 s2 with
  | None => None
  | Some (mm, s3) =>
  match expect ":" s3 with
  | None => None
  | Some s4 =>
  match take_digits 2 0 s4 with
  | Some (ss, EmptyString) =>
      if (hh <? 24) && (mm <? 60) && (ss <? 60)
      then Some (hh, mm, ss) else None
  | _ => None
  end end end end end.

(** Reference model of [datetime.fromisoformat] on the layouts
    [YYYY-MM-DD] and [YYYY-MM-DD?HH:MM:SS] (any one-character separator);
    [None] stands for [ValueError]. *)
Definition fromisoformat (s : string) : option Z :=
  match parse_date s with
  | None => None
  | Some (y, m, d, EmptyString) => Some (to_seconds y m d 0 0 0)
  | Some (y, m, d, String _ t) =>
      match parse_time t with
      | Some (hh, mm, ss) => Some (to_seconds y m d hh mm ss)
      | None => None
      end
  end.

(** Reference model of [datetime.strptime(s, "%Y-%m-%d %H:%M:%S")] on
    zero-padded fields. *)
Definition strptime (s : string) : option Z :=
  match parse_date s with
  | Some (y, m, d, String " " t) =>
      match parse_time t with
      | Some (hh, mm, ss) => Some (to_seconds y m d hh mm ss)
      | None => None
      end
  | _ => None
  end.

(** The year of a day number: the largest [y] in [[lo, lo + span]] whose
    first day is not after the day. *)
Fixpoint year_of_day (span : nat) (lo day : Z) : Z :=
  match span with
  | O => lo
  | S span' =>
      if days_before_year (lo + Z.of_nat span) <? day
      then lo + Z.of_nat span
      else year_of_day span' lo day
  end.

Fixpoint month_of_day (months : nat) (y m rem : Z) : Z * Z :=
  match months with
  | O => (m, rem)
  | S months' =>
      if rem <=? days_in_month y m then (m, rem)
      else month_of_day months' y (m + 1) (rem - days_in_month y m)
  end.

Fixpoint zero_pad (fuel width : nat) (s : string) : string :=
  match fuel with
  | O => s
  | S fuel' => if (String.length s <? width)%nat
               then zero_pad fuel' width (String "0" s) else s
  end.

Definition field (width : nat) (n : Z) : string :=
  zero_pad width width (str_of_int n).

(** Reference model of [dt.strftime("%Y-%m-%d %H:%M:%S")] for the years
    1 to 9999. *)
Definition strftime (t : Z) : string :=
  let day := t / 86400 + 1 in
  let sod := t mod 86400 in
  let guess := day / 366 + 1 in
  let y := year_of_day 30 guess day in
  let '(m, d) := month_of_day 11 y 1 (day - days_before_year y) in
  String.append (field 4 y) (String.append "-" (String.append (field 2 m)
  (String.append "-" (String.append (field 2 d) (String.append " "
  (String.append (field 2 (sod / 3600)) (String.append ":"
  (String.append (field 2 (sod mod 3600 / 60)) (String.append ":"
  (field 2 (sod mod 60))))))))))).

End Py.

(** ** Exceptions *)

(** A Python exception, with the text [str(e)] that the diagnostics quote. *)
Inductive exn : Type :=
| ValueError (msg : string)
| KeyError (key : string)
| AttributeError (msg : string).

(** [str(e)]; for a [KeyError] it is the [repr] of the key. *)
Definition exn_str (e : exn) : string :=
  match e with
  | ValueError msg => msg
  | KeyError key => Py.repr key
  | AttributeError msg => msg
  end.

Inductive result (A : Type) : Type :=
| Ok (a : A)
| Raise (e : exn).
Arguments Ok {A} a.
Arguments Raise {A} e.

(** ** Direction classifier ([simulator/edge_mapping.py]) *)

(** Coordinates are read as real numbers here, with exact arithmetic: this
    is the reading the edge mapper's properties are stated in.  The
    rounding of the binary64 arithmetic the code runs on is the subject of
    [Binary64] below. *)
Module Bearing.

Inductive direction : Type := east | north | west | south.

Definition direction_eqb (a b : direction) : bool :=
  match a, b with
  | east, east | north, north | west, west | south, south => true
  | _, _ => false
  end.

(** The string the Python code uses for a direction. *)
Definition dir_name (d : direction) : string :=
  match d with
  | east => "east" | north => "north" | west => "west" | south => "south"
  end.

Local Open Scope R_scope.

(** [math.atan2(y, x)]: the angle of the point [(x, y)], in [(-PI, PI]],
    and [0] at the origin. *)
Definition atan2 (y x : R) : R :=
  if Rlt_dec 0 x then atan (y / x)
  else if Rlt_dec x 0 then
         if Rle_dec 0 y then atan (y / x) + PI else atan (y / x) - PI
  else if Rlt_dec 0 y then PI / 2
  else if Rlt_dec y 0 then - (PI / 2)
  else 0.

(** [math.degrees(a)] *)
Definition degrees (a : R) : R := a * (180 / PI).

(** [compute_bearing(x1, y1, x2, y2)] *)
Definition compute_bearing (x1 y1 x2 y2 : R) : R :=
  let angle := degrees (atan2 (y2 - y1) (x2 - x1)) in
  if Rlt_dec angle 0 then angle + 360 else angle.

(** [classify_direction(angle)] *)
Definition classify_direction (angle : R) : direction :=
  if Rge_dec angle 315 then east
  else if Rlt_dec angle 45 then east
  else if Rlt_dec angle 135 then north
  else if Rlt_dec angle 225 then west
  else south.

End Bearing.

(** ** The C library's [atan2] *)

Module Libm.
Import Floats.
Local Open Scope float_scope.

(** The double nearest to pi ([M_PI]) and to pi/2. *)
Definition pi : float := 0x1.921fb54442d18p+1.
Definition half_pi : float := 0x1.921fb54442d18p+0.

(** The values of [atan2(y, x)] that do not depend on the platform: those
    that C99 (F.10.1.4) fixes for a zero ordinate and for a zero abscissa,
    and, for the abscissa [1] and an ordinate below [2^-27] in size, the
    ordinate itself ([atan y] is [y - y^3/3 + ...], which rounds to [y]).
    Elsewhere the library's value is not reproduced: [None]. *)
Definition atan2_known (y x : float) : option float :=
  if is_nan y || is_nan x then Some nan
  else if is_zero y then
    Some (if get_sign x then (if get_sign y then - pi else pi) else y)
  else if is_zero x then
    Some (if get_sign y then - half_pi else half_pi)
  else if (x =? 1) && (abs y <? 0x1p-27) then Some y
  else None.

(** A reference [atan2] for the concrete scenarios. *)
Definition atan2 (y x : float) : float := default nan (atan2_known y x).

End Libm.

(** ** The direction classifier in binary64 arithmetic *)

Module Binary64.
Import Floats Bearing.
Local Open Scope float_scope.

(** [math.degrees(x)]: CPython multiplies by the constant
    [radToDeg = 180.0 / Py_MATH_PI]. *)
Definition degrees (x : float) : float := x * (180 / Libm.pi).

(** [compute_bearing(x1, y1, x2, y2)] on floats; [atan2] is the C
    library's. *)
Definition compute_bearing (atan2 : float -> float -> float)
    (x1 y1 x2 y2 : float) : float :=
  let angle := degrees (atan2 (y2 - y1) (x2 - x1)) in
  if angle <? 0 then angle + 360 else angle.

(** [classify_direction(angle)] on floats; [angle >= 315] is
    [315 <= angle]. *)
Definition classify_direction (angle : float) : direction :=
  if (315 <=? angle) || (angle <? 45) then east
  else if angle <? 135 then north
  else if angle <? 225 then west
  else south.

(** What C99 (F.10.1.4) fixes for [atan2] at the origin: the four
    combinations of signed zeros. *)
Definition zero_cases (atan2 : float -> float -> float) : Prop :=
  atan2 0 0 = 0 /\ atan2 (-0) 0 = -0
  /\ atan2 0 (-0) = Libm.pi /\ atan2 (-0) (-0) = - Libm.pi.

End Binary64.

(** ** Edge mapper ([simulator/edge_mapping.py]) *)

Module EdgeMapping.
Import Bearing.

(** The part of a [sumolib] network the package reads. *)
Record node : Type := { node_id : string; node_coord : R * R }.

Record edge : Type := {
  edge_id : string;
  edge_type : string;
  from_node : node;
  to_node : node
}.

Record network : Type := {
  net_nodes : list node;
  net_edges : list edge;
  convertLonLat2XY : R -> R -> R * R
}.

(** [net.getNode(id)]; raises [KeyError] for an unknown id. *)
Definition getNode (net : network) (id : string) : result node :=
  match find (fun n => String.eqb (node_id n) id) (net_nodes net) with
  | Some n => Ok n
  | None => Raise (KeyError id)
  end.

(** [junction.getIncoming()] and [junction.getOutgoing()], in the order of
    the network file. *)
Definition getIncoming (net : network) (junction : node) : list edge :=
  filter (fun e => String.eqb (node_id (to_node e)) (node_id junction))
         (net_edges net).

Definition getOutgoing (net : network) (junction : node) : list edge :=
  filter (fun e => String.eqb (node_id (from_node e)) (node_id junction))
         (net_edges net).

(** [is_edge_for_cars(edge)], as a truth value. *)
Definition is_edge_for_cars (e : edge) : bool :=
  negb (String.eqb (edge_type e) "")
  && Py.contains "highway" (edge_type e)
  && negb (Py.contains "footway" (edge_type e)).

(** A dictionary from direction to a list of edge ids, in insertion
    order. *)
Definition dirmap : Type := list (direction * list string).

(** [d.get(k)] *)
Fixpoint dir_get (k : direction) (d : dirmap) : option (list string) :=
  match d with
  | [] => None
  | (k', v) :: d' => if direction_eqb k k' then Some v else dir_get k d'
  end.

(** [d.setdefault(k, []).append(x)] *)
Fixpoint setdefault_append (k : direction) (x : string) (d : dirmap) : dirmap :=
  match d with
  | [] => [(k, [x])]
  | (k', v) :: d' =>
      if direction_eqb k k' then (k', v ++ [x]) :: d'
      else (k', v) :: setdefault_append k x d'
  end.

(** The value of [mapping]: [{"incoming": {...}, "outgoing": {...}}]. *)
Record mapping : Type := { incoming : dirmap; outgoing : dirmap }.

(** The direction under which the loop over [junction.getIncoming()] files
    an edge: the bearing is taken from the junction to the edge's from-node
    (source comment: "REVERSED: calculate FROM junction TO edge start"). *)
Definition incoming_direction (junction : node) (e : edge) : direction :=
  classify_direction
    (compute_bearing (fst (node_coord junction)) (snd (node_coord junction))
                     (fst (node_coord (from_node e)))
                     (snd (node_coord (from_node e)))).

Definition outgoing_direction (junction : node) (e : edge) : direction :=
  classify_direction
    (compute_bearing (fst (node_coord junction)) (snd (node_coord junction))
                     (fst (node_coord (to_node e)))
                     (snd (node_coord (to_node e)))).

Definition file_edge (dir_of : edge -> direction) (d : dirmap) (e : edge)
  : dirmap :=
  if is_edge_for_cars e then setdefault_append (dir_of e) (edge_id e) d
  else d.

(** [map_junction_edges(net, junction_id)]; the debugging output it prints
    is not modelled. *)
Definition map_junction_edges (net : network) (junction_id : string)
  : result mapping :=
  match getNode net junction_id with
  | Raise e =>
      Raise (ValueError
               (String.append "Junction '" (String.append junction_id
               (String.append "' not found in network: " (exn_str e)))))
  | Ok junction =>
      Ok {| incoming := fold_left (file_edge (incoming_direction junction))
                                  (getIncoming net junction) [];
            outgoing := fold_left (file_edge (outgoing_direction junction))
                                  (getOutgoing net junction) [] |}
  end.

(** One step of the nearest-node scan: [math.hypot] and the strict
    comparison that keeps the first of equally distant nodes.  [None] for
    [best] is the initial [min_distance = float('inf')], which every real
    distance is below. *)
Definition nearer (target : R * R) (best : option (node * R)) (n : node)
  : option (node * R) :=
  let distance :=
    sqrt (Rsqr (fst (node_coord n) - fst target)
          + Rsqr (snd (node_coord n) - snd target))%R in
  match best with
  | None => Some (n, distance)
  | Some (_, min_distance) =>
      if Rlt_dec distance min_distance then Some (n, distance) else best
  end.

(** [find_intersection(net, target_lon, target_lat, tolerance)].  [reply]
    is what the operator types at the prompt shown for the nearest node
    when it lies beyond the tolerance; a prompt that cannot be answered
    ([input] raising) is not modelled. *)
Definition find_intersection (reply : string -> string) (net : network)
    (target_lon target_lat tolerance : R) : result string :=
  let target := convertLonLat2XY net target_lon target_lat in
  match fold_left (nearer target) (net_nodes net) None with
  | None => Raise (ValueError "No nodes found in the network.")
  | Some (closest_node, min_distance) =>
      if Rlt_dec tolerance min_distance then
        if String.eqb (Py.lower (Py.strip (reply (node_id closest_node)))) "y"
        then Ok (node_id closest_node)
        else Raise (ValueError
               "User declined to proceed with out-of-tolerance intersection.")
      else Ok (node_id closest_node)
  end.

(** An edge id is filed under a direction of a direction table. *)
Definition filed (d : direction) (table : dirmap) (id : string) : Prop :=
  exists ids, dir_get d table = Some ids /\ In id ids.

(** A junction with one drivable edge arriving from a node due north. *)
Definition demo_junction : node :=
  {| node_id := "J"; node_coord := (0, 0)%R |}.

Definition demo_north_node : node :=
  {| node_id := "A"; node_coord := (0, 10)%R |}.

Definition demo_edge : edge :=
  {| edge_id := "e1"; edge_type := "highway.primary";
     from_node := demo_north_node; to_node := demo_junction |}.

Definition demo_net : network :=
  {| net_nodes := [demo_junction; demo_north_node];
     net_edges := [demo_edge];
     convertLonLat2XY := fun lon lat => (lon, lat) |}.

End EdgeMapping.

(** ** Flow synthesizer ([simulator/simulation.py]) *)

Module FlowSynthesis.
Import Bearing EdgeMapping.

(** The attributes of a [<flow>] element; the numeric attributes are kept
    as integers (the code stores their decimal text). *)
Record flow : Type := {
  flow_id : string;
  flow_begin : Z;
  flow_end : Z;
  flow_number : Z;
  flow_from : string;
  flow_to : string;
  flow_type : string
}.

(** A CSV row as [csv.DictReader] yields it for a line that has one cell
    for each name of the header: column name and cell text, in column
    order.  (Lines with fewer or more cells are the subject of
    [CsvRows].) *)
Definition row : Type := list (string * string).

(** [row[k]]; [None] stands for [KeyError]. *)
Fixpoint row_get (k : string) (r : row) : option string :=
  match r with
  | [] => None
  | (k', v) :: r' => if String.eqb k k' then Some v else row_get k r'
  end.

(** [incoming_mapping.get(p)] *)
Definition incoming_mapping (p : string) : option direction :=
  if String.eqb p "n" then Some north
  else if String.eqb p "s" then Some south
  else if String.eqb p "e" then Some east
  else if String.eqb p "w" then Some west
  else None.

(** [outgoing_mapping.get(movement, {}).get(p)] *)
Definition outgoing_mapping (movement p : string) : option direction :=
  if String.eqb movement "r" then
    if String.eqb p "n" then Some west
    else if String.eqb p "e" then Some north
    else if String.eqb p "s" then Some east
    else if String.eqb p "w" then Some south
    else None
  else if String.eqb movement "t" then
    if String.eqb p "n" then Some south
    else if String.eqb p "e" then Some west
    else if String.eqb p "s" then Some north
    else if String.eqb p "w" then Some east
    else None
  else if String.eqb movement "l" then
    if String.eqb p "n" then Some east
    else if String.eqb p "e" then Some south
    else if String.eqb p "s" then Some west
    else if String.eqb p "w" then Some north
    else None
  else None.

Definition ignore_keys : list string :=
  ["_id"; "count_id"; "count_date"; "location_name"; "longitude";
   "latitude"; "centreline_type"; "centreline_id"; "px"; "start_time";
   "end_time"]%string.

Definition key_in (k : string) (keys : list string) : bool :=
  existsb (String.eqb k) keys.

(** [not d.get(k)]: the direction is missing or its list is empty. *)
Definition unmapped (k : direction) (d : dirmap) : bool :=
  match dir_get k d with
  | None | Some [] => true
  | Some (_ :: _) => false
  end.

(** [d[k][0]] once [d.get(k)] is known to be non-empty. *)
Definition first_edge (k : direction) (d : dirmap) : string :=
  match dir_get k d with
  | Some (e :: _) => e
  | _ => EmptyString
  end.

Definition incomplete_mapping (key : string) (from_dir to_dir : direction)
  : exn :=
  ValueError
    (String.append "Incomplete edge mapping for key '" (String.append key
    (String.append "': missing incoming '"
    (String.append (dir_name from_dir)
    (String.append "' or outgoing '"
    (String.append (dir_name to_dir) "'.")))))).

(** What the body of the loop over [row.items()] does with one column. *)
Inductive key_outcome : Type :=
| Skip                (* [continue] *)
| Emit (f : flow)     (* [flows.append(flow_elem)] *)
| Abort (e : exn).    (* [raise ValueError(...)] *)

(** An interval of the availability report:
    [{"start": text, "end": text}]. *)
Record availability : Type := { av_start : string; av_end : string }.

Section Parsers.

Variable fromisoformat : string -> option Z.   (* [datetime.fromisoformat] *)
Variable parse_int : string -> option Z.        (* [int] *)
Variable strptime : string -> option Z.
  (* [datetime.strptime(_, "%Y-%m-%d %H:%M:%S")] *)

(** Lines 60-93 of [generate_flows_for_intersection]: from the vehicle
    token to the new flow. *)
Definition movement_flow (m : mapping) (intersection_id : string)
    (base_time duration : Z) (key value prefix vehicle_str movement : string)
  : key_outcome :=
  match (if String.eqb vehicle_str "cars" then Some "car"%string
         else if key_in vehicle_str ["truck"; "bus"]%string
              then Some vehicle_str else None) with
  | None => Skip
  | Some vehicle =>
      match parse_int value with
      | None => Skip
      | Some count =>
          if count <=? 0 then Skip
          else
            match incoming_mapping (Py.lower prefix),
                  outgoing_mapping (Py.lower movement) (Py.lower prefix) with
            | Some from_dir, Some to_dir =>
                if unmapped from_dir (incoming m)
                   || unmapped to_dir (outgoing m)
                then Abort (incomplete_mapping key from_dir to_dir)
                else Emit {|
                  flow_id :=
                    String.append intersection_id (String.append "_"
                    (String.append key (String.append "_"
                    (Py.str_of_int base_time))));
                  flow_begin := base_time;
                  flow_end := base_time + duration;
                  flow_number := count;
                  flow_from := first_edge from_dir (incoming m);
                  flow_to := first_edge to_dir (outgoing m);
                  flow_type := vehicle |}
            | _, _ => Skip
            end
      end
  end.

(** Lines 49-93: one column of a row. *)
Definition key_flow (m : mapping) (intersection_id : string)
    (base_time duration : Z) (key value : string) : key_outcome :=
  if key_in key ignore_keys then Skip
  else
    match Py.split "_" key with
    | [prefix; vehicle_str; movement] =>
        movement_flow m intersection_id base_time duration key value
                      prefix vehicle_str movement
    | [prefix; appr; vehicle_str; movement] =>
        if negb (String.eqb (Py.lower appr) "appr") then Skip
        else movement_flow m intersection_id base_time duration key value
                           prefix vehicle_str movement
    | _ => Skip
    end.

(** The loop over [row.items()]. *)
Fixpoint items_flows (m : mapping) (intersection_id : string)
    (base_time duration : Z) (items : row) (flows : list flow)
  : result (list flow) :=
  match items with
  | [] => Ok flows
  | (key, value) :: items' =>
      match key_flow m intersection_id base_time duration key value with
      | Skip => items_flows m intersection_id base_time duration items' flows
      | Emit f =>
          items_flows m intersection_id base_time duration items' (flows ++ [f])
      | Abort e => Raise e
      end
  end.

(** The guarded parse of the two time columns; [None] when the [try]
    block fails. *)
Definition row_times (r : row) : option (Z * Z) :=
  match row_get "start_time" r with
  | None => None
  | Some s =>
      match fromisoformat s with
      | None => None
      | Some row_start =>
          match row_get "end_time" r with
          | None => None
          | Some e =>
              match fromisoformat e with
              | None => None
              | Some row_end => Some (row_start, row_end)
              end
          end
      end
  end.

(** The loop over [rows]. *)
Fixpoint rows_flows (m : mapping) (intersection_id : string)
    (simulation_start_dt simulation_end_dt : Z) (rows : list row)
    (flows : list flow) : result (list flow) :=
  match rows with
  | [] => Ok flows
  | r :: rows' =>
      match row_times r with
      | None =>
          rows_flows m intersection_id simulation_start_dt simulation_end_dt
                     rows' flows
      | Some (row_start, row_end) =>
          if (row_start <? simulation_start_dt)
             || (row_start >=? simulation_end_dt)
          then rows_flows m intersection_id simulation_start_dt
                          simulation_end_dt rows' flows
          else
            match items_flows m intersection_id
                              (row_start - simulation_start_dt)
                              (row_end - row_start) r flows with
            | Ok flows' =>
                rows_flows m intersection_id simulation_start_dt
                           simulation_end_dt rows' flows'
            | Raise e => Raise e
            end
      end
  end.

(** [generate_flows_for_intersection(mapping, rows, intersection_id,
    simulation_start_dt, simulation_end_dt)] *)
Definition generate_flows_for_intersection (m : mapping) (rows : list row)
    (intersection_id : string) (simulation_start_dt simulation_end_dt : Z)
  : result (list flow) :=
  rows_flows m intersection_id simulation_start_dt simulation_end_dt rows [].

(** [time_overlaps(intervals, sim_start, sim_end)] *)
Fixpoint time_overlaps (intervals : list availability) (sim_start sim_end : Z)
  : bool :=
  match intervals with
  | [] => false
  | interval :: intervals' =>
      match strptime (av_start interval), strptime (av_end interval) with
      | Some interval_start, Some interval_end =>
          if (sim_start <? interval_end) && (sim_end >? interval_start)
          then true
          else time_overlaps intervals' sim_start sim_end
      | _, _ => time_overlaps intervals' sim_start sim_end
      end
  end.

End Parsers.

(** The report of merged intervals:
    [[{"start": st.strftime(...), "end": et.strftime(...)} for st, et in
    merged]]. *)
Definition availability_intervals (strftime : Z -> string)
    (merged : list Availability.interval) : list availability :=
  map (fun iv => {| av_start := strftime (fst iv);
                    av_end := strftime (snd iv) |}) merged.

(** The end-to-end scenario of the specification: one row, one movement
    column. *)
Definition scenario_row : row :=
  [("centreline_id", "1001"); ("start_time", "2024-01-01T08:00:00");
   ("end_time", "2024-01-01T08:15:00"); ("n_appr_cars_t", "5")]%string.

(** The instant a text denotes, in seconds. *)
Definition instant (text : string) : Z := default 0 (Py.fromisoformat text).

End FlowSynthesis.

(** ** Mapping cache ([simulator/database.py]) *)

Module Database.
Import EdgeMapping FlowSynthesis.

(** The record the pipeline stores for a junction. *)
Record cache_record : Type := {
  rec_intersection_id : string;
  rec_centreline_id : string;
  rec_location_name : string;
  rec_input_coordinates : option (R * R);
  rec_network_coordinates : R * R;
  rec_data_availability : list availability;
  rec_edge_mapping : mapping
}.

(** The state of the file at [PROCESSED_DB_PATH].  Junction ids are the
    keys of the JSON object, hence strings.  A file that holds JSON other
    than an object is not among these states. *)
Inductive cache_file : Type :=
| Absent
| Blank                                        (* size 0 *)
| Malformed                                    (* [json.load] raises *)
| Document (db : gmap string cache_record).

(** [load_processed_db()] *)
Definition load_processed_db (file : cache_file) : gmap string cache_record :=
  match file with
  | Document db => db
  | Absent | Blank | Malformed => ∅
  end.

(** [update_processed_db(junction_id, record)]: the file after the call,
    on a file system that accepts the write. *)
Definition update_processed_db (junction_id : string) (record : cache_record)
    (file : cache_file) : cache_file :=
  Document (<[junction_id := record]> (load_processed_db file)).

End Database.

(** ** The per-intersection loop of [simulate_simulation] *)

Module Simulation.
Import Bearing EdgeMapping FlowSynthesis Database.

(** An entry of the intersections file.  A field that is missing, or
    present with a false value, is [None]; [centreline_id] keeps the
    distinction. *)
Record intersection : Type := {
  inter_location_name : option string;
  inter_centreline_id : option string;
  inter_intersection_id : option string;
  inter_mapped_edges : option mapping
}.

Record detail : Type := {
  d_intersection_id : string;
  d_centreline_id : string;
  d_location_name : string;
  d_data_availability : list availability;
  d_simulation_start : string;
  d_simulation_end : string;
  d_monitored_incoming_edges : gset string;
  d_monitored_outgoing_edges : gset string;
  d_incoming_edge_directions : gmap string direction;
  d_outgoing_edge_directions : gmap string direction
}.

(** What the loop updates: the flows under [routes_root], the list
    [incomplete_data], the list [simulation_details] and the cache file. *)
Record sim_state : Type := {
  routes_root : list flow;
  incomplete_data : list string;
  simulation_details : list detail;
  db_file : cache_file
}.

Definition cat (parts : list string) : string :=
  fold_right String.append EmptyString parts.

(** [incomplete_data.append(msg)] *)
Definition warn (msg : string) (st : sim_state) : sim_state :=
  {| routes_root := routes_root st;
     incomplete_data := incomplete_data st ++ [msg];
     simulation_details := simulation_details st;
     db_file := db_file st |}.

Definition notice (location_name id what : string) : string :=
  cat ["Intersection '"; location_name; "' (ID: "; id; ") "; what]%string.

(** The inner loops that record, for an edge of a flow, the direction whose
    list holds it. *)
Definition edge_directions (d : dirmap) (e : string)
    (acc : gmap string direction) : gmap string direction :=
  fold_left (fun acc de => if key_in e (snd de) then <[e := fst de]> acc
                           else acc) d acc.

Section Pipeline.

Variable fromisoformat : string -> option Z.
Variable parse_int : string -> option Z.
Variable strptime : string -> option Z.
Variable strftime : Z -> string.
Variable parse_float : string -> result R.     (* [float] *)
Variable reply : string -> string.             (* the operator's answers *)

Variable net : network.
Variable data_rows_by_id : gmap string (list row).
Variable processed_db : gmap string cache_record.
Variables simulation_start_dt simulation_end_dt : Z.

(** [float(first_row[column])] *)
Definition coordinate (r : row) (column : string) : result R :=
  match row_get column r with
  | None => Raise (KeyError column)
  | Some text => parse_float text
  end.

(** Lines 195-228: the junction of an intersection, or the diagnostic
    with which it is skipped. *)
Definition locate (inter : intersection) (location_name unique_id : string)
  : string + string * option (R * R) :=
  match inter_intersection_id inter with
  | Some junction_id => inr (junction_id, None)
  | None =>
      match data_rows_by_id !! unique_id with
      | Some (first_row :: _) =>
          match coordinate first_row "longitude" with
          | Raise e =>
              inl (notice location_name unique_id
                     (String.append "skipped: Coordinates error: " (exn_str e)))
          | Ok target_lon =>
          match coordinate first_row "latitude" with
          | Raise e =>
              inl (notice location_name unique_id
                     (String.append "skipped: Coordinates error: " (exn_str e)))
          | Ok target_lat =>
          match find_intersection reply net target_lon target_lat 10 with
          | Raise ex =>
              inl (notice location_name unique_id
                     (String.append "skipped: Error in finding junction: "
                                    (exn_str ex)))
          | Ok junction_id =>
              if String.eqb junction_id ""
              then inl (notice location_name unique_id
                               "skipped: Not located on map.")
              else inr (junction_id, Some (target_lon, target_lat))
          end end end
      | _ => inl (notice location_name unique_id
                         "skipped: No CSV data available.")
      end
  end.

(** Lines 231-238: the time intervals of the rows that carry two readable
    times. *)
Definition row_intervals (rows : list row) : list Availability.interval :=
  flat_map (fun r => match row_times fromisoformat r with
                     | Some iv => [iv]
                     | None => []
                     end) rows.

(** Lines 274-309: the edge mapping of a junction, from the cache or
    computed and then stored. *)
Definition resolve_mapping (inter : intersection)
    (location_name unique_id junction_id : string)
    (input_coords : option (R * R))
    (availability_intervals : list availability) (file : cache_file)
  : string + mapping * cache_file :=
  match processed_db !! junction_id with
  | Some record => inr (rec_edge_mapping record, file)
  | None =>
      match (match inter_mapped_edges inter with
             | Some m => Ok m
             | None => map_junction_edges net junction_id
             end) with
      | Raise e =>
          inl (notice location_name junction_id
                 (String.append "skipped: Mapping error: " (exn_str e)))
      | Ok m =>
          match getNode net junction_id with
          | Raise e =>
              inl (notice location_name junction_id
                     (String.append "skipped: Node error: " (exn_str e)))
          | Ok junction_node =>
              let record := {|
                rec_intersection_id := junction_id;
                rec_centreline_id := unique_id;
                rec_location_name := location_name;
                rec_input_coordinates := input_coords;
                rec_network_coordinates := node_coord junction_node;
                rec_data_availability := availability_intervals;
                rec_edge_mapping := m |} in
              inr (m, update_processed_db junction_id record file)
          end
      end
  end.

(** Lines 311-355: flow generation for one intersection and what is kept
    of it. *)
Definition commit_flows (m : mapping) (location_name unique_id junction_id
    : string) (availability_intervals : list availability) (st : sim_state)
  : sim_state :=
  match generate_flows_for_intersection fromisoformat parse_int m
          (default [] (data_rows_by_id !! unique_id)) junction_id
          simulation_start_dt simulation_end_dt with
  | Raise e =>
      warn (notice location_name junction_id
              (String.append "CSV processing error: " (exn_str e))) st
  | Ok [] =>
      warn (notice location_name junction_id
              "has no flows for the selected time window.") st
  | Ok flows =>
      {| routes_root := routes_root st ++ flows;
         incomplete_data := incomplete_data st;
         simulation_details := simulation_details st ++ [{|
           d_intersection_id := junction_id;
           d_centreline_id := unique_id;
           d_location_name := location_name;
           d_data_availability := availability_intervals;
           d_simulation_start := strftime simulation_start_dt;
           d_simulation_end := strftime simulation_end_dt;
           d_monitored_incoming_edges := list_to_set (map flow_from flows);
           d_monitored_outgoing_edges := list_to_set (map flow_to flows);
           d_incoming_edge_directions :=
             fold_left (fun acc f => edge_directions (incoming m)
                                                     (flow_from f) acc)
                       flows ∅;
           d_outgoing_edge_directions :=
             fold_left (fun acc f => edge_directions (outgoing m)
                                                     (flow_to f) acc)
                       flows ∅ |}];
         db_file := db_file st |}
  end.

(** What lines 190-309 hand over to flow generation. *)
Record prepared : Type := {
  p_location_name : string;
  p_unique_id : string;
  p_junction_id : string;
  p_availability : list availability;
  p_mapping : mapping;
  p_db_file : cache_file
}.

(** Lines 190-309 for one intersection: either the one diagnostic with
    which the intersection is skipped ([incomplete_data.append(...)]
    followed by [continue]), or what flow generation will use. *)
Definition prepare (file : cache_file) (inter : intersection)
  : string + prepared :=
  let location_name :=
    match inter_location_name inter with
    | Some name => name
    | None => String.append "Intersection "
                (match inter_centreline_id inter with
                 | Some c => c
                 | None => "None"%string
                 end)
    end in
  match inter_centreline_id inter with
  | None | Some EmptyString =>
      inl (cat ["Intersection '"; location_name;
                "' skipped: Missing centreline_id."]%string)
  | Some centreline_id =>
      let unique_id := Py.strip centreline_id in
      match locate inter location_name unique_id with
      | inl msg => inl msg
      | inr (junction_id, input_coords) =>
          match row_intervals (default [] (data_rows_by_id !! unique_id)) with
          | [] => inl (notice location_name unique_id
                         "skipped: No valid time data in CSV.")
          | intervals =>
              let av := availability_intervals strftime
                          (Availability.merge_intervals intervals) in
              if negb (time_overlaps strptime av simulation_start_dt
                                     simulation_end_dt)
              then inl (notice location_name unique_id
                     "skipped: Data not available for selected time window.")
              else
                match resolve_mapping inter location_name unique_id
                                      junction_id input_coords av file with
                | inl msg => inl msg
                | inr (m, file') =>
                    inr {| p_location_name := location_name;
                           p_unique_id := unique_id;
                           p_junction_id := junction_id;
                           p_availability := av;
                           p_mapping := m;
                           p_db_file := file' |}
                end
          end
      end
  end.

(** The body of [for inter in intersections]. *)
Definition process_intersection (st : sim_state) (inter : intersection)
  : sim_state :=
  match prepare (db_file st) inter with
  | inl msg => warn msg st
  | inr p =>
      commit_flows (p_mapping p) (p_location_name p) (p_unique_id p)
                   (p_junction_id p) (p_availability p)
                   {| routes_root := routes_root st;
                      incomplete_data := incomplete_data st;
                      simulation_details := simulation_details st;
                      db_file := p_db_file p |}
  end.

(** [for inter in intersections: ...] *)
Definition simulate_loop (intersections : list intersection) (st : sim_state)
  : sim_state :=
  fold_left process_intersection intersections st.

End Pipeline.

(** [simulate_simulation], from the loaded inputs to the flows written to
    the routes file (if any) and the warnings returned. *)
Definition simulate_simulation fromisoformat parse_int strptime strftime
    parse_float reply (intersections : list intersection) (net : network)
    (data_rows_by_id : gmap string (list row)) (file : cache_file)
    (simulation_start_dt simulation_end_dt : Z)
  : option (list flow) * list string :=
  let st := simulate_loop fromisoformat parse_int strptime strftime
              parse_float reply net data_rows_by_id (load_processed_db file)
              simulation_start_dt simulation_end_dt intersections
              {| routes_root := []; incomplete_data := [];
                 simulation_details := []; db_file := file |} in
  match routes_root st with
  | [] => (None, incomplete_data st)
  | flows => (Some flows, incomplete_data st)
  end.

(** The hard-stop scenario of the specification: the end-to-end scenario
    with [outgoing.south] absent from the cached mapping of the junction. *)
Definition scenario_intersection : intersection :=
  {| inter_location_name := Some "Main St"%string;
     inter_centreline_id := Some "1001"%string;
     inter_intersection_id := Some "J"%string;
     inter_mapped_edges := None |}.

Definition scenario_rows : gmap string (list row) :=
  {["1001"%string := [scenario_row]]}.

Definition scenario_cache : gmap string cache_record :=
  {["J"%string :=
      {| rec_intersection_id := "J";
         rec_centreline_id := "1001";
         rec_location_name := "Main St";
         rec_input_coordinates := None;
         rec_network_coordinates := (0%R, 0%R);
         rec_data_availability := [];
         rec_edge_mapping := {| incoming := [(north, ["e1"%string])];
                                outgoing := [] |} |}]}.

Definition scenario_state : sim_state :=
  {| routes_root := []; incomplete_data := []; simulation_details := [];
     db_file := Document scenario_cache |}.

End Simulation.

(** ** The grammar of movement keys, as the specification words it

    [{n,s,e,w}_[appr_]{vehicleToken}_[{r,l,t}]]: an origin letter, an
    optional approach marker, a vehicle token and a turn letter, joined by
    underscores.  The definition is by concatenation and is independent of
    how the code splits a key. *)

Module KeyGrammar.

Fixpoint underscore_free (s : string) : bool :=
  match s with
  | EmptyString => true
  | String c s' => negb (Ascii.eqb c "_") && underscore_free s'
  end.

(** [parts[0] + "_" + parts[1] + ...] *)
Fixpoint join (parts : list string) : string :=
  match parts with
  | [] => EmptyString
  | [a] => a
  | a :: rest => String.append a (String "_" (join rest))
  end.

Inductive grammar_key (origins turns : list string) (marker : string -> Prop)
  : string -> string -> string -> string -> Prop :=
| plain_key o v t :
    In o origins -> underscore_free v = true -> In t turns ->
    grammar_key origins turns marker (join [o; v; t]) o v t
| approach_key o a v t :
    In o origins -> marker a -> underscore_free v = true -> In t turns ->
    grammar_key origins turns marker (join [o; a; v; t]) o v t.

(** The grammar read to the letter: lower-case letters, the marker [appr],
    and a turn letter that may be left out. *)
Definition written_key : string -> string -> string -> string -> Prop :=
  grammar_key ["n"; "s"; "e"; "w"]%string ["r"; "l"; "t"; ""]%string
              (fun a => a = "appr"%string).

(** The grammar with the origin letter, the marker and the turn letter in
    either case. *)
Definition movement_key : string -> string -> string -> string -> Prop :=
  grammar_key ["n"; "s"; "e"; "w"; "N"; "S"; "E"; "W"]%string
              ["r"; "l"; "t"; "R"; "L"; "T"]%string
              (fun a => Py.lower a = "appr"%string).

(** [cars -> car], [truck -> truck], [bus -> bus] *)
Definition vocabulary : list string := ["cars"; "truck"; "bus"]%string.

End KeyGrammar.

(** ** Decoded movement keys *)

Module Decoding.
Import Bearing EdgeMapping FlowSynthesis KeyGrammar.



(** The count of a column is zero, negative or not an integer. *)
Definition bad_count (parse_int : string -> option Z) (value : string)
  : Prop :=
  parse_int value = None \/ exists c, parse_int value = Some c /\ c <= 0.

End Decoding.

(** ** Rows with missing or surplus cells *)

Module CsvRows.
Import Bearing EdgeMapping FlowSynthesis Decoding.

(** A row as [csv.DictReader] yields it for any line of the file: under
    each name of the header the text of the cell, or [None] ([restval])
    where the line has too few cells; and, where the line has too many,
    the surplus cells as a list under the key [None] ([restkey]), which the
    dictionary holds last. *)
Record dict_row : Type := {
  cells : list (string * option string);
  surplus : option (list string)
}.

(** The row of a line that has exactly one cell for each name of the
    header: the rows of [FlowSynthesis]. *)
Definition complete (r : row) : dict_row :=
  {| cells := map (fun kv => (fst kv, Some (snd kv))) r; surplus := None |}.

(** [row[k]] for a name [k]; the outer [None] stands for [KeyError]. *)
Fixpoint cell_get (k : string) (items : list (string * option string))
  : option (option string) :=
  match items with
  | [] => None
  | (k', v) :: items' => if String.eqb k k' then Some v else cell_get k items'
  end.

(** The count of the cell is missing, zero, negative or not an integer. *)
Definition bad_cell (parse_int : string -> option Z) (cell : option string)
  : Prop :=
  match cell with
  | None => True
  | Some value => bad_count parse_int value
  end.

(** [key.split("_")] on the key [None]. *)
Definition none_has_no_split : exn :=
  AttributeError "'NoneType' object has no attribute 'split'".

Section Parsers.

Variable fromisoformat : string -> option Z.   (* [datetime.fromisoformat] *)
Variable parse_int : string -> option Z.        (* [int] *)

(** One column under a name of the header.  For a missing cell [int(None)]
    raises [TypeError], which the [except Exception] around it catches as
    it catches the [ValueError] of a text that is no integer. *)
Definition cell_flow (m : mapping) (intersection_id : string)
    (base_time duration : Z) (key : string) (value : option string)
  : key_outcome :=
  match value with
  | Some text =>
      key_flow parse_int m intersection_id base_time duration key text
  | None =>
      key_flow (fun _ => None) m intersection_id base_time duration key
               EmptyString
  end.

(** The loop over [row.items()], first over the names of the header. *)
Fixpoint cells_flows (m : mapping) (intersection_id : string)
    (base_time duration : Z) (items : list (string * option string))
    (flows : list flow) : result (list flow) :=
  match items with
  | [] => Ok flows
  | (key, value) :: items' =>
      match cell_flow m intersection_id base_time duration key value with
      | Skip => cells_flows m intersection_id base_time duration items' flows
      | Emit f =>
          cells_flows m intersection_id base_time duration items'
                      (flows ++ [f])
      | Abort e => Raise e
      end
  end.

(** The whole loop over [row.items()]: the key [None], when present, comes
    last; it is not in [ignore_keys], and [key.split("_")] raises
    [AttributeError] on it, outside any [try]. *)
Definition dict_items_flows (m : mapping) (intersection_id : string)
    (base_time duration : Z) (r : dict_row) (flows : list flow)
  : result (list flow) :=
  match cells_flows m intersection_id base_time duration (cells r) flows with
  | Ok flows' =>
      match surplus r with
      | None => Ok flows'
      | Some _ => Raise none_has_no_split
      end
  | Raise e => Raise e
  end.

(** The guarded parse of the two time columns; [None] when the [try] block
    fails: a column is absent ([KeyError]), its cell is missing
    ([TypeError]) or its text is no time ([ValueError]). *)
Definition dict_row_times (r : dict_row) : option (Z * Z) :=
  match cell_get "start_time" (cells r) with
  | Some (Some s) =>
      match fromisoformat s with
      | None => None
      | Some row_start =>
          match cell_get "end_time" (cells r) with
          | Some (Some e) =>
              match fromisoformat e with
              | None => None
              | Some row_end => Some (row_start, row_end)
              end
          | _ => None
          end
      end
  | _ => None
  end.

(** The loop over [rows]. *)
Fixpoint dict_rows_flows (m : mapping) (intersection_id : string)
    (simulation_start_dt simulation_end_dt : Z) (rows : list dict_row)
    (flows : list flow) : result (list flow) :=
  match rows with
  | [] => Ok flows
  | r :: rows' =>
      match dict_row_times r with
      | None =>
          dict_rows_flows m intersection_id simulation_start_dt
                          simulation_end_dt rows' flows
      | Some (row_start, row_end) =>
          if (row_start <? simulation_start_dt)
             || (row_start >=? simulation_end_dt)
          then dict_rows_flows m intersection_id simulation_start_dt
                               simulation_end_dt rows' flows
          else
            match dict_items_flows m intersection_id
                                   (row_start - simulation_start_dt)
                                   (row_end - row_start) r flows with
            | Ok flows' =>
                dict_rows_flows m intersection_id simulation_start_dt
                                simulation_end_dt rows' flows'
            | Raise e => Raise e
            end
      end
  end.

(** [generate_flows_for_intersection] on the rows of any file. *)
Definition generate_flows_for_dict_rows (m : mapping) (rows : list dict_row)
    (intersection_id : string) (simulation_start_dt simulation_end_dt : Z)
  : result (list flow) :=
  dict_rows_flows m intersection_id simulation_start_dt simulation_end_dt
                  rows [].

End Parsers.

End CsvRows.

(** ** The distance the nearest-node scan minimises *)

Module Locator.
Import EdgeMapping.



(** The ids of the drivable edges, among [edges], that a direction function
    sends to [d], in the order of [edges]. *)
Definition ids_towards (dir_of : edge -> Bearing.direction)
    (d : Bearing.direction) (edges : list edge) : list string :=
  map edge_id
      (List.filter (fun e => is_edge_for_cars e
                             && Bearing.direction_eqb (dir_of e) d) edges).

End Locator.

(** ** Input helpers ([simulator/utils.py]) and the grouping of CSV rows *)

Module Utils.
Import FlowSynthesis Simulation.

(** What [csv.DictReader] yields for a file: the header and the rows. *)
Record csv_data : Type := { fieldnames : list string; csv_rows : list row }.

(** [str(row.get("centreline_id", "")).strip()] *)
Definition row_key (r : row) : string :=
  Py.strip (default EmptyString (row_get "centreline_id" r)).

(** [{str(inter["centreline_id"]).strip() for inter in intersections
     if "centreline_id" in inter and inter["centreline_id"]}] *)
Definition valid_ids (intersections : list intersection) : gset string :=
  list_to_set
    (flat_map (fun inter => match inter_centreline_id inter with
                            | None | Some EmptyString => []
                            | Some c => [Py.strip c]
                            end) intersections).

(** Lines 172-186 of [simulate_simulation]: the rows of the CSV file
    grouped by centreline id
    ([data_rows_by_id.setdefault(key, []).append(row)]); rows without an
    id are left out. *)
Definition group_row (groups : gmap string (list row)) (r : row)
  : gmap string (list row) :=
  if String.eqb (row_key r) EmptyString then groups
  else <[row_key r := default [] (groups !! row_key r) ++ [r]]> groups.

Definition group_rows (rows : list row) : gmap string (list row) :=
  fold_left group_row rows ∅.

(** The same lines with their column checks; [inl] carries the text of the
    [RuntimeError] raised for a header without a required column. *)
Definition load_rows_by_id (data_csv_file : string) (data : csv_data)
  : string + gmap string (list row) :=
  if negb (key_in "centreline_id" (fieldnames data)) then
    inl (cat ["Error processing CSV file '"; data_csv_file;
              "': CSV file '"; data_csv_file;
              "' is missing 'centreline_id' column."]%string)
  else if negb (key_in "start_time" (fieldnames data)) then
    inl (cat ["Error processing CSV file '"; data_csv_file;
              "': CSV file '"; data_csv_file;
              "' is missing 'start_time' column."]%string)
  else inr (group_rows (csv_rows data)).

Section TimeParsers.

Variable fromisoformat : string -> option Z.
Variable strftime : Z -> string.

(** One iteration of the loop of [get_overall_time_range]. *)
Definition range_step (valid : gset string) (acc : option Z * option Z)
    (r : row) : option Z * option Z :=
  if decide (row_key r ∈ valid) then
    match row_get "start_time" r with
    | None => acc
    | Some text =>
        match fromisoformat text with
        | None => acc
        | Some dt =>
            (match fst acc with
             | None => Some dt
             | Some overall_min =>
                 if dt <? overall_min then Some dt else Some overall_min
             end,
             match snd acc with
             | None => Some dt
             | Some overall_max =>
                 if dt >? overall_max then Some dt else Some overall_max
             end)
        end
    end
  else acc.

(** [get_overall_time_range(json_file, data_csv_file)], from the loaded
    intersections and CSV data. *)
Definition get_overall_time_range (intersections : list intersection)
    (data_csv_file : string) (data : csv_data) : result (Z * Z) :=
  if negb (key_in "start_time" (fieldnames data)) then
    Raise (ValueError (cat ["CSV file '"; data_csv_file;
                            "' is missing 'start_time' column."]%string))
  else if negb (key_in "centreline_id" (fieldnames data)) then
    Raise (ValueError (cat ["CSV file '"; data_csv_file;
                            "' is missing 'centreline_id' column."]%string))
  else
    match fold_left (range_step (valid_ids intersections)) (csv_rows data)
                    (None, None) with
    | (Some overall_min, Some overall_max) => Ok (overall_min, overall_max)
    | _ => Raise (ValueError
             "Could not determine overall time range from traffic data.")
    end.

(** The first loop of [get_data_availability_by_intersection]:
    [availability[key].append((st, et))]. *)
Definition collect_step (valid : gset string)
    (availability : gmap string (list Availability.interval)) (r : row)
  : gmap string (list Availability.interval) :=
  if decide (row_key r ∈ valid) then
    match row_times fromisoformat r with
    | Some iv => alter (fun intervals => intervals ++ [iv]) (row_key r)
                       availability
    | None => availability
    end
  else availability.

(** [get_data_availability_by_intersection(json_file, data_csv_file)], from
    the loaded intersections and CSV data. *)
Definition get_data_availability_by_intersection
    (intersections : list intersection) (data : csv_data)
  : result (gmap string (list availability)) :=
  if negb (key_in "start_time" (fieldnames data))
     || negb (key_in "centreline_id" (fieldnames data))
  then Raise (ValueError "CSV file is missing required columns.")
  else
    Ok (omap (fun intervals =>
                match intervals with
                | [] => None
                | _ => Some (availability_intervals strftime
                               (Availability.merge_intervals intervals))
                end)
             (fold_left (collect_step (valid_ids intersections))
                        (csv_rows data)
                        (gset_to_gmap [] (valid_ids intersections)))).

End TimeParsers.

(** The rows of an id, in file order. *)
Definition rows_of (id : string) (rows : list row) : list row :=
  List.filter (fun r => String.eqb (row_key r) id) rows.

End Utils.

(** ** Predicates of the further properties *)

Module MoreSpec.
Import Bearing EdgeMapping Locator FlowSynthesis Utils.

(** Text that [repr] leaves as it is between apostrophes: printable ASCII
    without apostrophe and backslash. *)
Definition plain_char (c : ascii) : bool :=
  let n := N_of_ascii c in
  (32 <=? n)%N && (n <? 127)%N && negb (Ascii.eqb c "'")
  && negb (Ascii.eqb c Py.backslash).

Definition plain (s : string) : bool :=
  forallb plain_char (list_ascii_of_string s).


(** The direction across the junction. *)
Definition opposite (d : direction) : direction :=
  match d with
  | north => south | south => north | east => west | west => east
  end.

(** The vehicle class written for a vehicle token of the vocabulary. *)
Definition vehicle_class (token : string) : string :=
  if String.eqb token "cars" then "car"%string else token.

(** A flow stems from a column of a row that starts inside the window: it
    is what the loop body emits for that column. *)
Definition emitted_by (fromisoformat parse_int : string -> option Z)
    (m : mapping) (intersection_id : string)
    (simulation_start_dt simulation_end_dt : Z) (rows : list row)
    (fl : flow) : Prop :=
  exists r row_start row_end key value,
    In r rows /\ row_times fromisoformat r = Some (row_start, row_end) /\
    simulation_start_dt <= row_start < simulation_end_dt /\
    In (key, value) r /\
    key_flow parse_int m intersection_id (row_start - simulation_start_dt)
             (row_end - row_start) key value = Emit fl.

(** The row is read by [generate_flows_for_intersection]: its two times
    parse and its start lies in the window. *)
Definition in_window (fromisoformat : string -> option Z)
    (simulation_start_dt simulation_end_dt : Z) (r : row) : bool :=
  match row_times fromisoformat r with
  | Some (row_start, _) =>
      (simulation_start_dt <=? row_start) && (row_start <? simulation_end_dt)
  | None => false
  end.

(** Both bounds of a reported interval are read by [strptime]. *)
Definition readable (strptime : string -> option Z) (iv : availability)
  : bool :=
  match strptime (av_start iv), strptime (av_end iv) with
  | Some _, Some _ => true
  | _, _ => false
  end.

(** The start times that [get_overall_time_range] takes into account: those
    that parse, of the rows whose id is one of the intersections'. *)
Definition counted_starts (fromisoformat : string -> option Z)
    (valid : gset string) (rows : list row) : list Z :=
  flat_map (fun r =>
              if decide (row_key r ∈ valid) then
                match row_get "start_time" r with
                | Some text => match fromisoformat text with
                               | Some dt => [dt]
                               | None => []
                               end
                | None => []
                end
              else []) rows.

(** The state of the scan of [get_overall_time_range] after rows with the
    counted start times [seen]. *)
Definition extremes (seen : list Z) (acc : option Z * option Z) : Prop :=
  match acc with
  | (None, None) => seen = []
  | (Some lo, Some hi) =>
      In lo seen /\ In hi seen /\ forall x, In x seen -> lo <= x <= hi
  | _ => False
  end.

End MoreSpec.

(** * Properties *)

(** ** The availability merge *)

Module AvailabilityFacts.
Import Availability.

Lemma fold_merge_step (rest pre : list interval) (cur : interval) :
  fold_left merge_step rest (pre ++ [cur]) = pre ++ merge_from cur rest.
Proof.
  revert pre cur.
  induction rest as [|iv rest IH]; intros pre cur; simpl; [reflexivity|].
  unfold merge_step. rewrite rev_app_distr. simpl.
  destruct (fst iv <=? snd cur).
  - rewrite removelast_last. apply IH.
  - rewrite <- app_assoc. simpl.
    replace (pre ++ [cur; iv]) with ((pre ++ [cur]) ++ [iv])
      by (rewrite <- app_assoc; reflexivity).
    rewrite IH. rewrite <- app_assoc. reflexivity.
Qed.

Lemma merge_sorted_run (l : list interval) : merge_sorted l = merge_run l.
Proof.
  destruct l as [|x r]; [reflexivity|].
  unfold merge_sorted. simpl.
  change (merge_step [] x) with ([] ++ [x]).
  apply fold_merge_step.
Qed.

(** *** Sorting *)

Lemma insert_by_start_perm x l : Permutation (x :: l) (insert_by_start x l).
Proof.
  induction l as [|y l IH]; simpl; [constructor; constructor|].
  destruct (fst x <=? fst y); [apply Permutation_refl|].
  eapply perm_trans; [apply perm_swap|]. constructor. exact IH.
Qed.

Lemma sort_by_start_perm l : Permutation l (sort_by_start l).
Proof.
  induction l as [|x l IH]; simpl; [constructor|].
  eapply perm_trans; [|apply insert_by_start_perm]. constructor. exact IH.
Qed.

Lemma insert_by_start_sorted x l :
  starts_sorted l -> starts_sorted (insert_by_start x l).
Proof.
  induction l as [|y l IH]; simpl; intros Hs; [tauto|].
  destruct (fst x <=? fst y) eqn:E.
  - apply Z.leb_le in E. simpl. tauto.
  - apply Z.leb_gt in E. destruct Hs as [Hh Ht].
    specialize (IH Ht). split; [|exact IH].
    destruct l as [|z l']; simpl in *.
    + lia.
    + destruct (fst x <=? fst z); lia.
Qed.

Lemma sort_by_start_sorted l : starts_sorted (sort_by_start l).
Proof.
  induction l as [|x l IH]; simpl; [exact I|].
  apply insert_by_start_sorted, IH.
Qed.

Lemma sort_by_start_id l : starts_sorted l -> sort_by_start l = l.
Proof.
  induction l as [|x l IH]; simpl; intros Hs; [reflexivity|].
  destruct Hs as [Hh Ht].
  rewrite (IH Ht). destruct l as [|y l']; [reflexivity|].
  simpl. apply Z.leb_le in Hh. rewrite Hh. reflexivity.
Qed.

(** *** Invariants of the merging loop *)

Lemma merge_from_head cur rest :
  exists e r, merge_from cur rest = (fst cur, e) :: r /\ snd cur <= e.
Proof.
  revert cur. induction rest as [|iv rest IH]; intros cur; simpl.
  - exists (snd cur), []. destruct cur; simpl. split; [reflexivity|lia].
  - destruct (fst iv <=? snd cur).
    + destruct (IH (fst cur, Z.max (snd cur) (snd iv))) as (e & r & -> & He).
      simpl in *. exists e, r. split; [reflexivity|lia].
    + exists (snd cur), (merge_from iv rest).
      destruct cur; simpl. split; [reflexivity|lia].
Qed.

Lemma merge_from_separated cur rest : separated (merge_from cur rest).
Proof.
  revert cur. induction rest as [|iv rest IH]; intros cur; simpl; [tauto|].
  destruct (fst iv <=? snd cur) eqn:E; [apply IH|].
  apply Z.leb_gt in E. specialize (IH iv).
  destruct (merge_from_head iv rest) as (e & r & Heq & _).
  rewrite Heq in *. simpl. split; [exact E|exact IH].
Qed.

Lemma merge_from_well_formed cur rest :
  well_formed cur -> Forall well_formed rest ->
  Forall well_formed (merge_from cur rest).
Proof.
  revert cur. induction rest as [|iv rest IH]; intros cur Hc Hr; simpl.
  - constructor; [exact Hc|constructor].
  - inversion Hr as [|? ? Hiv Hrest]; subst.
    destruct (fst iv <=? snd cur).
    + apply IH; [|exact Hrest]. unfold well_formed in *. simpl. lia.
    + constructor; [exact Hc|]. apply IH; assumption.
Qed.

Lemma merge_from_length cur rest :
  (length (merge_from cur rest) <= S (length rest))%nat.
Proof.
  revert cur. induction rest as [|iv rest IH]; intros cur; simpl; [lia|].
  destruct (fst iv <=? snd cur); simpl.
  - specialize (IH (fst cur, Z.max (snd cur) (snd iv))). lia.
  - specialize (IH iv). lia.
Qed.

Lemma merge_from_fixed cur rest :
  separated (cur :: rest) -> merge_from cur rest = cur :: rest.
Proof.
  revert cur. induction rest as [|iv rest IH]; intros cur Hs; [reflexivity|].
  destruct Hs as [Hh Ht]. cbn [merge_from].
  apply Z.leb_gt in Hh. rewrite Hh. f_equal. apply IH, Ht.
Qed.

Lemma merge_from_starts_sorted cur rest :
  starts_sorted (cur :: rest) -> starts_sorted (merge_from cur rest).
Proof.
  revert cur. induction rest as [|iv rest IH]; intros cur Hs; simpl; [tauto|].
  destruct Hs as [Hh Ht].
  destruct (fst iv <=? snd cur).
  - apply IH. destruct rest as [|y rest']; simpl in *; [tauto|].
    split; [lia|tauto].
  - specialize (IH iv Ht).
    destruct (merge_from_head iv rest) as (e & r & Heq & _).
    rewrite Heq in *. simpl. split; [exact Hh|exact IH].
Qed.


(** *** Coverage *)

Lemma inj_le (a b : Z) : a <= b <-> (inject_Z a <= inject_Z b)%Q.
Proof. rewrite Zle_Qle. tauto. Qed.

Lemma inj_lt (a b : Z) : a < b <-> (inject_Z a < inject_Z b)%Q.
Proof. rewrite Zlt_Qlt. tauto. Qed.

Lemma covered_by_cons iv l q :
  covered_by (iv :: l) q <-> covers iv q \/ covered_by l q.
Proof.
  unfold covered_by. split.
  - intros (x & [-> | Hin] & Hc); [left; exact Hc|right; eauto].
  - intros [Hc | (x & Hin & Hc)]; [exists iv|exists x]; simpl; auto.
Qed.

Lemma covered_by_nil q : ~ covered_by [] q.
Proof. intros (x & [] & _). Qed.

Lemma covered_by_perm l l' q :
  Permutation l l' -> covered_by l q -> covered_by l' q.
Proof.
  intros Hp (x & Hin & Hc). exists x. split; [|exact Hc].
  eapply Permutation_in; eassumption.
Qed.

Lemma covers_absorb cur iv q :
  fst cur <= fst iv -> fst iv <= snd cur -> well_formed iv ->
  covers (fst cur, Z.max (snd cur) (snd iv)) q <-> covers cur q \/ covers iv q.
Proof.
  destruct cur as [s e], iv as [s' e']. unfold covers, well_formed. simpl.
  intros H1 H2 H3.
  assert (Q1 := proj1 (inj_le _ _) H1).
  assert (Q2 := proj1 (inj_le _ _) H2).
  assert (Q3 := proj1 (inj_le _ _) H3).
  destruct (Z.max_spec e e') as [[Hlt ->] | [Hle ->]].
  - assert (Q4 := proj1 (inj_lt _ _) Hlt).
    split; [intros [Ha Hb]|intros [[Ha Hb]|[Ha Hb]]].
    + destruct (Qlt_le_dec q (inject_Z s')); [left|right]; split; Lqa.lra.
    + split; Lqa.lra.
    + split; Lqa.lra.
  - assert (Q4 := proj1 (inj_le _ _) Hle).
    split; [intros [Ha Hb]; left; split; Lqa.lra|].
    intros [[Ha Hb]|[Ha Hb]]; split; Lqa.lra.
Qed.

Lemma merge_from_covered cur rest q :
  starts_sorted (cur :: rest) -> Forall well_formed rest ->
  covered_by (merge_from cur rest) q <-> covered_by (cur :: rest) q.
Proof.
  revert cur. induction rest as [|iv rest IH]; intros cur Hs Hw; [tauto|].
  destruct Hs as [Hh Ht]. inversion Hw as [|? ? Hiv Hrest]; subst.
  cbn [merge_from]. destruct (fst iv <=? snd cur) eqn:E.
  - apply Z.leb_le in E. rewrite IH; [|..|exact Hrest].
    + rewrite !covered_by_cons. rewrite (covers_absorb cur iv q Hh E Hiv).
      tauto.
    + destruct rest as [|y rest']; simpl in *; [tauto|].
      split; [lia|tauto].
  - rewrite covered_by_cons, (IH iv Ht Hrest), !covered_by_cons. tauto.
Qed.

(** *** Canonical lists are determined by what they cover *)

Lemma canonical_tail iv l : canonical (iv :: l) -> canonical l.
Proof.
  intros [Hw Hs]. inversion Hw; subst. destruct Hs. split; assumption.
Qed.

Lemma canonical_beyond_head iv l x :
  canonical (iv :: l) -> In x l -> snd iv < fst x.
Proof.
  revert iv. induction l as [|y l IH]; intros iv Hc Hin; [destruct Hin|].
  destruct Hc as [Hw [Hh Hs]].
  inversion Hw as [|? ? Hiv Hw']; subst.
  inversion Hw' as [|? ? Hy ?]; subst.
  destruct Hin as [-> | Hin]; [exact Hh|].
  assert (snd y < fst x) by (apply IH; [split|]; assumption).
  unfold well_formed in *. lia.
Qed.

Lemma half_step (a b : Z) :
  a < b -> (inject_Z a < inject_Z a + (1 # 2) /\
            inject_Z a + (1 # 2) < inject_Z b)%Q.
Proof.
  intros H. assert (H' : a + 1 <= b) by lia.
  apply inj_le in H'. rewrite inject_Z_plus in H'.
  change (inject_Z 1) with 1%Q in H'. split; Lqa.lra.
Qed.

(** The instant half a second after the end of the head interval lies in a
    gap. *)
Lemma canonical_gap iv l :
  canonical (iv :: l) -> ~ covered_by (iv :: l) (inject_Z (snd iv) + (1 # 2)).
Proof.
  intros Hc (x & [<- | Hin] & [Ha Hb]).
  - Lqa.lra.
  - pose proof (canonical_beyond_head _ _ _ Hc Hin) as Hlt.
    apply half_step in Hlt. Lqa.lra.
Qed.

Lemma canonical_lower_bound iv l q :
  canonical (iv :: l) -> covered_by (iv :: l) q -> (inject_Z (fst iv) <= q)%Q.
Proof.
  intros Hc (x & [<- | Hin] & [Ha Hb]); [exact Ha|].
  pose proof (canonical_beyond_head _ _ _ Hc Hin) as Hlt.
  destruct Hc as [Hw _]. inversion Hw as [|? ? Hiv _]; subst.
  unfold well_formed in Hiv.
  apply inj_le in Hiv. apply inj_lt in Hlt. Lqa.lra.
Qed.

Lemma canonical_head_covered iv l :
  canonical (iv :: l) -> covered_by (iv :: l) (inject_Z (fst iv)).
Proof.
  intros [Hw _]. inversion Hw as [|? ? Hiv _]; subst.
  exists iv. split; [left; reflexivity|].
  unfold covers, well_formed in *. apply inj_le in Hiv. split; Lqa.lra.
Qed.

Lemma canonical_same_start iv1 l1 iv2 l2 :
  canonical (iv1 :: l1) -> canonical (iv2 :: l2) ->
  (forall q, covered_by (iv1 :: l1) q <-> covered_by (iv2 :: l2) q) ->
  fst iv1 = fst iv2.
Proof.
  intros H1 H2 Heq.
  pose proof (canonical_head_covered _ _ H1) as C1.
  pose proof (canonical_head_covered _ _ H2) as C2.
  apply Heq in C1. apply Heq in C2.
  apply (canonical_lower_bound _ _ _ H2) in C1.
  apply (canonical_lower_bound _ _ _ H1) in C2.
  apply inj_le in C1. apply inj_le in C2. lia.
Qed.

Lemma canonical_end_le iv1 l1 iv2 l2 :
  canonical (iv1 :: l1) -> canonical (iv2 :: l2) ->
  (forall q, covered_by (iv1 :: l1) q <-> covered_by (iv2 :: l2) q) ->
  snd iv2 <= snd iv1.
Proof.
  intros H1 H2 Heq.
  destruct (Z_le_gt_dec (snd iv2) (snd iv1)) as [Hle | Hgt]; [exact Hle|].
  exfalso. apply (canonical_gap _ _ H1). apply Heq.
  exists iv2. split; [left; reflexivity|].
  pose proof (canonical_same_start _ _ _ _ H1 H2 Heq) as Hs.
  destruct H1 as [Hw _]. inversion Hw as [|? ? Hiv _]; subst.
  unfold covers, well_formed in *. rewrite <- Hs.
  apply inj_le in Hiv.
  assert (Hlt : snd iv1 < snd iv2) by lia.
  apply half_step in Hlt. split; Lqa.lra.
Qed.

Lemma canonical_tail_covered iv l q :
  canonical (iv :: l) ->
  covered_by l q <-> covered_by (iv :: l) q /\ (inject_Z (snd iv) < q)%Q.
Proof.
  intros Hc. split.
  - intros (x & Hin & Hx). split; [exists x; split; [right|]; assumption|].
    pose proof (canonical_beyond_head _ _ _ Hc Hin) as Hlt.
    apply inj_lt in Hlt. destruct Hx. Lqa.lra.
  - intros [(x & [<- | Hin] & Hx) Hq].
    + destruct Hx. Lqa.lra.
    + exists x. split; assumption.
Qed.

Lemma canonical_unique l1 l2 :
  canonical l1 -> canonical l2 ->
  (forall q, covered_by l1 q <-> covered_by l2 q) -> l1 = l2.
Proof.
  revert l2. induction l1 as [|iv1 l1 IH]; intros [|iv2 l2] H1 H2 Heq.
  - reflexivity.
  - exfalso. apply (covered_by_nil (inject_Z (fst iv2))), Heq.
    apply canonical_head_covered, H2.
  - exfalso. apply (covered_by_nil (inject_Z (fst iv1))), Heq.
    apply canonical_head_covered, H1.
  - assert (Hs := canonical_same_start _ _ _ _ H1 H2 Heq).
    assert (He1 := canonical_end_le _ _ _ _ H1 H2 Heq).
    assert (He2 : snd iv1 <= snd iv2).
    { apply (canonical_end_le _ _ _ _ H2 H1). intros q. symmetry. apply Heq. }
    assert (Hiv : iv1 = iv2).
    { destruct iv1, iv2; simpl in *. f_equal; lia. }
    subst iv2. f_equal.
    apply IH; [eapply canonical_tail; eassumption..|].
    intros q. rewrite (canonical_tail_covered _ _ q H1).
    rewrite (canonical_tail_covered _ _ q H2). rewrite Heq. tauto.
Qed.


(** *** The merge yields the canonical cover *)

Lemma separated_ascending l :
  Forall well_formed l -> separated l -> starts_ascending l.
Proof.
  induction l as [|x l IH]; intros Hw Hs; [exact I|].
  inversion Hw as [|? ? Hx Hw']; subst. destruct Hs as [Hh Ht].
  split; [|apply IH; assumption].
  destruct l as [|y l']; [exact I|]. unfold well_formed in Hx. lia.
Qed.

Lemma canonical_pairwise_apart l : canonical l -> pairwise_apart l.
Proof.
  induction l as [|x l IH]; intros Hc i j a b Hij Ha Hb.
  - destruct i; discriminate.
  - destruct j as [|j]; [lia|]. simpl in Hb. destruct i as [|i].
    + injection Ha as <-. apply nth_error_In in Hb.
      eapply canonical_beyond_head; eassumption.
    + simpl in Ha. apply (IH (canonical_tail _ _ Hc) i j); [lia|assumption..].
Qed.

Lemma merge_run_canonical l :
  Forall well_formed l -> canonical (merge_run l).
Proof.
  destruct l as [|x r]; intros Hw; simpl; [split; [constructor|exact I]|].
  inversion Hw; subst.
  split; [apply merge_from_well_formed; assumption|apply merge_from_separated].
Qed.

Lemma merge_intervals_canonical X :
  Forall well_formed X -> canonical (merge_intervals X).
Proof.
  intros Hw. unfold merge_intervals. rewrite merge_sorted_run.
  apply merge_run_canonical.
  eapply Permutation_Forall; [apply sort_by_start_perm|exact Hw].
Qed.

Lemma merge_intervals_covered X q :
  Forall well_formed X -> covered_by (merge_intervals X) q <-> covered_by X q.
Proof.
  intros Hw. unfold merge_intervals. rewrite merge_sorted_run.
  assert (Hp := sort_by_start_perm X).
  assert (Hs := sort_by_start_sorted X).
  assert (Hw' : Forall well_formed (sort_by_start X))
    by (eapply Permutation_Forall; eassumption).
  transitivity (covered_by (sort_by_start X) q).
  - destruct (sort_by_start X) as [|x r]; [tauto|]. simpl.
    inversion Hw'; subst. apply merge_from_covered; assumption.
  - split; apply covered_by_perm; [apply Permutation_sym|]; exact Hp.
Qed.

Lemma merge_intervals_length X :
  (length (merge_intervals X) <= length X)%nat.
Proof.
  unfold merge_intervals. rewrite merge_sorted_run.
  rewrite (Permutation_length (sort_by_start_perm X)).
  destruct (sort_by_start X) as [|x r]; simpl; [lia|apply merge_from_length].
Qed.

Lemma merge_intervals_fixed M :
  starts_sorted M -> separated M -> merge_intervals M = M.
Proof.
  intros Hs Hsep. unfold merge_intervals.
  rewrite merge_sorted_run, (sort_by_start_id _ Hs).
  destruct M as [|h t]; [reflexivity|]. apply merge_from_fixed, Hsep.
Qed.

Lemma merge_intervals_idempotent X :
  merge_intervals (merge_intervals X) = merge_intervals X.
Proof.
  apply merge_intervals_fixed; unfold merge_intervals;
    rewrite merge_sorted_run; assert (Hs := sort_by_start_sorted X);
    destruct (sort_by_start X) as [|x r]; simpl; try exact I.
  - apply merge_from_starts_sorted, Hs.
  - apply merge_from_separated.
Qed.

Lemma merge_intervals_perm X P :
  Forall well_formed X -> Permutation P X ->
  merge_intervals P = merge_intervals X.
Proof.
  intros Hw Hp.
  assert (Hw' : Forall well_formed P)
    by (eapply Permutation_Forall; [apply Permutation_sym|]; eassumption).
  apply canonical_unique; try (apply merge_intervals_canonical; assumption).
  intros q. rewrite !merge_intervals_covered by assumption.
  split; apply covered_by_perm; [|apply Permutation_sym]; exact Hp.
Qed.

(** C4.  On pairs with [start <= end] the availability merge returns the
    canonical cover of its input: the result is sorted ascending by start,
    its intervals are well formed and pairwise neither overlap nor touch,
    and it covers exactly the instants the input covers; it is the only
    list of that shape with this cover, and no list of well-formed
    intervals with this cover is shorter.  Merging
    [(10,20),(15,25),(30,40)] gives [(10,25),(30,40)]. *)
Theorem merge_intervals_minimal_cover (X : list interval) :
  Forall well_formed X ->
  let M := merge_intervals X in
  (starts_ascending M /\ Forall well_formed M /\ pairwise_apart M)
  /\ (forall q, covered_by M q <-> covered_by X q)
  /\ (forall L, Forall well_formed L -> separated L ->
                (forall q, covered_by L q <-> covered_by X q) -> L = M)
  /\ (forall L, Forall well_formed L ->
                (forall q, covered_by L q <-> covered_by X q) ->
                (length M <= length L)%nat)
  /\ merge_intervals [(10, 20); (15, 25); (30, 40)] = [(10, 25); (30, 40)].
Proof.
  intros Hw M.
  assert (Hc : canonical M) by (apply merge_intervals_canonical, Hw).
  assert (Hcov : forall q, covered_by M q <-> covered_by X q)
    by (intros q; apply merge_intervals_covered, Hw).
  repeat split.
  - apply separated_ascending; apply Hc.
  - apply Hc.
  - apply canonical_pairwise_apart, Hc.
  - apply Hcov.
  - apply Hcov.
  - intros L HwL HsL HL. apply canonical_unique; [split; assumption|exact Hc|].
    intros q. rewrite HL, Hcov. tauto.
  - intros L HwL HL.
    assert (HM : merge_intervals L = M).
    { apply canonical_unique; [apply merge_intervals_canonical, HwL|exact Hc|].
      intros q. rewrite (merge_intervals_covered L q HwL), HL, Hcov. tauto. }
    rewrite <- HM. apply merge_intervals_length.
Qed.

Lemma merge_intervals_minimal_cover_witness :
  let X := [(10, 20); (15, 25); (30, 40)] in
  Forall well_formed X /\
  (forall q, covered_by (merge_intervals X) q <-> covered_by X q).
Proof.
  intros X.
  assert (Hw : Forall well_formed X)
    by (repeat constructor; unfold well_formed; simpl; lia).
  split; [exact Hw|].
  exact (proj1 (proj2 (merge_intervals_minimal_cover X Hw))).
Defined.

(** C7 (as amended).  The availability merge is idempotent on every input
    list, and on pairs with [start <= end] its result does not depend on the
    order of the input. *)
Theorem merge_intervals_idempotent_order_independent :
  (forall X, merge_intervals (merge_intervals X) = merge_intervals X)
  /\ (forall X P, Forall well_formed X -> Permutation P X ->
                  merge_intervals P = merge_intervals X).
Proof.
  split; [exact merge_intervals_idempotent|exact merge_intervals_perm].
Qed.

Lemma merge_intervals_idempotent_order_independent_witness :
  let X := [(10, 20); (15, 25); (30, 40)] in
  let P := [(30, 40); (10, 20); (15, 25)] in
  Forall well_formed X /\ Permutation P X /\
  merge_intervals P = merge_intervals X.
Proof.
  intros X P.
  assert (Hw : Forall well_formed X)
    by (repeat constructor; unfold well_formed; simpl; lia).
  assert (Hp : Permutation P X).
  { exact (Permutation_cons_append [(10, 20); (15, 25)] (30, 40)). }
  split; [exact Hw|]. split; [exact Hp|].
  exact (proj2 merge_intervals_idempotent_order_independent X P Hw Hp).
Defined.

(** C7 fails as stated: a pair whose end precedes its start makes the
    result depend on the order of two rows with the same start. *)
Lemma merge_intervals_order_dependent :
  ~ (forall X P, Permutation P X -> merge_intervals P = merge_intervals X).
Proof.
  intros H.
  specialize (H [(10, 5); (10, 20)] [(10, 20); (10, 5)] (perm_swap _ _ _)).
  vm_compute in H. discriminate H.
Qed.

End AvailabilityFacts.

(** ** The overlap predicate *)

Module OverlapFacts.
Import FlowSynthesis.

Lemma time_overlaps_parsed strptime intervals qs qe :
  time_overlaps strptime intervals qs qe = true <->
  exists iv s e, In iv intervals /\ strptime (av_start iv) = Some s /\
                 strptime (av_end iv) = Some e /\ qs < e /\ qe > s.
Proof.
  induction intervals as [|iv l IH]; simpl.
  - split; [discriminate|]. intros (? & ? & ? & [] & _).
  - destruct (strptime (av_start iv)) as [s|] eqn:Es;
      [destruct (strptime (av_end iv)) as [e|] eqn:Ee|].
    + destruct ((qs <? e) && (qe >? s)) eqn:Hb.
      * split; [intros _|reflexivity].
        apply andb_true_iff in Hb. destruct Hb as [H1 H2].
        apply Z.ltb_lt in H1. apply Z.gtb_lt in H2.
        exists iv, s, e. repeat split; auto. lia.
      * rewrite IH. split.
        -- intros (iv' & s' & e' & Hin & H). exists iv', s', e'. tauto.
        -- intros (iv' & s' & e' & [<- | Hin] & Hs & He & H1 & H2).
           ++ rewrite Es in Hs. rewrite Ee in He.
              injection Hs as <-. injection He as <-.
              apply andb_false_iff in Hb.
              destruct Hb as [Hb | Hb];
                [apply Z.ltb_ge in Hb|rewrite Z.gtb_ltb in Hb;
                                      apply Z.ltb_ge in Hb]; lia.
           ++ exists iv', s', e'. tauto.
    + rewrite IH. split.
      * intros (iv' & s' & e' & Hin & H). exists iv', s', e'. tauto.
      * intros (iv' & s' & e' & [<- | Hin] & Hs & He & H).
        -- congruence.
        -- exists iv', s', e'. tauto.
    + rewrite IH. split.
      * intros (iv' & s' & e' & Hin & H). exists iv', s', e'. tauto.
      * intros (iv' & s' & e' & [<- | Hin] & Hs & He & H).
        -- congruence.
        -- exists iv', s', e'. tauto.
Qed.

(** C5.  On an interval set as the pipeline reports it (each bound
    formatted by [strftime] and read back by [strptime]), the overlap
    predicate holds exactly when some interval [(s, e)] of the set has
    [qStart < e] and [qEnd > s]; the window [18,22) meets
    [(10,25),(30,40)] and the window [26,29) does not. *)
Theorem time_overlaps_half_open :
  (forall strptime strftime (merged : list Availability.interval) qStart qEnd,
      (forall iv, In iv merged ->
                  strptime (strftime (fst iv)) = Some (fst iv) /\
                  strptime (strftime (snd iv)) = Some (snd iv)) ->
      time_overlaps strptime (availability_intervals strftime merged)
                    qStart qEnd = true <->
      exists s e, In (s, e) merged /\ qStart < e /\ qEnd > s)
  /\ time_overlaps Py.strptime
       (availability_intervals Py.strftime [(10, 25); (30, 40)]) 18 22 = true
  /\ time_overlaps Py.strptime
       (availability_intervals Py.strftime [(10, 25); (30, 40)]) 26 29 = false.
Proof.
  split; [|split; reflexivity].
  intros strptime strftime merged qs qe Hrt.
  rewrite time_overlaps_parsed. unfold availability_intervals. split.
  - intros (iv & s & e & Hin & Hs & He & H).
    apply in_map_iff in Hin. destruct Hin as ([s0 e0] & <- & Hin).
    destruct (Hrt _ Hin) as [R1 R2]. simpl in *.
    rewrite R1 in Hs. rewrite R2 in He.
    injection Hs as <-. injection He as <-. exists s0, e0. tauto.
  - intros (s & e & Hin & H).
    destruct (Hrt _ Hin) as [R1 R2]. simpl in *.
    exists {| av_start := strftime s; av_end := strftime e |}, s, e.
    split; [|tauto].
    apply in_map_iff. exists (s, e). split; [reflexivity|exact Hin].
Qed.

Lemma time_overlaps_half_open_witness :
  time_overlaps Py.strptime
    (availability_intervals Py.strftime [(10, 25); (30, 40)]) 18 22 = true <->
  exists s e, In (s, e) [(10, 25); (30, 40)] /\ 18 < e /\ 22 > s.
Proof.
  apply (proj1 time_overlaps_half_open Py.strptime Py.strftime).
  intros iv [<- | [<- | []]]; split; reflexivity.
Defined.

End OverlapFacts.

(** ** The direction classifier *)

Module BearingFacts.
Import Bearing.
Local Open Scope R_scope.

Ltac decide_reals :=
  repeat match goal with
         | |- context [Rlt_dec ?a ?b] => destruct (Rlt_dec a b)
         | |- context [Rle_dec ?a ?b] => destruct (Rle_dec a b)
         | |- context [Rge_dec ?a ?b] => destruct (Rge_dec a b)
         end.

Lemma classify_north a : classify_direction a = north <-> 45 <= a < 135.
Proof.
  unfold classify_direction.
  decide_reals; split; intros H; try discriminate; try reflexivity; lra.
Qed.

Lemma classify_south a : classify_direction a = south <-> 225 <= a < 315.
Proof.
  unfold classify_direction.
  decide_reals; split; intros H; try discriminate; try reflexivity; lra.
Qed.

(** The bearing due north and due south, for the scenario of the edge
    mapper. *)

Lemma degrees_fraction p q : q <> 0 -> degrees (p * PI / q) = p * 180 / q.
Proof. intros H. unfold degrees. field. split; [exact H|apply PI_neq0]. Qed.

Lemma bearing_of_angle x1 y1 x2 y2 a :
  atan2 (y2 - y1) (x2 - x1) = a ->
  compute_bearing x1 y1 x2 y2 =
  if Rlt_dec (degrees a) 0 then degrees a + 360 else degrees a.
Proof. intros <-. reflexivity. Qed.

Lemma bearing_due_north x y r : 0 < r -> compute_bearing x y x (y + r) = 90.
Proof.
  intros Hr. rewrite (bearing_of_angle _ _ _ _ (1 * PI / 2)).
  - rewrite degrees_fraction by lra. decide_reals; lra.
  - unfold atan2. decide_reals; lra.
Qed.

Lemma bearing_due_south x y r : 0 < r -> compute_bearing x y x (y - r) = 270.
Proof.
  intros Hr. rewrite (bearing_of_angle _ _ _ _ (-1 * PI / 2)).
  - rewrite degrees_fraction by lra. decide_reals; lra.
  - unfold atan2. decide_reals; lra.
Qed.

End BearingFacts.

(** ** The direction classifier in binary64 arithmetic *)

Module Binary64Facts.
Import Floats Bearing Binary64.
Local Open Scope float_scope.

Lemma finite_cases x :
  is_finite x = true ->
  match Prim2SF x with
  | S754_zero _ | S754_finite _ _ _ => True
  | _ => False
  end.
Proof.
  unfold is_finite, is_nan, is_infinity.
  rewrite !eqb_spec, abs_spec.
  destruct (Prim2SF x) as [s|s| |s m e]; try exact (fun _ => I).
  - destruct s; vm_compute; discriminate.
  - vm_compute. discriminate.
Qed.

Lemma zero_float x s :
  Prim2SF x = S754_zero s -> x = if s then (-0)%float else 0%float.
Proof.
  intros H. apply Prim2SF_inj. rewrite H. destruct s; reflexivity.
Qed.

(** The difference of two equal finite floats is a zero, and it is the
    negative zero only for [-0.0 - 0.0]. *)
Lemma sub_coincident a b :
  is_finite a = true -> (a =? b) = true ->
  (a = 0 /\ b = (-0)%float /\ b - a = (-0)%float) \/ b - a = 0.
Proof.
  intros Hfin Heq. apply finite_cases in Hfin.
  rewrite eqb_spec in Heq. unfold SFeqb in Heq.
  destruct (Prim2SF a) as [sa|sa| |sa ma ea] eqn:Ea; try contradiction.
  - destruct (Prim2SF b) as [sb|sb| |sb mb eb] eqn:Eb; simpl in Heq;
      try discriminate; try (destruct sb; discriminate).
    apply zero_float in Ea, Eb. subst a b.
    destruct sa, sb; [right|right|left|right]; try reflexivity.
    repeat split; reflexivity.
  - destruct (Prim2SF b) as [sb|sb| |sb mb eb] eqn:Eb; simpl in Heq;
      try discriminate; try (destruct sa; discriminate);
      try (destruct sb; discriminate).
    assert (Hsame : sb = sa /\ eb = ea /\ mb = ma).
    { rewrite Pos.compare_cont_spec in Heq. simpl Pos.switch_Eq in Heq.
      destruct sa, sb; try discriminate;
        destruct (Z.compare_spec ea eb) as [He|He|He]; try discriminate;
        destruct (Pos.compare_spec ma mb) as [Hm|Hm|Hm];
        try discriminate; auto. }
    destruct Hsame as (-> & -> & ->).
    assert (b = a) by (apply Prim2SF_inj; congruence). subst b.
    right. apply Prim2SF_inj. rewrite sub_spec, Ea.
    unfold SF64sub, SFsub. rewrite Z.min_id, Z.sub_diag. reflexivity.
Qed.

(** C6.  The bearing is not always below 360: for the points [(0, 0)] and
    [(1, -1e-16)] the angle is [-5.7e-15] degrees, and the binary64 sum
    [angle + 360] rounds to [360.0].  (The classification of [360.0] is
    still east.) *)
Theorem bearing_reaches_360 :
  let b := compute_bearing Libm.atan2 0 0 1 (-0x1.cd2b297d889bcp-54) in
  degrees (Libm.atan2 (-0x1.cd2b297d889bcp-54 - 0) (1 - 0))
  = (-0x1.9cdc0ee0d4ca5p-48)%float
  /\ b = 360 /\ (b <? 360) = false /\ classify_direction b = east.
Proof. vm_compute. repeat split; reflexivity. Qed.

Lemma bearing_of_zeros atan2 dy dx :
  zero_cases atan2 ->
  dy = 0 \/ dy = (-0)%float ->
  let angle := degrees (atan2 dy dx) in
  let b := if angle <? 0 then angle + 360 else angle in
  (dx = 0 -> (b =? 0) = true /\ classify_direction b = east)
  /\ (dx = (-0)%float -> b = 180 /\ classify_direction b = west).
Proof.
  intros (Hpp & Hnp & Hpn & Hnn) Hdy. split; intros ->.
  - destruct Hdy as [-> | ->]; cbv zeta; [rewrite Hpp|rewrite Hnp];
      vm_compute; split; reflexivity.
  - destruct Hdy as [-> | ->]; cbv zeta; [rewrite Hpn|rewrite Hnn];
      vm_compute; split; reflexivity.
Qed.

(** C9 (as amended).  Two finite points that coincide ([x1 == x2] and
    [y1 == y2]) are classified east, with a bearing equal to zero, except
    when [x1] is [0.0] and [x2] is [-0.0]: the difference [x2 - x1] is then
    the negative zero, [atan2] returns pi, and the pair is classified west,
    with bearing 180.  Where [atan2] returns NaN (coordinates that are NaN,
    or infinities of one sign), no comparison holds and the classification
    falls through to south. *)
Theorem bearing_coincident (atan2 : float -> float -> float) :
  zero_cases atan2 ->
  (forall x1 y1 x2 y2,
      is_finite x1 = true -> is_finite y1 = true ->
      (x1 =? x2) = true -> (y1 =? y2) = true ->
      let b := compute_bearing atan2 x1 y1 x2 y2 in
      (x1 = 0 /\ x2 = (-0)%float ->
       b = 180 /\ classify_direction b = west)
      /\ (~ (x1 = 0 /\ x2 = (-0)%float) ->
          (b =? 0) = true /\ classify_direction b = east))
  /\ (forall x1 y1 x2 y2,
         atan2 (y2 - y1) (x2 - x1) = nan ->
         classify_direction (compute_bearing atan2 x1 y1 x2 y2) = south).
Proof.
  intros Hzero. split.
  - intros x1 y1 x2 y2 Hfx Hfy Hx Hy b.
    assert (Hdy : y2 - y1 = 0 \/ y2 - y1 = (-0)%float).
    { destruct (sub_coincident y1 y2 Hfy Hy) as [(_ & _ & H) | H]; auto. }
    destruct (bearing_of_zeros atan2 (y2 - y1) (x2 - x1) Hzero Hdy)
      as [Hpos Hneg].
    destruct (sub_coincident x1 x2 Hfx Hx) as [(H1 & H2 & Hd) | Hd].
    + split; [intros _; exact (Hneg Hd)|].
      intros Hno. exfalso. apply Hno. split; assumption.
    + split; [|intros _; exact (Hpos Hd)].
      intros [-> ->]. vm_compute in Hd. discriminate Hd.
  - intros x1 y1 x2 y2 Hnan. unfold compute_bearing. rewrite Hnan.
    vm_compute. reflexivity.
Qed.

Lemma bearing_coincident_witness :
  zero_cases Libm.atan2 /\
  classify_direction
    (compute_bearing Libm.atan2 0x1.8p+0 2 0x1.8p+0 2) = east.
Proof.
  assert (Hzero : zero_cases Libm.atan2)
    by (repeat split; vm_compute; reflexivity).
  split; [exact Hzero|].
  refine (proj2 (proj2 (proj1 (bearing_coincident Libm.atan2 Hzero)
                          0x1.8p+0 2 0x1.8p+0 2 eq_refl eq_refl eq_refl
                          eq_refl) _)).
  intros [H _]. vm_compute in H. discriminate H.
Defined.

(** C9 fails as stated: the points [(0.0, 0.0)] and [(-0.0, 0.0)] coincide,
    yet their bearing is 180 and their classification west. *)
Lemma coincident_pair_west :
  (0 =? -0) = true /\ (0 =? 0) = true
  /\ compute_bearing Libm.atan2 0 0 (-0) 0 = 180
  /\ classify_direction (compute_bearing Libm.atan2 0 0 (-0) 0) = west
  /\ classify_direction (compute_bearing Libm.atan2 0 0 (-0) 0) <> east.
Proof. vm_compute. repeat split; try reflexivity. discriminate. Qed.

End Binary64Facts.

(** ** The edge mapper *)

Module EdgeMappingFacts.
Import Bearing EdgeMapping.

Lemma direction_eqb_eq a b : direction_eqb a b = true <-> a = b.
Proof. destruct a, b; simpl; split; intros H; congruence. Qed.

Lemma filed_nil d id : ~ filed d [] id.
Proof. intros (ids & H & _). discriminate H. Qed.

Lemma filed_setdefault d k x table id :
  filed d (setdefault_append k x table) id <->
  filed d table id \/ (d = k /\ id = x).
Proof.
  unfold filed. induction table as [|[k' v] table IH]; simpl.
  - destruct (direction_eqb d k) eqn:E.
    + apply direction_eqb_eq in E. subst. split.
      * intros (ids & [= <-] & [<- | []]). right. tauto.
      * intros [(ids & H & _) | [_ ->]]; [discriminate|].
        exists [x]. simpl. tauto.
    + split.
      * intros (ids & H & _). discriminate.
      * intros [(ids & H & _) | [-> _]]; [discriminate|].
        destruct k; discriminate.
  - destruct (direction_eqb k k') eqn:Ek; simpl.
    + apply direction_eqb_eq in Ek. subst k'.
      destruct (direction_eqb d k) eqn:Ed.
      * apply direction_eqb_eq in Ed. subst d. split.
        -- intros (ids & [= <-] & Hin). apply in_app_iff in Hin.
           destruct Hin as [Hin | [<- | []]]; [left; eauto|right; tauto].
        -- intros [(ids & [= <-] & Hin) | [_ ->]];
             (eexists; split; [reflexivity|apply in_app_iff; simpl; tauto]).
      * split.
        -- intros H. left. exact H.
        -- intros [H | [-> _]]; [exact H|].
           destruct k; discriminate.
    + destruct (direction_eqb d k') eqn:Ed.
      * apply direction_eqb_eq in Ed. subst k'. split.
        -- intros H. left. exact H.
        -- intros [H | [-> _]]; [exact H|].
           destruct k; discriminate.
      * exact IH.
Qed.

Lemma filed_fold (dir_of : edge -> direction) edges table d id :
  filed d (fold_left (file_edge dir_of) edges table) id <->
  filed d table id \/
  exists e, In e edges /\ is_edge_for_cars e = true /\ edge_id e = id /\
            dir_of e = d.
Proof.
  revert table. induction edges as [|e edges IH]; intros table; simpl.
  - split; [tauto|]. intros [H | (e & [] & _)]. exact H.
  - rewrite IH. unfold file_edge.
    destruct (is_edge_for_cars e) eqn:Ecar.
    + rewrite filed_setdefault. split.
      * intros [[H | [-> ->]] | (e' & Hin & H)].
        -- left. exact H.
        -- right. exists e. tauto.
        -- right. exists e'. tauto.
      * intros [H | (e' & [<- | Hin] & Hc & Hid & Hd)].
        -- tauto.
        -- left. right. split; congruence.
        -- right. exists e'. tauto.
    + split.
      * intros [H | (e' & Hin & H)]; [tauto|]. right. exists e'. tauto.
      * intros [H | (e' & [<- | Hin] & Hc & H)]; [tauto|congruence|].
        right. exists e'. tauto.
Qed.

(** C1 (as amended).  The edge ids that [map_junction_edges] files under a
    direction of the incoming table are exactly those of the drivable
    incoming edges of the junction for which the bearing from the junction
    to the edge's from-node is classified as that direction. *)
Theorem incoming_edges_filed_by_arrival_side net junction_id m junction :
  map_junction_edges net junction_id = Ok m ->
  getNode net junction_id = Ok junction ->
  forall d id,
    filed d (incoming m) id <->
    exists e, In e (getIncoming net junction) /\ is_edge_for_cars e = true /\
              edge_id e = id /\
              classify_direction
                (compute_bearing (fst (node_coord junction))
                                 (snd (node_coord junction))
                                 (fst (node_coord (from_node e)))
                                 (snd (node_coord (from_node e)))) = d.
Proof.
  intros Hm Hj d id. unfold map_junction_edges in Hm. rewrite Hj in Hm.
  injection Hm as <-. simpl. rewrite filed_fold. split.
  - intros [H | H]; [destruct (filed_nil _ _ H)|exact H].
  - intros H. right. exact H.
Qed.

Lemma incoming_edges_filed_by_arrival_side_witness :
  exists m,
    map_junction_edges demo_net "J" = Ok m /\
    getNode demo_net "J" = Ok demo_junction /\
    (filed north (incoming m) "e1" <->
     exists e, In e (getIncoming demo_net demo_junction) /\
               is_edge_for_cars e = true /\ edge_id e = "e1"%string /\
               classify_direction
                 (compute_bearing (fst (node_coord demo_junction))
                                  (snd (node_coord demo_junction))
                                  (fst (node_coord (from_node e)))
                                  (snd (node_coord (from_node e)))) = north).
Proof.
  eexists. split; [reflexivity|]. split; [reflexivity|].
  apply (incoming_edges_filed_by_arrival_side demo_net "J" _ demo_junction);
    reflexivity.
Defined.

Lemma demo_edge_side : incoming_direction demo_junction demo_edge = north.
Proof.
  unfold incoming_direction. cbn [demo_junction demo_edge demo_north_node
    node_coord from_node fst snd].
  replace 10%R with (0 + 10)%R by lra.
  rewrite BearingFacts.bearing_due_north by lra.
  apply BearingFacts.classify_north. lra.
Qed.

Lemma demo_edge_heading :
  classify_direction (compute_bearing 0 10 0 0) = south.
Proof.
  replace (compute_bearing 0 10 0 0) with (compute_bearing 0 10 0 (10 - 10))
    by (f_equal; lra).
  rewrite BearingFacts.bearing_due_south by lra.
  apply BearingFacts.classify_south. lra.
Qed.

(** C1 fails as stated: an edge that arrives from a node due north of the
    junction is filed under north, not under the direction (south) of the
    bearing from that node to the junction. *)
Lemma incoming_edge_not_filed_by_heading :
  ~ (forall net junction_id m junction e,
        map_junction_edges net junction_id = Ok m ->
        getNode net junction_id = Ok junction ->
        In e (getIncoming net junction) -> is_edge_for_cars e = true ->
        filed (classify_direction
                 (compute_bearing (fst (node_coord (from_node e)))
                                  (snd (node_coord (from_node e)))
                                  (fst (node_coord junction))
                                  (snd (node_coord junction))))
              (incoming m) (edge_id e)).
Proof.
  intros H.
  specialize (H demo_net "J"%string _ demo_junction demo_edge eq_refl eq_refl
                (or_introl eq_refl) eq_refl).
  cbn [demo_junction demo_edge demo_north_node node_coord from_node fst snd
       edge_id] in H.
  rewrite demo_edge_heading in H.
  cbn [incoming] in H. apply filed_fold in H.
  destruct H as [H | (e & Hin & _ & _ & Hside)]; [exact (filed_nil _ _ H)|].
  simpl in Hin. destruct Hin as [<- | []].
  rewrite demo_edge_side in Hside. discriminate Hside.
Qed.

End EdgeMappingFacts.

(** ** The flow synthesizer *)

Module FlowFacts.
Import Bearing EdgeMapping FlowSynthesis.

(** C3.  One row with [n_appr_cars_t = 5] from 08:00:00 to 08:15:00 on
    2024-01-01, a window from 08:00:00 to 08:30:00 and a mapping with
    [incoming.north = [e1]] and [outgoing.south = [e2]] give exactly one
    flow: begin 0, end 900, number 5, from e1, to e2, type car.  The
    parsers are any that read the two times 900 seconds apart and the count
    as 5. *)
Theorem end_to_end_scenario fromisoformat parse_int (m : mapping)
    (intersection_id : string) (t0 : Z) :
  fromisoformat "2024-01-01T08:00:00"%string = Some t0 ->
  fromisoformat "2024-01-01T08:15:00"%string = Some (t0 + 900) ->
  parse_int "5"%string = Some 5 ->
  dir_get north (incoming m) = Some ["e1"%string] ->
  dir_get south (outgoing m) = Some ["e2"%string] ->
  generate_flows_for_intersection fromisoformat parse_int m
    [scenario_row] intersection_id t0 (t0 + 1800)
  = Ok [{| flow_id := String.append intersection_id "_n_appr_cars_t_0";
           flow_begin := 0; flow_end := 900; flow_number := 5;
           flow_from := "e1"; flow_to := "e2"; flow_type := "car" |}].
Proof.
  intros Hstart Hend Hcount Hin Hout.
  unfold generate_flows_for_intersection, rows_flows.
  assert (Htimes : row_times fromisoformat scenario_row
                   = Some (t0, t0 + 900)).
  { unfold row_times.
    change (row_get "start_time" scenario_row)
      with (Some "2024-01-01T08:00:00"%string).
    change (row_get "end_time" scenario_row)
      with (Some "2024-01-01T08:15:00"%string).
    cbv beta iota. rewrite Hstart. cbv beta iota. rewrite Hend.
    reflexivity. }
  rewrite Htimes.
  assert (Hw : (t0 <? t0) || (t0 >=? t0 + 1800) = false).
  { apply orb_false_iff. split; [apply Z.ltb_irrefl|].
    rewrite Z.geb_leb. apply Z.leb_gt. lia. }
  rewrite Hw.
  replace (t0 - t0) with 0 by lia. replace (t0 + 900 - t0) with 900 by lia.
  unfold scenario_row, items_flows.
  change (key_flow parse_int m intersection_id 0 900 "centreline_id" "1001")
    with Skip.
  change (key_flow parse_int m intersection_id 0 900 "start_time"
            "2024-01-01T08:00:00") with Skip.
  change (key_flow parse_int m intersection_id 0 900 "end_time"
            "2024-01-01T08:15:00") with Skip.
  unfold key_flow.
  change (key_in "n_appr_cars_t" ignore_keys) with false.
  change (Py.split "_" "n_appr_cars_t")
    with ["n"; "appr"; "cars"; "t"]%string.
  change (negb (Py.lower "appr" =? "appr")%string) with false.
  unfold movement_flow. rewrite Hcount.
  change (incoming_mapping (Py.lower "n")) with (Some north).
  change (outgoing_mapping (Py.lower "t") (Py.lower "n")) with (Some south).
  unfold unmapped, first_edge. rewrite Hin, Hout. reflexivity.
Qed.

Lemma end_to_end_scenario_witness :
  generate_flows_for_intersection Py.fromisoformat Py.int_of_str
    {| incoming := [(north, ["e1"%string])];
       outgoing := [(south, ["e2"%string])] |}
    [scenario_row] "J1"
    (instant "2024-01-01T08:00:00") (instant "2024-01-01T08:00:00" + 1800)
  = Ok [{| flow_id := "J1_n_appr_cars_t_0";
           flow_begin := 0; flow_end := 900; flow_number := 5;
           flow_from := "e1"; flow_to := "e2"; flow_type := "car" |}].
Proof.
  apply (end_to_end_scenario Py.fromisoformat Py.int_of_str
           {| incoming := [(north, ["e1"%string])];
              outgoing := [(south, ["e2"%string])] |} "J1"
           (instant "2024-01-01T08:00:00"));
    reflexivity.
Defined.

End FlowFacts.

(** ** The mapping cache *)

Module DatabaseFacts.
Import EdgeMapping FlowSynthesis Database.

(** C10.  Updating the record of junction [j] in a readable cache document
    leaves the record stored under every other junction id as it was. *)
Theorem update_processed_db_frame (db : gmap string cache_record)
    (j k : string) (r : cache_record) :
  k <> j ->
  load_processed_db (update_processed_db j r (Document db)) !! k = db !! k.
Proof.
  intros Hne. unfold update_processed_db, load_processed_db.
  apply lookup_insert_ne. congruence.
Qed.

Lemma update_processed_db_frame_witness :
  let r := {| rec_intersection_id := "J"; rec_centreline_id := "1001";
              rec_location_name := "Main St"; rec_input_coordinates := None;
              rec_network_coordinates := (0%R, 0%R);
              rec_data_availability := [];
              rec_edge_mapping := {| incoming := []; outgoing := [] |} |} in
  "K"%string <> "J"%string /\
  load_processed_db (update_processed_db "J" r (Document {["K" := r]}))
    !! "K" = Some r.
Proof.
  intros r.
  assert (Hne : "K"%string <> "J"%string) by discriminate.
  split; [exact Hne|].
  rewrite (update_processed_db_frame {["K" := r]} "J" "K" r Hne).
  apply lookup_singleton_eq.
Defined.

End DatabaseFacts.

(** ** Movement keys: splitting against the grammar *)

Module KeyFacts.
Import Bearing EdgeMapping FlowSynthesis KeyGrammar Decoding.

Lemma split_nonempty sep s : Py.split sep s <> [].
Proof.
  destruct s as [|c s]; simpl; [discriminate|].
  destruct (Ascii.eqb c sep); [discriminate|].
  destruct (Py.split sep s); discriminate.
Qed.

Lemma join_cons_char c w ws :
  join (String c w :: ws) = String c (join (w :: ws)).
Proof. destruct ws; reflexivity. Qed.

Lemma join_split s : join (Py.split "_" s) = s.
Proof.
  induction s as [|c s IH]; [reflexivity|]. simpl.
  destruct (Ascii.eqb c "_") eqn:E.
  - apply Ascii.eqb_eq in E. subst c.
    destruct (Py.split "_" s) as [|w ws] eqn:Es;
      [destruct (split_nonempty _ _ Es)|].
    change (join (EmptyString :: w :: ws)) with (String "_" (join (w :: ws))).
    rewrite IH. reflexivity.
  - destruct (Py.split "_" s) as [|w ws] eqn:Es;
      [destruct (split_nonempty _ _ Es)|].
    rewrite join_cons_char, IH. reflexivity.
Qed.

Lemma split_parts_free s :
  Forall (fun part => underscore_free part = true) (Py.split "_" s).
Proof.
  induction s as [|c s IH]; simpl; [repeat constructor|].
  destruct (Ascii.eqb c "_") eqn:E; [constructor; [reflexivity|exact IH]|].
  destruct (Py.split "_" s) as [|w ws]; [repeat constructor; simpl|].
  - rewrite E. reflexivity.
  - inversion IH; subst. constructor; [|assumption]. simpl. rewrite E. assumption.
Qed.

Lemma split_free a : underscore_free a = true -> Py.split "_" a = [a].
Proof.
  induction a as [|c a IH]; simpl; intros H; [reflexivity|].
  apply andb_true_iff in H. destruct H as [Hc Ha].
  apply negb_true_iff in Hc. rewrite Hc, (IH Ha). reflexivity.
Qed.

Lemma split_app_free a rest :
  underscore_free a = true ->
  Py.split "_" (String.append a (String "_" rest)) = a :: Py.split "_" rest.
Proof.
  induction a as [|c a IH]; simpl; intros H; [reflexivity|].
  apply andb_true_iff in H. destruct H as [Hc Ha].
  apply negb_true_iff in Hc. rewrite Hc, (IH Ha). reflexivity.
Qed.

Lemma split_join3 o v t :
  underscore_free o = true -> underscore_free v = true ->
  underscore_free t = true -> Py.split "_" (join [o; v; t]) = [o; v; t].
Proof.
  intros Ho Hv Ht. simpl.
  rewrite (split_app_free o _ Ho), (split_app_free v _ Hv), (split_free t Ht).
  reflexivity.
Qed.

Lemma split_join4 o a v t :
  underscore_free o = true -> underscore_free a = true ->
  underscore_free v = true -> underscore_free t = true ->
  Py.split "_" (join [o; a; v; t]) = [o; a; v; t].
Proof.
  intros Ho Ha Hv Ht. simpl.
  rewrite (split_app_free o _ Ho), (split_app_free a _ Ha),
    (split_app_free v _ Hv), (split_free t Ht).
  reflexivity.
Qed.

Lemma lower_ascii_underscore c :
  Ascii.eqb (Py.lower_ascii c) "_" = Ascii.eqb c "_".
Proof. destruct c as [[] [] [] [] [] [] [] []]; reflexivity. Qed.

Lemma lower_underscore_free a :
  underscore_free (Py.lower a) = underscore_free a.
Proof.
  induction a as [|c a IH]; [reflexivity|]. simpl.
  rewrite lower_ascii_underscore, IH. reflexivity.
Qed.

(** A string that lower-cases to a single letter is that letter in one of
    its two cases. *)
Lemma lower_single p c :
  Py.lower p = String c EmptyString ->
  exists c', p = String c' EmptyString /\ Py.lower_ascii c' = c.
Proof.
  destruct p as [|c' [|c'' p]]; simpl; intros H; try discriminate.
  injection H as <-. exists c'. split; reflexivity.
Qed.

Lemma lower_ascii_cases c' c :
  Py.lower_ascii c' = c ->
  c' = c \/ (nat_of_ascii c' + 32 = nat_of_ascii c)%nat.
Proof.
  intros <-. destruct c' as [[] [] [] [] [] [] [] []];
    first [left; reflexivity | right; reflexivity].
Qed.

Ltac single_letter H :=
  apply lower_single in H; destruct H as (?c & -> & H);
  match type of H with
  | Py.lower_ascii ?c = _ =>
      destruct c as [[] [] [] [] [] [] [] []]; try discriminate H
  end; simpl; tauto.

Lemma origin_letters p f :
  incoming_mapping (Py.lower p) = Some f ->
  In p ["n"; "s"; "e"; "w"; "N"; "S"; "E"; "W"]%string.
Proof.
  unfold incoming_mapping. intros H.
  destruct (String.eqb_spec (Py.lower p) "n") as [E|_]; [single_letter E|].
  destruct (String.eqb_spec (Py.lower p) "s") as [E|_]; [single_letter E|].
  destruct (String.eqb_spec (Py.lower p) "e") as [E|_]; [single_letter E|].
  destruct (String.eqb_spec (Py.lower p) "w") as [E|_]; [single_letter E|].
  discriminate H.
Qed.

Lemma turn_letters t q g :
  outgoing_mapping (Py.lower t) q = Some g ->
  In t ["r"; "l"; "t"; "R"; "L"; "T"]%string.
Proof.
  unfold outgoing_mapping. intros H.
  destruct (String.eqb_spec (Py.lower t) "r") as [E|_]; [single_letter E|].
  destruct (String.eqb_spec (Py.lower t) "t") as [E|_]; [single_letter E|].
  destruct (String.eqb_spec (Py.lower t) "l") as [E|_]; [single_letter E|].
  discriminate H.
Qed.

Lemma origins_free o :
  In o ["n"; "s"; "e"; "w"; "N"; "S"; "E"; "W"]%string ->
  underscore_free o = true.
Proof. simpl. intuition (subst; reflexivity). Qed.

Lemma turns_free t :
  In t ["r"; "l"; "t"; "R"; "L"; "T"]%string -> underscore_free t = true.
Proof. simpl. intuition (subst; reflexivity). Qed.

Lemma marker_free a : Py.lower a = "appr"%string -> underscore_free a = true.
Proof. intros H. rewrite <- lower_underscore_free, H. reflexivity. Qed.

(** No key of the grammar is one of the metadata columns. *)
Lemma grammar_not_metadata key o v t :
  movement_key key o v t -> key_in key ignore_keys = false.
Proof.
  intros H. destruct H as [o v t Ho _ _ | o a v t Ho _ _ _];
    simpl in Ho; intuition (subst; reflexivity).
Qed.

Section KeyDecoding.

Variable parse_int : string -> option Z.
Variables (m : mapping) (intersection_id : string) (base_time duration : Z).

Lemma vehicle_in_vocabulary v :
  (if String.eqb v "cars" then Some "car"%string
   else if key_in v ["truck"; "bus"]%string then Some v else None) <> None ->
  In v vocabulary.
Proof.
  unfold vocabulary, key_in. simpl.
  destruct (String.eqb_spec v "cars"); [auto|].
  destruct (String.eqb_spec v "truck"); [auto|].
  destruct (String.eqb_spec v "bus"); [auto|]. simpl. congruence.
Qed.

Lemma movement_flow_not_skip key value p v t :
  movement_flow parse_int m intersection_id base_time duration
                key value p v t <> Skip ->
  In v vocabulary /\
  exists count f g,
    parse_int value = Some count /\ 0 < count /\
    incoming_mapping (Py.lower p) = Some f /\
    outgoing_mapping (Py.lower t) (Py.lower p) = Some g.
Proof.
  unfold movement_flow. intros H. split.
  - apply vehicle_in_vocabulary. intros E. rewrite E in H. congruence.
  - destruct (if String.eqb v "cars" then _ else _); [|congruence].
    destruct (parse_int value) as [count|]; [|congruence].
    destruct (count <=? 0) eqn:Ec; [congruence|]. apply Z.leb_gt in Ec.
    destruct (incoming_mapping (Py.lower p)) as [f|]; [|congruence].
    destruct (outgoing_mapping (Py.lower t) (Py.lower p)) as [g|];
      [|congruence].
    exists count, f, g. tauto.
Qed.


(** A column that is not skipped follows the grammar, carries a vehicle
    token of the vocabulary and a positive integer count. *)
Lemma key_flow_not_skip key value :
  key_flow parse_int m intersection_id base_time duration key value <> Skip ->
  exists o v t count,
    movement_key key o v t /\ In v vocabulary /\
    parse_int value = Some count /\ 0 < count.
Proof.
  unfold key_flow. intros H.
  destruct (key_in key ignore_keys); [congruence|].
  pose proof (join_split key) as Hjoin.
  pose proof (split_parts_free key) as Hfree.
  destruct (Py.split "_" key) as [|p [|x [|y [|z [|? ?]]]]]; try congruence.
  - apply movement_flow_not_skip in H.
    destruct H as (Hv & count & f & g & Hc & Hpos & Hf & Hg).
    exists p, x, y, count. repeat split; try assumption.
    rewrite <- Hjoin. constructor.
    + eapply origin_letters; eassumption.
    + inversion Hfree as [|? ? _ Hfree']; subst.
      inversion Hfree'; subst. assumption.
    + eapply turn_letters; eassumption.
  - destruct (String.eqb_spec (Py.lower x) "appr") as [Ea|_];
      simpl in H; [|congruence].
    apply movement_flow_not_skip in H.
    destruct H as (Hv & count & f & g & Hc & Hpos & Hf & Hg).
    exists p, y, z, count. repeat split; try assumption.
    rewrite <- Hjoin. constructor.
    + eapply origin_letters; eassumption.
    + exact Ea.
    + inversion Hfree as [|? ? _ Hfree']; subst.
      inversion Hfree' as [|? ? _ Hfree'']; subst.
      inversion Hfree''; subst. assumption.
    + eapply turn_letters; eassumption.
Qed.


End KeyDecoding.

End KeyFacts.

(** ** Skipped columns and the hard stop *)

Module SynthesisFacts.
Import Bearing EdgeMapping FlowSynthesis KeyGrammar Decoding KeyFacts.
Import CsvRows.

Section Loops.

Variable fromisoformat : string -> option Z.
Variable parse_int : string -> option Z.
Variables (m : mapping) (intersection_id : string).
Variables simulation_start_dt simulation_end_dt : Z.



End Loops.

(** *** Rows with missing or surplus cells *)

Section DictLoops.

Variable fromisoformat : string -> option Z.
Variable parse_int : string -> option Z.
Variables (m : mapping) (intersection_id : string).
Variables simulation_start_dt simulation_end_dt : Z.

Lemma cells_flows_skip base_time duration key cell pre post flows :
  cell_flow parse_int m intersection_id base_time duration key cell = Skip ->
  cells_flows parse_int m intersection_id base_time duration
              (pre ++ (key, cell) :: post) flows
  = cells_flows parse_int m intersection_id base_time duration
                (pre ++ post) flows.
Proof.
  intros Hskip. revert flows.
  induction pre as [|[k v] pre IH]; intros flows; simpl.
  - rewrite Hskip. reflexivity.
  - destruct (cell_flow parse_int m intersection_id base_time duration k v);
      [apply IH|apply IH|reflexivity].
Qed.

Lemma cell_get_remove k key cell pre post :
  k <> key ->
  cell_get k (pre ++ (key, cell) :: post) = cell_get k (pre ++ post).
Proof.
  intros Hne. induction pre as [|[k' v'] pre IH]; simpl.
  - destruct (String.eqb_spec k key); [contradiction|reflexivity].
  - rewrite IH. reflexivity.
Qed.

Lemma dict_row_times_remove key cell pre post rest :
  key <> "start_time"%string -> key <> "end_time"%string ->
  dict_row_times fromisoformat
    {| cells := pre ++ (key, cell) :: post; surplus := rest |}
  = dict_row_times fromisoformat {| cells := pre ++ post; surplus := rest |}.
Proof.
  intros Hs He. unfold dict_row_times. cbn [cells].
  rewrite !cell_get_remove by congruence. reflexivity.
Qed.

(** Two rows with the same times and the same effect on the flow list are
    interchangeable. *)
Lemma dict_rows_flows_replace r r' :
  dict_row_times fromisoformat r = dict_row_times fromisoformat r' ->
  (forall base_time duration flows,
      dict_items_flows parse_int m intersection_id base_time duration r flows
      = dict_items_flows parse_int m intersection_id base_time duration r'
                         flows) ->
  forall before after flows,
    dict_rows_flows fromisoformat parse_int m intersection_id
                    simulation_start_dt simulation_end_dt
                    (before ++ r :: after) flows
    = dict_rows_flows fromisoformat parse_int m intersection_id
                      simulation_start_dt simulation_end_dt
                      (before ++ r' :: after) flows.
Proof.
  intros Htimes Hitems before after.
  induction before as [|r0 before IH]; intros flows; simpl.
  - rewrite Htimes.
    destruct (dict_row_times fromisoformat r') as [[row_start row_end]|];
      [|reflexivity].
    rewrite Hitems. reflexivity.
  - destruct (dict_row_times fromisoformat r0) as [[row_start row_end]|];
      [|apply IH].
    destruct ((row_start <? simulation_start_dt)
              || (row_start >=? simulation_end_dt)); [apply IH|].
    destruct (dict_items_flows parse_int m intersection_id
                (row_start - simulation_start_dt) (row_end - row_start)
                r0 flows); [apply IH|reflexivity].
Qed.

(** On the rows of lines that have one cell for each name of the header,
    the loops are those of [FlowSynthesis]. *)
Lemma cells_flows_complete base_time duration (r : row) flows :
  cells_flows parse_int m intersection_id base_time duration
              (cells (complete r)) flows
  = items_flows parse_int m intersection_id base_time duration r flows.
Proof.
  revert flows. induction r as [|[k v] r IH]; intros flows; [reflexivity|].
  cbn [complete cells map fst snd cells_flows items_flows cell_flow].
  destruct (key_flow parse_int m intersection_id base_time duration k v);
    [apply IH|apply IH|reflexivity].
Qed.

Lemma cell_get_complete k (r : row) :
  cell_get k (cells (complete r)) = option_map Some (row_get k r).
Proof.
  induction r as [|[k' v] r IH]; [reflexivity|].
  cbn [complete cells map fst snd cell_get row_get].
  destruct (String.eqb k k'); [reflexivity|exact IH].
Qed.

Lemma dict_row_times_complete (r : row) :
  dict_row_times fromisoformat (complete r) = row_times fromisoformat r.
Proof.
  unfold dict_row_times, row_times. rewrite !cell_get_complete.
  destruct (row_get "start_time" r) as [s|]; [|reflexivity]. simpl.
  destruct (fromisoformat s); [|reflexivity].
  destruct (row_get "end_time" r) as [e|]; reflexivity.
Qed.

Lemma dict_rows_flows_complete (rows : list row) flows :
  dict_rows_flows fromisoformat parse_int m intersection_id
                  simulation_start_dt simulation_end_dt
                  (map complete rows) flows
  = rows_flows fromisoformat parse_int m intersection_id
               simulation_start_dt simulation_end_dt rows flows.
Proof.
  revert flows. induction rows as [|r rows IH]; intros flows; [reflexivity|].
  cbn [map dict_rows_flows rows_flows].
  rewrite dict_row_times_complete.
  destruct (row_times fromisoformat r) as [[row_start row_end]|]; [|apply IH].
  destruct ((row_start <? simulation_start_dt)
            || (row_start >=? simulation_end_dt)); [apply IH|].
  unfold dict_items_flows. rewrite cells_flows_complete.
  destruct (items_flows parse_int m intersection_id
              (row_start - simulation_start_dt) (row_end - row_start)
              r flows); [apply IH|reflexivity].
Qed.

(** A row with surplus cells that is read (its times parse and its start
    lies in the window) makes flow generation raise. *)
Lemma surplus_cells_raise r row_start row_end l after flows :
  dict_row_times fromisoformat r = Some (row_start, row_end) ->
  simulation_start_dt <= row_start < simulation_end_dt ->
  surplus r = Some l ->
  exists e,
    dict_rows_flows fromisoformat parse_int m intersection_id
                    simulation_start_dt simulation_end_dt (r :: after) flows
    = Raise e.
Proof.
  intros Htimes Hwindow Hsurplus. cbn [dict_rows_flows]. rewrite Htimes.
  assert (Hw : (row_start <? simulation_start_dt)
               || (row_start >=? simulation_end_dt) = false).
  { apply orb_false_iff. split; [apply Z.ltb_ge|rewrite Z.geb_leb;
                                                apply Z.leb_gt]; lia. }
  rewrite Hw. unfold dict_items_flows. rewrite Hsurplus.
  destruct (cells_flows parse_int m intersection_id
              (row_start - simulation_start_dt) (row_end - row_start)
              (cells r) flows); eauto.
Qed.

End DictLoops.

(** C8 (as amended).  A column under a name of the header whose key does
    not follow the grammar (the origin letter, the marker and the turn
    letter read in either case), or whose vehicle token is outside the
    vocabulary, or whose cell is missing or holds a count that is zero,
    negative or not an integer, is skipped: the loop body does nothing for
    it, and the result of flow generation, flows or error alike, is the one
    obtained from the rows without that column (any column but the two
    time columns, which decide whether the row is read at all), whatever
    the other cells of the row and its surplus cells are. *)
Theorem malformed_column_skipped fromisoformat parse_int m intersection_id
    simulation_start_dt simulation_end_dt key cell :
  (forall o v t, movement_key key o v t -> ~ In v vocabulary)
  \/ bad_cell parse_int cell ->
  (forall base_time duration,
      cell_flow parse_int m intersection_id base_time duration key cell
      = Skip)
  /\ (key <> "start_time"%string -> key <> "end_time"%string ->
      forall before pre post rest after,
        generate_flows_for_dict_rows fromisoformat parse_int m
          (before
           ++ {| cells := pre ++ (key, cell) :: post; surplus := rest |}
           :: after)
          intersection_id simulation_start_dt simulation_end_dt
        = generate_flows_for_dict_rows fromisoformat parse_int m
            (before ++ {| cells := pre ++ post; surplus := rest |} :: after)
            intersection_id simulation_start_dt simulation_end_dt).
Proof.
  intros Hbad.
  assert (Hskip : forall base_time duration,
             cell_flow parse_int m intersection_id base_time duration key cell
             = Skip).
  { intros base_time duration. unfold cell_flow.
    destruct cell as [value|].
    - destruct (key_flow parse_int m intersection_id base_time duration
                         key value) eqn:E; [reflexivity|exfalso..];
        (destruct (key_flow_not_skip parse_int m intersection_id base_time
                     duration key value) as (o & v & t & count & Hkey & Hv
                                             & Hc & Hpos);
         [rewrite E; discriminate|]);
        (destruct Hbad as [Hbad | [Hnone | (c & Hc' & Hle)]];
         [exact (Hbad _ _ _ Hkey Hv)|congruence|
          rewrite Hc in Hc'; injection Hc' as <-; lia]).
    - destruct (key_flow (fun _ => None) m intersection_id base_time
                         duration key EmptyString) eqn:E;
        [reflexivity|exfalso..];
        (destruct (key_flow_not_skip (fun _ => None) m intersection_id
                     base_time duration key EmptyString)
           as (o & v & t & count & _ & _ & Hc & _);
         [rewrite E; discriminate|discriminate Hc]). }
  split; [exact Hskip|].
  intros Hs He before pre post rest after.
  unfold generate_flows_for_dict_rows.
  apply dict_rows_flows_replace.
  - apply dict_row_times_remove; assumption.
  - intros base_time duration flows. unfold dict_items_flows. cbn [cells].
    rewrite (cells_flows_skip parse_int m intersection_id base_time duration
               key cell pre post flows (Hskip base_time duration)).
    reflexivity.
Qed.

Lemma malformed_column_skipped_witness :
  bad_cell Py.int_of_str (Some "0"%string) /\
  cell_flow Py.int_of_str {| incoming := []; outgoing := [] |} "J1" 0 900
            "n_appr_cars_t" (Some "0"%string) = Skip.
Proof.
  assert (Hbad : bad_cell Py.int_of_str (Some "0"%string)).
  { right. exists 0. split; [reflexivity|lia]. }
  split; [exact Hbad|].
  exact (proj1 (malformed_column_skipped Py.fromisoformat Py.int_of_str
                  {| incoming := []; outgoing := [] |} "J1" 0 0
                  "n_appr_cars_t" (Some "0"%string) (or_intror Hbad)) 0 900).
Defined.

Lemma written_key_lower_case key o v t :
  written_key key o v t ->
  exists c rest, key = String c rest /\ In c ["n"; "s"; "e"; "w"]%char.
Proof.
  intros H. destruct H as [o v t Ho _ _ | o a v t Ho _ _ _];
    simpl in Ho;
    destruct Ho as [<- | [<- | [<- | [<- | []]]]];
    eexists; eexists; (split; [reflexivity|simpl; tauto]).
Qed.

(** C8 fails as stated: the key [N_cars_t] does not follow the grammar as
    written (whose origin letters are lower case), yet its column is not
    skipped. *)
Lemma upper_case_column_not_skipped :
  ~ (forall parse_int m intersection_id base_time duration key value,
        (forall o v t, written_key key o v t -> ~ In v vocabulary)
        \/ bad_count parse_int value ->
        key_flow parse_int m intersection_id base_time duration key value
        = Skip).
Proof.
  intros H.
  specialize (H Py.int_of_str
                {| incoming := [(north, ["e1"%string])];
                   outgoing := [(south, ["e2"%string])] |}
                "J1"%string 0 900 "N_cars_t"%string "5"%string).
  assert (Hno : forall o v t, written_key "N_cars_t" o v t ->
                              ~ In v vocabulary).
  { intros o v t Hkey _.
    destruct (written_key_lower_case _ _ _ _ Hkey) as (c & rest & [= <- _] & Hc).
    simpl in Hc. intuition discriminate. }
  specialize (H (or_introl Hno)). vm_compute in H. discriminate H.
Qed.

End SynthesisFacts.

(** ** The hard stop in the pipeline *)

Module SimulationFacts.
Import Bearing EdgeMapping FlowSynthesis Database Simulation.
Import KeyGrammar Decoding SynthesisFacts.



(** The hard-stop scenario, evaluated: nothing is kept but the
    diagnostic. *)
Lemma hard_stop_scenario :
  process_intersection Py.fromisoformat Py.int_of_str Py.strptime
    Py.strftime (fun _ => Raise (ValueError "not a number"))
    (fun _ => "n"%string) demo_net scenario_rows scenario_cache
    (instant "2024-01-01T08:00:00") (instant "2024-01-01T08:30:00")
    scenario_state scenario_intersection
  = {| routes_root := [];
       incomplete_data :=
         [String.append
            "Intersection 'Main St' (ID: J) CSV processing error: "
            (String.append
               "Incomplete edge mapping for key 'n_appr_cars_t': "
               "missing incoming 'north' or outgoing 'south'.")];
       simulation_details := [];
       db_file := Document scenario_cache |}.
Proof. reflexivity. Qed.

End SimulationFacts.

(** ** Further properties of the edge mapper and the locator *)

Module EdgeMappingMore.
Import Bearing EdgeMapping Locator MoreSpec.
Local Open Scope R_scope.

Lemma getNode_Ok net id n :
  getNode net id = Ok n -> In n (net_nodes net) /\ node_id n = id.
Proof.
  unfold getNode.
  destruct (find _ (net_nodes net)) as [n'|] eqn:E; [|discriminate].
  intros [= <-]. apply find_some in E. destruct E as [Hin Heq].
  apply String.eqb_eq in Heq. tauto.
Qed.

Lemma getNode_Raise net id e :
  getNode net id = Raise e ->
  e = KeyError id /\ forall n, In n (net_nodes net) -> node_id n <> id.
Proof.
  unfold getNode.
  destruct (find _ (net_nodes net)) as [n'|] eqn:E; [discriminate|].
  intros [= <-]. split; [reflexivity|]. intros n Hin Heq.
  pose proof (find_none _ _ E n Hin) as Hn. simpl in Hn.
  apply String.eqb_neq in Hn. contradiction.
Qed.

Lemma repr_body_plain s :
  plain s = true -> Py.repr_body "'" s = s.
Proof.
  unfold plain. induction s as [|c s IH]; [reflexivity|].
  cbn [list_ascii_of_string forallb Py.repr_body].
  intros H. apply andb_true_iff in H. destruct H as [Hc Hs].
  rewrite (IH Hs).
  assert (Hchar : Py.repr_char "'" c = String c EmptyString).
  { revert Hc. clear.
    destruct c as [[] [] [] [] [] [] [] []]; vm_compute;
      (discriminate || reflexivity). }
  rewrite Hchar. reflexivity.
Qed.

Lemma has_char_plain s : plain s = true -> Py.has_char "'" s = false.
Proof.
  unfold plain, Py.has_char. induction s as [|c s IH]; [reflexivity|].
  cbn [list_ascii_of_string forallb existsb].
  intros H. apply andb_true_iff in H. destruct H as [Hc Hs].
  rewrite (IH Hs), orb_false_r.
  revert Hc. clear.
  destruct c as [[] [] [] [] [] [] [] []]; vm_compute;
    (discriminate || reflexivity).
Qed.

Lemma repr_plain s :
  plain s = true -> Py.repr s = String "'" (String.append s "'").
Proof.
  intros H. unfold Py.repr.
  rewrite (has_char_plain s H). cbn [andb].
  rewrite (repr_body_plain s H). reflexivity.
Qed.

(** X1.  [map_junction_edges] succeeds exactly when the network has a node
    with the junction id; otherwise it raises the [ValueError] that quotes
    the id and the text of the [KeyError] of the look-up, which is the
    [repr] of the id: the id between apostrophes when it is plain text. *)
Theorem map_junction_edges_junction_not_found net junction_id :
  ((exists m, map_junction_edges net junction_id = Ok m) <->
   exists n, In n (net_nodes net) /\ node_id n = junction_id)
  /\ ((forall n, In n (net_nodes net) -> node_id n <> junction_id) ->
      map_junction_edges net junction_id
      = Raise (ValueError
                 (String.append "Junction '" (String.append junction_id
                 (String.append "' not found in network: "
                                (Py.repr junction_id)))))
      /\ (plain junction_id = true ->
          map_junction_edges net junction_id
          = Raise (ValueError
                     (String.append "Junction '" (String.append junction_id
                     (String.append "' not found in network: '"
                     (String.append junction_id "'"))))))).
Proof.
  unfold map_junction_edges.
  destruct (getNode net junction_id) as [n|e] eqn:E.
  - apply getNode_Ok in E. split.
    + split; [intros _; exists n; exact E|intros _; eexists; reflexivity].
    + intros Hno. destruct E as [Hin Heq]. destruct (Hno n Hin Heq).
  - apply getNode_Raise in E. destruct E as [-> Hno]. split.
    + split; [intros (m & H); discriminate|].
      intros (n & Hin & Heq). destruct (Hno n Hin Heq).
    + intros _. split; [reflexivity|].
      intros Hplain. cbn [exn_str]. rewrite (repr_plain _ Hplain).
      reflexivity.
Qed.

Lemma map_junction_edges_junction_not_found_witness :
  map_junction_edges demo_net "it's"
  = Raise (ValueError
             (String.append "Junction 'it's' not found in network: "
                (String Py.dquote (String.append "it's"
                   (String Py.dquote EmptyString))))).
Proof.
  apply (proj2 (map_junction_edges_junction_not_found demo_net "it's")).
  intros n [<- | [<- | []]]; discriminate.
Defined.

Lemma dir_get_setdefault d k x table :
  dir_get d (setdefault_append k x table)
  = if direction_eqb d k
    then Some (default [] (dir_get d table) ++ [x])
    else dir_get d table.
Proof.
  induction table as [|[k' v] table IH]; simpl.
  - destruct (direction_eqb d k); reflexivity.
  - destruct (direction_eqb k k') eqn:Ek; simpl.
    + apply EdgeMappingFacts.direction_eqb_eq in Ek. subst k'.
      destruct (direction_eqb d k); reflexivity.
    + destruct (direction_eqb d k') eqn:Ed.
      * apply EdgeMappingFacts.direction_eqb_eq in Ed. subst k'.
        destruct (direction_eqb d k) eqn:Ed'; [|reflexivity].
        apply EdgeMappingFacts.direction_eqb_eq in Ed'. subst k.
        destruct d; discriminate.
      * exact IH.
Qed.

Lemma dir_get_fold dir_of d edges table :
  dir_get d (fold_left (file_edge dir_of) edges table)
  = match dir_get d table with
    | Some l => Some (l ++ ids_towards dir_of d edges)
    | None => match ids_towards dir_of d edges with
              | [] => None
              | l => Some l
              end
    end.
Proof.
  revert table. unfold ids_towards.
  induction edges as [|e edges IH]; intros table; simpl.
  - destruct (dir_get d table); [rewrite app_nil_r|]; reflexivity.
  - rewrite IH. unfold file_edge.
    destruct (is_edge_for_cars e); cbn [andb]; [|reflexivity].
    rewrite dir_get_setdefault.
    destruct (direction_eqb (dir_of e) d) eqn:Ed.
    + apply EdgeMappingFacts.direction_eqb_eq in Ed. subst d.
      assert (Hrefl : direction_eqb (dir_of e) (dir_of e) = true)
        by (apply EdgeMappingFacts.direction_eqb_eq; reflexivity).
      rewrite Hrefl. cbn [map].
      destruct (dir_get (dir_of e) table) as [l|]; simpl;
        [rewrite <- app_assoc|]; reflexivity.
    + assert (Hne : direction_eqb d (dir_of e) = false).
      { destruct (direction_eqb d (dir_of e)) eqn:E'; [|reflexivity].
        apply EdgeMappingFacts.direction_eqb_eq in E'. subst d.
        assert (direction_eqb (dir_of e) (dir_of e) = true)
          by (apply EdgeMappingFacts.direction_eqb_eq; reflexivity).
        congruence. }
      rewrite Hne. reflexivity.
Qed.

(** X2.  The outgoing table of [map_junction_edges] holds, under each
    direction, the ids of the drivable outgoing edges whose bearing from the
    junction to the edge's to-node is classified as that direction, in the
    order of the network; a direction without such an edge is absent from
    the table, never present with an empty list. *)
Theorem outgoing_table_exact net junction_id m junction :
  map_junction_edges net junction_id = Ok m ->
  getNode net junction_id = Ok junction ->
  forall d,
    let ids :=
      map edge_id
          (List.filter (fun e =>
                     is_edge_for_cars e
                     && direction_eqb
                          (classify_direction
                             (compute_bearing
                                (fst (node_coord junction))
                                (snd (node_coord junction))
                                (fst (node_coord (to_node e)))
                                (snd (node_coord (to_node e))))) d)
                  (getOutgoing net junction)) in
    dir_get d (outgoing m) = match ids with [] => None | _ => Some ids end.
Proof.
  intros Hm Hj d ids. unfold map_junction_edges in Hm. rewrite Hj in Hm.
  injection Hm as <-. cbn [outgoing]. rewrite dir_get_fold. cbn [dir_get].
  change ids with (ids_towards (outgoing_direction junction) d
                               (getOutgoing net junction)).
  destruct (ids_towards _ d (getOutgoing net junction)); reflexivity.
Qed.

Lemma outgoing_table_exact_witness :
  exists m, map_junction_edges demo_net "A" = Ok m /\
            dir_get north (outgoing m) = None.
Proof.
  eexists. split; [reflexivity|].
  rewrite (outgoing_table_exact demo_net "A" _ demo_north_node eq_refl
             eq_refl north).
  change (getOutgoing demo_net demo_north_node) with [demo_edge].
  cbn [List.filter demo_edge to_node demo_junction node_coord fst snd
       demo_north_node].
  change (is_edge_for_cars
            {| edge_id := "e1"; edge_type := "highway.primary";
               from_node := {| node_id := "A"; node_coord := (0, 10) |};
               to_node := {| node_id := "J"; node_coord := (0, 0) |} |})
    with true.
  rewrite EdgeMappingFacts.demo_edge_heading. reflexivity.
Defined.

(** X3.  The incoming table holds, under each direction, the ids of the
    drivable incoming edges that [incoming_direction] sends there, in the
    order of the network, and a direction without such an edge is absent;
    so for a computed mapping the test [not mapping["incoming"].get(d)] of
    flow generation holds exactly when no drivable edge arrives from
    [d]. *)
Theorem incoming_table_exact net junction_id m junction :
  map_junction_edges net junction_id = Ok m ->
  getNode net junction_id = Ok junction ->
  forall d,
    dir_get d (incoming m)
    = match ids_towards (incoming_direction junction) d
              (getIncoming net junction) with
      | [] => None
      | ids => Some ids
      end
    /\ (FlowSynthesis.unmapped d (incoming m) = true <->
        forall e, In e (getIncoming net junction) ->
                  is_edge_for_cars e = true ->
                  incoming_direction junction e <> d).
Proof.
  intros Hm Hj d. unfold map_junction_edges in Hm. rewrite Hj in Hm.
  injection Hm as <-. simpl.
  assert (Hget := dir_get_fold (incoming_direction junction) d
                    (getIncoming net junction) []).
  simpl in Hget. split; [exact Hget|].
  unfold FlowSynthesis.unmapped. rewrite Hget. unfold ids_towards.
  destruct (List.filter _ (getIncoming net junction)) as [|e0 l] eqn:Ef; simpl.
  - split; [|reflexivity]. intros _ e Hin Hcar Hd.
    assert (Hf : In e (List.filter
                (fun e => is_edge_for_cars e
                          && direction_eqb (incoming_direction junction e) d)
                (getIncoming net junction))).
    { apply filter_In. split; [exact Hin|]. rewrite Hcar. simpl.
      apply EdgeMappingFacts.direction_eqb_eq. exact Hd. }
    rewrite Ef in Hf. destruct Hf.
  - split; [discriminate|]. intros Hno. exfalso.
    assert (Hf : In e0 (e0 :: l)) by (left; reflexivity).
    rewrite <- Ef in Hf. apply filter_In in Hf. destruct Hf as [Hin Hb].
    apply andb_true_iff in Hb. destruct Hb as [Hcar Hd].
    apply EdgeMappingFacts.direction_eqb_eq in Hd.
    exact (Hno e0 Hin Hcar Hd).
Qed.

Lemma incoming_table_exact_witness :
  exists m, map_junction_edges demo_net "J" = Ok m /\
            dir_get north (incoming m)
            = match ids_towards (incoming_direction demo_junction) north
                      (getIncoming demo_net demo_junction) with
              | [] => None
              | ids => Some ids
              end.
Proof.
  eexists. split; [reflexivity|].
  exact (proj1 (incoming_table_exact demo_net "J" _ demo_junction eq_refl
                  eq_refl north)).
Defined.

End EdgeMappingMore.

(** ** The intersection locator *)

Module LocatorFacts.
Import Bearing EdgeMapping Locator MoreSpec.
Local Open Scope R_scope.









End LocatorFacts.

(** ** The mapping cache *)

Module DatabaseMore.
Import EdgeMapping FlowSynthesis Database.

(** X7.  A cache file that is absent, empty or unreadable loads as the
    empty cache, and an update of such a file leaves a document that holds
    the new record and nothing else. *)
Theorem unreadable_cache_degrades (file : cache_file) (j : string)
    (r : cache_record) :
  (forall db, file <> Document db) ->
  load_processed_db file = ∅
  /\ update_processed_db j r file = Document {[j := r]}.
Proof.
  intros Hno. unfold update_processed_db.
  destruct file as [| | |db]; try (split; reflexivity).
  destruct (Hno db eq_refl).
Qed.

Lemma unreadable_cache_degrades_witness :
  let r := {| rec_intersection_id := "J"; rec_centreline_id := "1001";
              rec_location_name := "Main St"; rec_input_coordinates := None;
              rec_network_coordinates := (0%R, 0%R);
              rec_data_availability := [];
              rec_edge_mapping := {| incoming := []; outgoing := [] |} |} in
  load_processed_db Malformed = ∅
  /\ update_processed_db "J" r Malformed = Document {["J"%string := r]}.
Proof.
  intros r. apply (unreadable_cache_degrades Malformed "J" r).
  intros db H. discriminate H.
Defined.

(** X8.  Updates of the cache file overwrite per junction: a second update
    of the same junction replaces the first (last writer wins), and updates
    of two different junctions give the same file in either order. *)
Theorem update_overwrites_and_commutes (file : cache_file) (j k : string)
    (r r' : cache_record) :
  update_processed_db j r' (update_processed_db j r file)
  = update_processed_db j r' file
  /\ (j <> k ->
      update_processed_db j r (update_processed_db k r' file)
      = update_processed_db k r' (update_processed_db j r file)).
Proof.
  unfold update_processed_db. simpl. split.
  - rewrite insert_insert_eq. reflexivity.
  - intros Hne. f_equal. apply insert_insert_ne. exact Hne.
Qed.

Lemma update_overwrites_and_commutes_witness :
  let r := {| rec_intersection_id := "J"; rec_centreline_id := "1001";
              rec_location_name := "Main St"; rec_input_coordinates := None;
              rec_network_coordinates := (0%R, 0%R);
              rec_data_availability := [];
              rec_edge_mapping := {| incoming := []; outgoing := [] |} |} in
  "J"%string <> "K"%string /\
  update_processed_db "J" r (update_processed_db "K" r Absent)
  = update_processed_db "K" r (update_processed_db "J" r Absent).
Proof.
  intros r. assert (Hne : "J"%string <> "K"%string) by discriminate.
  split; [exact Hne|].
  exact (proj2 (update_overwrites_and_commutes Absent "J" "K" r r) Hne).
Defined.

End DatabaseMore.

(** ** Further properties of the flow synthesizer *)

Module FlowMore.
Import Bearing EdgeMapping FlowSynthesis KeyGrammar Decoding KeyFacts MoreSpec.

Section Synth.

Variable fromisoformat : string -> option Z.
Variable parse_int : string -> option Z.
Variables (m : mapping) (intersection_id : string).

Lemma unmapped_false d table :
  unmapped d table = false <-> exists e l, dir_get d table = Some (e :: l).
Proof.
  unfold unmapped. destruct (dir_get d table) as [[|e l]|]; split;
    try discriminate; try (intros (? & ? & [=])); eauto.
Qed.

Lemma movement_flow_emit_inv base_time duration key value p v t fl :
  movement_flow parse_int m intersection_id base_time duration
                key value p v t = Emit fl ->
  In v vocabulary /\
  exists count f g e1 l1 e2 l2,
    parse_int value = Some count /\ 0 < count /\
    incoming_mapping (Py.lower p) = Some f /\
    outgoing_mapping (Py.lower t) (Py.lower p) = Some g /\
    dir_get f (incoming m) = Some (e1 :: l1) /\
    dir_get g (outgoing m) = Some (e2 :: l2) /\
    fl = {| flow_id :=
              String.append intersection_id (String.append "_"
              (String.append key (String.append "_"
              (Py.str_of_int base_time))));
            flow_begin := base_time;
            flow_end := base_time + duration;
            flow_number := count;
            flow_from := e1; flow_to := e2;
            flow_type := vehicle_class v |}.
Proof.
  intros H.
  assert (Hns : movement_flow parse_int m intersection_id base_time duration
                              key value p v t <> Skip) by congruence.
  apply movement_flow_not_skip in Hns.
  destruct Hns as (Hv & count & f & g & Hc & Hpos & Hf & Hg).
  split; [exact Hv|]. unfold movement_flow in H.
  assert (Hveh : (if String.eqb v "cars" then Some "car"%string
                  else if key_in v ["truck"; "bus"]%string
                       then Some v else None) = Some (vehicle_class v)).
  { unfold vocabulary in Hv. simpl in Hv. unfold vehicle_class.
    destruct Hv as [<- | [<- | [<- | []]]]; reflexivity. }
  rewrite Hveh, Hc, Hf, Hg in H.
  apply Z.leb_gt in Hpos. rewrite Hpos in H.
  destruct (unmapped f (incoming m)) eqn:Uf; [discriminate|].
  destruct (unmapped g (outgoing m)) eqn:Ug; [discriminate|].
  simpl in H. injection H as <-.
  apply unmapped_false in Uf. apply unmapped_false in Ug.
  destruct Uf as (e1 & l1 & Uf). destruct Ug as (e2 & l2 & Ug).
  exists count, f, g, e1, l1, e2, l2. apply Z.leb_gt in Hpos.
  repeat split; try assumption.
  unfold first_edge. rewrite Uf, Ug. reflexivity.
Qed.

Lemma movement_flow_emit_fwd base_time duration key value p v t
      count f g e1 l1 e2 l2 :
  In v vocabulary -> parse_int value = Some count -> 0 < count ->
  incoming_mapping (Py.lower p) = Some f ->
  outgoing_mapping (Py.lower t) (Py.lower p) = Some g ->
  dir_get f (incoming m) = Some (e1 :: l1) ->
  dir_get g (outgoing m) = Some (e2 :: l2) ->
  movement_flow parse_int m intersection_id base_time duration
                key value p v t
  = Emit {| flow_id :=
              String.append intersection_id (String.append "_"
              (String.append key (String.append "_"
              (Py.str_of_int base_time))));
            flow_begin := base_time;
            flow_end := base_time + duration;
            flow_number := count;
            flow_from := e1; flow_to := e2;
            flow_type := vehicle_class v |}.
Proof.
  intros Hv Hc Hpos Hf Hg Uf Ug. unfold movement_flow.
  assert (Hveh : (if String.eqb v "cars" then Some "car"%string
                  else if key_in v ["truck"; "bus"]%string
                       then Some v else None) = Some (vehicle_class v)).
  { unfold vocabulary in Hv. simpl in Hv. unfold vehicle_class.
    destruct Hv as [<- | [<- | [<- | []]]]; reflexivity. }
  rewrite Hveh, Hc, Hf, Hg. apply Z.leb_gt in Hpos. rewrite Hpos.
  unfold unmapped, first_edge. rewrite Uf, Ug. reflexivity.
Qed.

(** What a column that yields a flow looks like. *)
Lemma key_flow_emit_inv base_time duration key value fl :
  key_flow parse_int m intersection_id base_time duration key value
  = Emit fl ->
  exists o v t count f g e1 l1 e2 l2,
    movement_key key o v t /\ In v vocabulary /\
    parse_int value = Some count /\ 0 < count /\
    incoming_mapping (Py.lower o) = Some f /\
    outgoing_mapping (Py.lower t) (Py.lower o) = Some g /\
    dir_get f (incoming m) = Some (e1 :: l1) /\
    dir_get g (outgoing m) = Some (e2 :: l2) /\
    fl = {| flow_id :=
              String.append intersection_id (String.append "_"
              (String.append key (String.append "_"
              (Py.str_of_int base_time))));
            flow_begin := base_time;
            flow_end := base_time + duration;
            flow_number := count;
            flow_from := e1; flow_to := e2;
            flow_type := vehicle_class v |}.
Proof.
  unfold key_flow. intros H.
  destruct (key_in key ignore_keys); [discriminate|].
  pose proof (join_split key) as Hjoin.
  pose proof (split_parts_free key) as Hfree.
  destruct (Py.split "_" key) as [|p [|x [|y [|z [|? ?]]]]];
    try discriminate.
  - apply movement_flow_emit_inv in H.
    destruct H as (Hv & count & f & g & e1 & l1 & e2 & l2 & Hc & Hpos & Hf
                   & Hg & U1 & U2 & ->).
    exists p, x, y, count, f, g, e1, l1, e2, l2.
    repeat split; try assumption.
    rewrite <- Hjoin. constructor.
    + eapply origin_letters; eassumption.
    + inversion Hfree as [|? ? _ Hfree']; subst.
      inversion Hfree'; subst. assumption.
    + eapply turn_letters; eassumption.
  - destruct (String.eqb_spec (Py.lower x) "appr") as [Ea|_];
      simpl in H; [|discriminate].
    apply movement_flow_emit_inv in H.
    destruct H as (Hv & count & f & g & e1 & l1 & e2 & l2 & Hc & Hpos & Hf
                   & Hg & U1 & U2 & ->).
    exists p, y, z, count, f, g, e1, l1, e2, l2.
    repeat split; try assumption.
    rewrite <- Hjoin. constructor.
    + eapply origin_letters; eassumption.
    + exact Ea.
    + inversion Hfree as [|? ? _ Hfree']; subst.
      inversion Hfree' as [|? ? _ Hfree'']; subst.
      inversion Hfree''; subst. assumption.
    + eapply turn_letters; eassumption.
Qed.

Lemma key_flow_emit_fwd base_time duration key value o v t
      count f g e1 l1 e2 l2 :
  movement_key key o v t -> In v vocabulary ->
  parse_int value = Some count -> 0 < count ->
  incoming_mapping (Py.lower o) = Some f ->
  outgoing_mapping (Py.lower t) (Py.lower o) = Some g ->
  dir_get f (incoming m) = Some (e1 :: l1) ->
  dir_get g (outgoing m) = Some (e2 :: l2) ->
  key_flow parse_int m intersection_id base_time duration key value
  = Emit {| flow_id :=
              String.append intersection_id (String.append "_"
              (String.append key (String.append "_"
              (Py.str_of_int base_time))));
            flow_begin := base_time;
            flow_end := base_time + duration;
            flow_number := count;
            flow_from := e1; flow_to := e2;
            flow_type := vehicle_class v |}.
Proof.
  intros Hkey Hv Hc Hpos Hf Hg U1 U2.
  unfold key_flow. rewrite (grammar_not_metadata _ _ _ _ Hkey).
  destruct Hkey as [o v t Ho Hfree Ht | o a v t Ho Ha Hfree Ht].
  - rewrite split_join3;
      [|apply origins_free; exact Ho|exact Hfree|apply turns_free; exact Ht].
    eapply movement_flow_emit_fwd; eassumption.
  - rewrite split_join4;
      [|apply origins_free; exact Ho|apply marker_free; exact Ha|exact Hfree
       |apply turns_free; exact Ht].
    rewrite Ha. simpl. eapply movement_flow_emit_fwd; eassumption.
Qed.

End Synth.

(** X9.  A column yields a flow exactly when its key follows the grammar
    (letters in either case), its token is in the vocabulary, its count is
    a positive integer and both resolved directions have a non-empty edge
    list; the flow then runs from the first edge of the origin direction
    to the first edge of the destination direction, carries the count and
    the vehicle class of the token, and spans the row's offset and
    duration. *)
Theorem column_yields_flow parse_int m intersection_id base_time duration
    key value fl :
  key_flow parse_int m intersection_id base_time duration key value
  = Emit fl
  <->
  exists o v t count f g e1 l1 e2 l2,
    movement_key key o v t /\ In v vocabulary /\
    parse_int value = Some count /\ 0 < count /\
    incoming_mapping (Py.lower o) = Some f /\
    outgoing_mapping (Py.lower t) (Py.lower o) = Some g /\
    dir_get f (incoming m) = Some (e1 :: l1) /\
    dir_get g (outgoing m) = Some (e2 :: l2) /\
    fl = {| flow_id :=
              String.append intersection_id (String.append "_"
              (String.append key (String.append "_"
              (Py.str_of_int base_time))));
            flow_begin := base_time;
            flow_end := base_time + duration;
            flow_number := count;
            flow_from := e1; flow_to := e2;
            flow_type := vehicle_class v |}.
Proof.
  split; [apply key_flow_emit_inv|].
  intros (o & v & t & count & f & g & e1 & l1 & e2 & l2 & Hkey & Hv & Hc
          & Hpos & Hf & Hg & U1 & U2 & ->).
  eapply key_flow_emit_fwd; eassumption.
Qed.

(** X10.  The letter tables resolve every origin letter and turn letter,
    in either case; the destination of a turn is never the origin
    direction, a through movement leads to the opposite direction, and the
    right and the left turn from one origin lead to opposite directions. *)
Theorem turn_table_shape o :
  In o ["n"; "s"; "e"; "w"; "N"; "S"; "E"; "W"]%string ->
  exists f r t l,
    incoming_mapping (Py.lower o) = Some f /\
    (outgoing_mapping "r" (Py.lower o) = Some r /\
     outgoing_mapping (Py.lower "R") (Py.lower o) = Some r) /\
    (outgoing_mapping "t" (Py.lower o) = Some t /\
     outgoing_mapping (Py.lower "T") (Py.lower o) = Some t) /\
    (outgoing_mapping "l" (Py.lower o) = Some l /\
     outgoing_mapping (Py.lower "L") (Py.lower o) = Some l) /\
    t = opposite f /\ l = opposite r /\ r <> f /\ l <> f /\ t <> f /\
    r <> t /\ l <> t.
Proof.
  simpl. intros H.
  repeat (destruct H as [<- | H]);
    try (eexists; eexists; eexists; eexists;
         repeat split; try reflexivity; discriminate).
  destruct H.
Qed.

Lemma turn_table_shape_witness :
  exists f r t l,
    incoming_mapping (Py.lower "N") = Some f /\
    (outgoing_mapping "r" (Py.lower "N") = Some r /\
     outgoing_mapping (Py.lower "R") (Py.lower "N") = Some r) /\
    (outgoing_mapping "t" (Py.lower "N") = Some t /\
     outgoing_mapping (Py.lower "T") (Py.lower "N") = Some t) /\
    (outgoing_mapping "l" (Py.lower "N") = Some l /\
     outgoing_mapping (Py.lower "L") (Py.lower "N") = Some l) /\
    t = opposite f /\ l = opposite r /\ r <> f /\ l <> f /\ t <> f /\
    r <> t /\ l <> t.
Proof.
  apply (turn_table_shape "N"). simpl. tauto.
Defined.

End FlowMore.

(** ** The loops of flow generation *)

Module FlowLoops.
Import Bearing EdgeMapping FlowSynthesis KeyGrammar Decoding KeyFacts MoreSpec.
Import FlowMore.

Section Loops.

Variable fromisoformat : string -> option Z.
Variable parse_int : string -> option Z.
Variables (m : mapping) (intersection_id : string).
Variables simulation_start_dt simulation_end_dt : Z.

(** The flow list is only ever extended. *)
Lemma items_flows_acc base_time duration items acc :
  items_flows parse_int m intersection_id base_time duration items acc
  = match items_flows parse_int m intersection_id base_time duration
                      items [] with
    | Ok flows => Ok (acc ++ flows)
    | Raise e => Raise e
    end.
Proof.
  revert acc. induction items as [|[key value] items IH]; intros acc; simpl.
  - rewrite app_nil_r. reflexivity.
  - destruct (key_flow parse_int m intersection_id base_time duration
                       key value) as [|fl|e]; [apply IH| |reflexivity].
    rewrite (IH (acc ++ [fl])), (IH [fl]).
    destruct (items_flows parse_int m intersection_id base_time duration
                          items []); [|reflexivity].
    rewrite <- app_assoc. reflexivity.
Qed.

Lemma rows_flows_acc rows acc :
  rows_flows fromisoformat parse_int m intersection_id simulation_start_dt
             simulation_end_dt rows acc
  = match rows_flows fromisoformat parse_int m intersection_id
                     simulation_start_dt simulation_end_dt rows [] with
    | Ok flows => Ok (acc ++ flows)
    | Raise e => Raise e
    end.
Proof.
  revert acc. induction rows as [|r rows IH]; intros acc; simpl.
  - rewrite app_nil_r. reflexivity.
  - destruct (row_times fromisoformat r) as [[rs re]|]; [|apply IH].
    destruct ((rs <? simulation_start_dt) || (rs >=? simulation_end_dt));
      [apply IH|].
    rewrite (items_flows_acc _ _ r acc).
    destruct (items_flows parse_int m intersection_id
                          (rs - simulation_start_dt) (re - rs) r [])
      as [fr|e]; [|reflexivity].
    rewrite (IH (acc ++ fr)), (IH fr).
    destruct (rows_flows fromisoformat parse_int m intersection_id
                         simulation_start_dt simulation_end_dt rows []);
      [|reflexivity].
    rewrite <- app_assoc. reflexivity.
Qed.

Lemma rows_flows_app rows1 rows2 :
  rows_flows fromisoformat parse_int m intersection_id simulation_start_dt
             simulation_end_dt (rows1 ++ rows2) []
  = match rows_flows fromisoformat parse_int m intersection_id
                     simulation_start_dt simulation_end_dt rows1 [] with
    | Ok flows1 =>
        match rows_flows fromisoformat parse_int m intersection_id
                         simulation_start_dt simulation_end_dt rows2 [] with
        | Ok flows2 => Ok (flows1 ++ flows2)
        | Raise e => Raise e
        end
    | Raise e => Raise e
    end.
Proof.
  induction rows1 as [|r rows1 IH]; simpl.
  - destruct (rows_flows fromisoformat parse_int m intersection_id
                         simulation_start_dt simulation_end_dt rows2 []);
      reflexivity.
  - destruct (row_times fromisoformat r) as [[rs re]|]; [|apply IH].
    destruct ((rs <? simulation_start_dt) || (rs >=? simulation_end_dt));
      [apply IH|].
    destruct (items_flows parse_int m intersection_id
                          (rs - simulation_start_dt) (re - rs) r [])
      as [fr|e]; [|reflexivity].
    rewrite (rows_flows_acc (rows1 ++ rows2) fr), (rows_flows_acc rows1 fr).
    rewrite IH.
    destruct (rows_flows fromisoformat parse_int m intersection_id
                         simulation_start_dt simulation_end_dt rows1 []);
      [|reflexivity].
    destruct (rows_flows fromisoformat parse_int m intersection_id
                         simulation_start_dt simulation_end_dt rows2 []);
      [|reflexivity].
    rewrite app_assoc. reflexivity.
Qed.

Lemma window_test row_start :
  (row_start <? simulation_start_dt) || (row_start >=? simulation_end_dt)
  = negb ((simulation_start_dt <=? row_start)
          && (row_start <? simulation_end_dt)).
Proof.
  rewrite Z.geb_leb, negb_andb, !Z.leb_antisym, Z.ltb_antisym.
  rewrite !negb_involutive. reflexivity.
Qed.

Lemma rows_flows_filter rows acc :
  rows_flows fromisoformat parse_int m intersection_id simulation_start_dt
             simulation_end_dt rows acc
  = rows_flows fromisoformat parse_int m intersection_id simulation_start_dt
               simulation_end_dt
               (List.filter (in_window fromisoformat simulation_start_dt
                                       simulation_end_dt) rows) acc.
Proof.
  revert acc. induction rows as [|r rows IH]; intros acc; [reflexivity|].
  cbn [List.filter rows_flows]. unfold in_window at 1.
  destruct (row_times fromisoformat r) as [[rs re]|] eqn:Et; [|apply IH].
  rewrite window_test.
  destruct ((simulation_start_dt <=? rs) && (rs <? simulation_end_dt))
    eqn:Ew; cbn [negb]; [|apply IH].
  cbn [rows_flows]. rewrite Et, window_test, Ew. cbn [negb].
  destruct (items_flows parse_int m intersection_id
                        (rs - simulation_start_dt) (re - rs) r acc);
    [apply IH|reflexivity].
Qed.

Lemma items_flows_emitted base_time duration (P : flow -> Prop) items :
  (forall key value fl,
      In (key, value) items ->
      key_flow parse_int m intersection_id base_time duration key value
      = Emit fl -> P fl) ->
  forall acc flows,
    Forall P acc ->
    items_flows parse_int m intersection_id base_time duration items acc
    = Ok flows ->
    Forall P flows.
Proof.
  induction items as [|[key value] items IH]; intros HP acc flows Hacc H;
    simpl in H.
  - injection H as <-. exact Hacc.
  - assert (HP' : forall key value fl,
               In (key, value) items ->
               key_flow parse_int m intersection_id base_time duration
                        key value = Emit fl -> P fl)
      by (intros; eapply HP; [right|]; eassumption).
    destruct (key_flow parse_int m intersection_id base_time duration
                       key value) as [|fl|e] eqn:Ek; [| |discriminate].
    + eapply IH; eassumption.
    + eapply (IH HP' (acc ++ [fl])); [|exact H].
      apply Forall_app. split; [exact Hacc|].
      constructor; [|constructor]. eapply HP; [left; reflexivity|exact Ek].
Qed.

(** Every flow of a successful run stems from a column of a row that starts
    inside the window. *)
Lemma rows_flows_emitted all rows :
  (forall r, In r rows -> In r all) ->
  forall acc flows,
    Forall (emitted_by fromisoformat parse_int m intersection_id
                       simulation_start_dt simulation_end_dt all) acc ->
    rows_flows fromisoformat parse_int m intersection_id simulation_start_dt
               simulation_end_dt rows acc = Ok flows ->
    Forall (emitted_by fromisoformat parse_int m intersection_id
                       simulation_start_dt simulation_end_dt all) flows.
Proof.
  induction rows as [|r rows IH]; intros Hsub acc flows Hacc H; simpl in H.
  - injection H as <-. exact Hacc.
  - assert (Hsub' : forall r', In r' rows -> In r' all)
      by (intros; apply Hsub; right; assumption).
    destruct (row_times fromisoformat r) as [[rs re]|] eqn:Et;
      [|eapply IH; eassumption].
    destruct ((rs <? simulation_start_dt) || (rs >=? simulation_end_dt))
      eqn:Ew; [eapply IH; eassumption|].
    destruct (items_flows parse_int m intersection_id
                          (rs - simulation_start_dt) (re - rs) r acc)
      as [flows'|e] eqn:Ei; [|discriminate].
    eapply (IH Hsub' flows'); [|exact H].
    eapply items_flows_emitted; [|exact Hacc|exact Ei].
    intros key value fl Hin Hk. exists r, rs, re, key, value.
    apply orb_false_iff in Ew. destruct Ew as [E1 E2].
    apply Z.ltb_ge in E1. rewrite Z.geb_leb in E2. apply Z.leb_gt in E2.
    repeat split; try assumption. apply Hsub. left. reflexivity.
Qed.

Lemma generate_emitted rows flows :
  generate_flows_for_intersection fromisoformat parse_int m rows
    intersection_id simulation_start_dt simulation_end_dt = Ok flows ->
  Forall (emitted_by fromisoformat parse_int m intersection_id
                     simulation_start_dt simulation_end_dt rows) flows.
Proof.
  intros H. eapply (rows_flows_emitted rows rows); [auto|constructor|exact H].
Qed.

(** Conversely, every flow a column emits is in the result. *)
Lemma items_flows_complete base_time duration items acc flows fl :
  items_flows parse_int m intersection_id base_time duration items acc
  = Ok flows ->
  In fl acc
  \/ (exists key value,
         In (key, value) items /\
         key_flow parse_int m intersection_id base_time duration key value
         = Emit fl) ->
  In fl flows.
Proof.
  revert acc. induction items as [|[key value] items IH]; intros acc H Hfl;
    simpl in H.
  - injection H as <-. destruct Hfl as [Hacc | (k & v & [] & _)]. exact Hacc.
  - destruct (key_flow parse_int m intersection_id base_time duration
                       key value) as [|f|e] eqn:Ek; [| |discriminate].
    + apply (IH acc H). destruct Hfl as [Hacc | (k & v & Hin & Hk)];
        [left; exact Hacc|].
      destruct Hin as [[= <- <-] | Hin]; [congruence|].
      right. exists k, v. tauto.
    + apply (IH (acc ++ [f]) H).
      destruct Hfl as [Hacc | (k & v & Hin & Hk)].
      * left. apply in_app_iff. left. exact Hacc.
      * destruct Hin as [[= <- <-] | Hin].
        -- left. apply in_app_iff. right. left. congruence.
        -- right. exists k, v. tauto.
Qed.

Lemma rows_flows_complete rows acc flows fl :
  rows_flows fromisoformat parse_int m intersection_id simulation_start_dt
             simulation_end_dt rows acc = Ok flows ->
  In fl acc
  \/ emitted_by fromisoformat parse_int m intersection_id
                simulation_start_dt simulation_end_dt rows fl ->
  In fl flows.
Proof.
  revert acc. induction rows as [|r rows IH]; intros acc H Hfl; simpl in H.
  - injection H as <-.
    destruct Hfl as [Hacc | (r & rs & re & k & v & [] & _)]. exact Hacc.
  - assert (Hrest : forall acc',
               In fl acc' ->
               rows_flows fromisoformat parse_int m intersection_id
                          simulation_start_dt simulation_end_dt rows acc'
               = Ok flows -> In fl flows)
      by (intros acc' Hin H'; apply (IH acc' H'); left; exact Hin).
    destruct Hfl as [Hacc | (r' & rs & re & k & v & Hin & Ht & Hw & Hk & He)].
    + destruct (row_times fromisoformat r) as [[rs re]|];
        [|exact (Hrest acc Hacc H)].
      destruct ((rs <? simulation_start_dt) || (rs >=? simulation_end_dt));
        [exact (Hrest acc Hacc H)|].
      destruct (items_flows parse_int m intersection_id
                            (rs - simulation_start_dt) (re - rs) r acc)
        as [flows'|e] eqn:Ei; [|discriminate].
      apply (Hrest flows'); [|exact H].
      apply (items_flows_complete _ _ _ _ _ _ Ei). left. exact Hacc.
    + destruct Hin as [<- | Hin].
      * rewrite Ht in H.
        assert (Ew : (rs <? simulation_start_dt)
                     || (rs >=? simulation_end_dt) = false).
        { apply orb_false_iff. split; [apply Z.ltb_ge|rewrite Z.geb_leb;
                                                      apply Z.leb_gt]; lia. }
        rewrite Ew in H.
        destruct (items_flows parse_int m intersection_id
                              (rs - simulation_start_dt) (re - rs) r acc)
          as [flows'|e] eqn:Ei; [|discriminate].
        apply (Hrest flows'); [|exact H].
        apply (items_flows_complete _ _ _ _ _ _ Ei). right. exists k, v. tauto.
      * assert (Hem : emitted_by fromisoformat parse_int m intersection_id
                                 simulation_start_dt simulation_end_dt rows fl)
          by (exists r', rs, re, k, v; tauto).
        destruct (row_times fromisoformat r) as [[rs0 re0]|];
          [|apply (IH acc H); right; exact Hem].
        destruct ((rs0 <? simulation_start_dt)
                  || (rs0 >=? simulation_end_dt));
          [apply (IH acc H); right; exact Hem|].
        destruct (items_flows parse_int m intersection_id
                              (rs0 - simulation_start_dt) (re0 - rs0) r acc)
          as [flows'|e]; [|discriminate].
        apply (IH flows' H). right. exact Hem.
Qed.

End Loops.

(** X11.  Every flow of a successful flow generation stems from one column
    of one row whose times are read and whose start lies inside the window:
    its count is the positive integer of that column, its class is car,
    truck or bus, its begin is not negative, and its two edges head
    non-empty lists of the mapping. *)
Theorem flows_well_formed fromisoformat parse_int m rows intersection_id
    simulation_start_dt simulation_end_dt flows :
  generate_flows_for_intersection fromisoformat parse_int m rows
    intersection_id simulation_start_dt simulation_end_dt = Ok flows ->
  Forall (fun fl =>
            exists r row_start row_end key value,
              In r rows /\ In (key, value) r /\
              row_times fromisoformat r = Some (row_start, row_end) /\
              simulation_start_dt <= row_start < simulation_end_dt /\
              parse_int value = Some (flow_number fl) /\
              0 < flow_number fl /\
              In (flow_type fl) ["car"; "truck"; "bus"]%string /\
              0 <= flow_begin fl /\
              (exists d l, dir_get d (incoming m) = Some (flow_from fl :: l))
              /\ (exists d l, dir_get d (outgoing m)
                              = Some (flow_to fl :: l)))
         flows.
Proof.
  intros H. apply generate_emitted in H.
  eapply List.Forall_impl; [|exact H]. clear H.
  intros fl (r & rs & re & key & value & Hr & Ht & Hw & Hk & He).
  apply key_flow_emit_inv in He.
  destruct He as (o & v & t & count & f & g & e1 & l1 & e2 & l2 & _ & Hv
                  & Hc & Hpos & _ & _ & U1 & U2 & ->).
  exists r, rs, re, key, value. simpl.
  repeat split; try assumption; try lia.
  - unfold vocabulary in Hv. unfold vehicle_class. simpl in Hv.
    destruct Hv as [<- | [<- | [<- | []]]]; simpl; tauto.
  - eauto.
  - eauto.
Qed.

Lemma scenario_run :
  generate_flows_for_intersection Py.fromisoformat Py.int_of_str
    {| incoming := [(north, ["e1"%string])];
       outgoing := [(south, ["e2"%string])] |}
    [scenario_row] "J1"
    (instant "2024-01-01T08:00:00") (instant "2024-01-01T08:30:00")
  = Ok [{| flow_id := "J1_n_appr_cars_t_0";
           flow_begin := 0; flow_end := 900; flow_number := 5;
           flow_from := "e1"; flow_to := "e2"; flow_type := "car" |}].
Proof. vm_compute. reflexivity. Qed.

Lemma flows_well_formed_witness :
  Forall (fun fl => 0 < flow_number fl /\ 0 <= flow_begin fl)
         [{| flow_id := "J1_n_appr_cars_t_0";
             flow_begin := 0; flow_end := 900; flow_number := 5;
             flow_from := "e1"; flow_to := "e2"; flow_type := "car" |}].
Proof.
  eapply List.Forall_impl;
    [|exact (flows_well_formed Py.fromisoformat Py.int_of_str _ _ _ _ _ _
               scenario_run)].
  intros fl (r & rs & re & key & value & H). intuition lia.
Defined.

(** X12.  Rows whose times cannot be read or whose start lies outside
    [[simulation_start, simulation_end)] have no effect: flow generation
    gives the same result, flows or error, on the rows that remain. *)
Theorem rows_outside_window_ignored fromisoformat parse_int m rows
    intersection_id simulation_start_dt simulation_end_dt :
  generate_flows_for_intersection fromisoformat parse_int m rows
    intersection_id simulation_start_dt simulation_end_dt
  = generate_flows_for_intersection fromisoformat parse_int m
      (List.filter (in_window fromisoformat simulation_start_dt
                              simulation_end_dt) rows)
      intersection_id simulation_start_dt simulation_end_dt.
Proof. apply rows_flows_filter. Qed.

(** X13.  Flow generation works row by row: on two lists of rows in
    sequence it yields the flows of the first followed by those of the
    second, and it fails as soon as either part fails (the first part's
    error taking precedence). *)
Theorem flows_of_appended_rows fromisoformat parse_int m rows1 rows2
    intersection_id simulation_start_dt simulation_end_dt :
  generate_flows_for_intersection fromisoformat parse_int m (rows1 ++ rows2)
    intersection_id simulation_start_dt simulation_end_dt
  = match generate_flows_for_intersection fromisoformat parse_int m rows1
            intersection_id simulation_start_dt simulation_end_dt with
    | Ok flows1 =>
        match generate_flows_for_intersection fromisoformat parse_int m rows2
                intersection_id simulation_start_dt simulation_end_dt with
        | Ok flows2 => Ok (flows1 ++ flows2)
        | Raise e => Raise e
        end
    | Raise e => Raise e
    end.
Proof. apply rows_flows_app. Qed.

(** *** Flow identifiers *)

Lemma append_cancel p x y : String.append p x = String.append p y -> x = y.
Proof.
  induction p as [|c p IH]; simpl; intros H; [exact H|].
  injection H as H. apply IH, H.
Qed.

Lemma underscore_free_sep a b :
  underscore_free (String.append a (String "_" b)) = false.
Proof.
  induction a as [|c a IH]; simpl; [reflexivity|].
  rewrite IH. apply andb_false_r.
Qed.

(** The text after the last underscore determines the split. *)
Lemma last_separator a b sa sb :
  underscore_free sa = true -> underscore_free sb = true ->
  String.append a (String "_" sa) = String.append b (String "_" sb) ->
  a = b /\ sa = sb.
Proof.
  intros Ha Hb. revert b.
  induction a as [|c a IH]; intros [|c' b] H; simpl in H.
  - injection H as H. tauto.
  - injection H as Hc H. subst c'. rewrite H in Ha.
    rewrite underscore_free_sep in Ha. discriminate.
  - injection H as Hc H. subst c. rewrite <- H in Hb.
    rewrite underscore_free_sep in Hb. discriminate.
  - injection H as -> H. destruct (IH b H) as [-> ->]. tauto.
Qed.

Lemma digits_free d :
  underscore_free (DecimalString.NilEmpty.string_of_uint d) = true.
Proof. induction d; simpl; auto. Qed.

Lemma str_of_int_free n : underscore_free (Py.str_of_int n) = true.
Proof.
  unfold Py.str_of_int, DecimalString.NilZero.string_of_int,
    DecimalString.NilZero.string_of_uint.
  destruct (Z.to_int n) as [d|d]; destruct d; simpl;
    try reflexivity; apply digits_free.
Qed.

Lemma to_int_not_nil n :
  Z.to_int n <> Decimal.Pos Decimal.Nil /\ Z.to_int n <> Decimal.Neg Decimal.Nil.
Proof.
  destruct n as [|p|p]; simpl; split; try discriminate;
    intros [= H]; exact (DecimalPos.Unsigned.to_uint_nonnil p H).
Qed.

Lemma str_of_int_inj a b : Py.str_of_int a = Py.str_of_int b -> a = b.
Proof.
  unfold Py.str_of_int. intros H.
  assert (Hi : DecimalString.NilZero.int_of_string
                 (DecimalString.NilZero.string_of_int (Z.to_int a))
               = DecimalString.NilZero.int_of_string
                   (DecimalString.NilZero.string_of_int (Z.to_int b)))
    by (rewrite H; reflexivity).
  destruct (to_int_not_nil a) as [A1 A2]. destruct (to_int_not_nil b) as [B1 B2].
  rewrite !DecimalString.NilZero.isi in Hi by assumption.
  injection Hi as Hi.
  rewrite <- (DecimalZ.of_to a), <- (DecimalZ.of_to b), Hi. reflexivity.
Qed.

Lemma key_flow_same_key parse_int m intersection_id b1 d1 b2 d2 key v1 v2
      f1 f2 :
  key_flow parse_int m intersection_id b1 d1 key v1 = Emit f1 ->
  key_flow parse_int m intersection_id b2 d2 key v2 = Emit f2 ->
  flow_from f1 = flow_from f2 /\ flow_to f1 = flow_to f2 /\
  flow_type f1 = flow_type f2.
Proof.
  unfold key_flow. destruct (key_in key ignore_keys); [discriminate|].
  assert (Hm : forall p v t,
             movement_flow parse_int m intersection_id b1 d1 key v1 p v t
             = Emit f1 ->
             movement_flow parse_int m intersection_id b2 d2 key v2 p v t
             = Emit f2 ->
             flow_from f1 = flow_from f2 /\ flow_to f1 = flow_to f2 /\
             flow_type f1 = flow_type f2).
  { intros p v t H1 H2.
    apply movement_flow_emit_inv in H1. apply movement_flow_emit_inv in H2.
    destruct H1 as (_ & c1 & f & g & e1 & l1 & e2 & l2 & _ & _ & Hf & Hg
                    & U1 & U2 & ->).
    destruct H2 as (_ & c2 & f' & g' & e1' & l1' & e2' & l2' & _ & _ & Hf'
                    & Hg' & U1' & U2' & ->).
    simpl. rewrite Hf in Hf'. injection Hf' as <-.
    rewrite Hg in Hg'. injection Hg' as <-.
    rewrite U1 in U1'. rewrite U2 in U2'.
    injection U1' as <- _. injection U2' as <- _. tauto. }
  destruct (Py.split "_" key) as [|p [|x [|y [|z [|? ?]]]]];
    try discriminate; [apply Hm|].
  destruct (negb (String.eqb (Py.lower x) "appr")); [discriminate|apply Hm].
Qed.

(** X16.  Flow identifiers are not unique.  Within one successful flow
    generation two flows carry the same identifier only if they stem from
    columns of the same name and begin together; they then agree on origin
    edge, destination edge and vehicle class.  And they do collide: when
    two rows that are read share their start time, the flows of their
    columns of one name are both in the result, under one identifier,
    whatever their counts. *)
Theorem flow_id_collisions fromisoformat parse_int m rows intersection_id
    simulation_start_dt simulation_end_dt flows :
  generate_flows_for_intersection fromisoformat parse_int m rows
    intersection_id simulation_start_dt simulation_end_dt = Ok flows ->
  (forall f1 f2,
      In f1 flows -> In f2 flows -> flow_id f1 = flow_id f2 ->
      exists key r1 r2 v1 v2,
        In r1 rows /\ In (key, v1) r1 /\
        parse_int v1 = Some (flow_number f1) /\
        In r2 rows /\ In (key, v2) r2 /\
        parse_int v2 = Some (flow_number f2) /\
        flow_begin f1 = flow_begin f2 /\ flow_from f1 = flow_from f2 /\
        flow_to f1 = flow_to f2 /\ flow_type f1 = flow_type f2)
  /\ (forall r1 r2 row_start end1 end2 key v1 v2 f1 f2,
         In r1 rows -> In r2 rows ->
         row_times fromisoformat r1 = Some (row_start, end1) ->
         row_times fromisoformat r2 = Some (row_start, end2) ->
         simulation_start_dt <= row_start < simulation_end_dt ->
         In (key, v1) r1 -> In (key, v2) r2 ->
         key_flow parse_int m intersection_id
                  (row_start - simulation_start_dt) (end1 - row_start)
                  key v1 = Emit f1 ->
         key_flow parse_int m intersection_id
                  (row_start - simulation_start_dt) (end2 - row_start)
                  key v2 = Emit f2 ->
         In f1 flows /\ In f2 flows /\ flow_id f1 = flow_id f2).
Proof.
  intros H. split.
  - intros f1 f2 H1 H2 Hid. apply generate_emitted in H.
    rewrite List.Forall_forall in H.
    destruct (H f1 H1) as (r1 & rs1 & re1 & k1 & v1 & Hr1 & _ & _ & Hk1 & E1).
    destruct (H f2 H2) as (r2 & rs2 & re2 & k2 & v2 & Hr2 & _ & _ & Hk2 & E2).
    pose proof (key_flow_emit_inv _ _ _ _ _ _ _ _ E1) as I1.
    pose proof (key_flow_emit_inv _ _ _ _ _ _ _ _ E2) as I2.
    destruct I1 as (? & ? & ? & c1 & ? & ? & ? & ? & ? & ? & _ & _ & Hc1 & _
                    & _ & _ & _ & _ & Hf1).
    destruct I2 as (? & ? & ? & c2 & ? & ? & ? & ? & ? & ? & _ & _ & Hc2 & _
                    & _ & _ & _ & _ & Hf2).
    assert (Hk : k1 = k2 /\ rs1 - simulation_start_dt
                            = rs2 - simulation_start_dt).
    { rewrite Hf1, Hf2 in Hid. simpl in Hid.
      apply append_cancel in Hid. injection Hid as Hid.
      apply last_separator in Hid; try apply str_of_int_free.
      destruct Hid as [-> Hs]. apply str_of_int_inj in Hs. tauto. }
    destruct Hk as [<- Hb].
    destruct (key_flow_same_key _ _ _ _ _ _ _ _ _ _ _ _ E1 E2)
      as (Hfrom & Hto & Htype).
    exists k1, r1, r2, v1, v2.
    repeat split; try assumption.
    + rewrite Hf1. exact Hc1.
    + rewrite Hf2. exact Hc2.
    + rewrite Hf1, Hf2. simpl. exact Hb.
  - intros r1 r2 rs e1 e2 key v1 v2 f1 f2 Hr1 Hr2 Ht1 Ht2 Hw Hk1 Hk2 E1 E2.
    unfold generate_flows_for_intersection in H.
    split; [|split].
    + apply (rows_flows_complete _ _ _ _ _ _ _ _ _ _ H). right.
      exists r1, rs, e1, key, v1. tauto.
    + apply (rows_flows_complete _ _ _ _ _ _ _ _ _ _ H). right.
      exists r2, rs, e2, key, v2. tauto.
    + apply key_flow_emit_inv in E1. apply key_flow_emit_inv in E2.
      destruct E1 as (? & ? & ? & ? & ? & ? & ? & ? & ? & ? & _ & _ & _ & _
                      & _ & _ & _ & _ & ->).
      destruct E2 as (? & ? & ? & ? & ? & ? & ? & ? & ? & ? & _ & _ & _ & _
                      & _ & _ & _ & _ & ->).
      reflexivity.
Qed.

Lemma collision_run :
  generate_flows_for_intersection Py.fromisoformat Py.int_of_str
    {| incoming := [(north, ["e1"%string])];
       outgoing := [(south, ["e2"%string])] |}
    [scenario_row;
     [("start_time", "2024-01-01T08:00:00");
      ("end_time", "2024-01-01T08:05:00"); ("n_appr_cars_t", "7")]%string]
    "J1"
    (instant "2024-01-01T08:00:00") (instant "2024-01-01T08:30:00")
  = Ok [{| flow_id := "J1_n_appr_cars_t_0";
           flow_begin := 0; flow_end := 900; flow_number := 5;
           flow_from := "e1"; flow_to := "e2"; flow_type := "car" |};
        {| flow_id := "J1_n_appr_cars_t_0";
           flow_begin := 0; flow_end := 300; flow_number := 7;
           flow_from := "e1"; flow_to := "e2"; flow_type := "car" |}].
Proof. vm_compute. reflexivity. Qed.

Lemma flow_id_collisions_witness :
  let f1 := {| flow_id := "J1_n_appr_cars_t_0";
               flow_begin := 0; flow_end := 900; flow_number := 5;
               flow_from := "e1"; flow_to := "e2"; flow_type := "car" |} in
  let f2 := {| flow_id := "J1_n_appr_cars_t_0";
               flow_begin := 0; flow_end := 300; flow_number := 7;
               flow_from := "e1"; flow_to := "e2"; flow_type := "car" |} in
  f1 <> f2 /\
  exists (key : string) (r1 r2 : row) (v1 v2 : string),
    In (key, v1) r1 /\ Py.int_of_str v1 = Some 5 /\
    In (key, v2) r2 /\ Py.int_of_str v2 = Some 7.
Proof.
  intros f1 f2. split; [discriminate|].
  destruct (proj1 (flow_id_collisions Py.fromisoformat Py.int_of_str _ _ _ _
                     _ _ collision_run) f1 f2)
    as (key & r1 & r2 & v1 & v2 & _ & H1 & P1 & _ & H2 & P2 & _).
  - left. reflexivity.
  - right. left. reflexivity.
  - reflexivity.
  - exists key, r1, r2, v1, v2. auto.
Defined.

End FlowLoops.

(** ** Further properties of the availability calculator *)

Module AvailabilityMore.
Import Availability AvailabilityFacts FlowSynthesis MoreSpec.

Lemma merge_from_bounds cur rest iv :
  In iv (merge_from cur rest) ->
  (fst iv = fst cur \/ exists x, In x rest /\ fst iv = fst x)
  /\ (snd iv = snd cur \/ exists x, In x rest /\ snd iv = snd x).
Proof.
  revert cur. induction rest as [|y rest IH]; intros cur Hin; simpl in Hin.
  - destruct Hin as [<- | []]. tauto.
  - destruct (fst y <=? snd cur).
    + apply IH in Hin. simpl in Hin. destruct Hin as [Hs He]. split.
      * destruct Hs as [Hs | (x & Hx & Hs)]; [tauto|].
        right. exists x. simpl. tauto.
      * destruct He as [He | (x & Hx & He)].
        -- destruct (Z.max_spec (snd cur) (snd y)) as [[_ Hm] | [_ Hm]];
             rewrite Hm in He; [right; exists y; simpl|]; tauto.
        -- right. exists x. simpl. tauto.
    + destruct Hin as [<- | Hin]; [tauto|].
      apply IH in Hin. destruct Hin as [Hs He]. split.
      * right. destruct Hs as [Hs | (x & Hx & Hs)];
          [exists y|exists x]; simpl; tauto.
      * right. destruct He as [He | (x & Hx & He)];
          [exists y|exists x]; simpl; tauto.
Qed.

(** X17.  For every input list, pairs with [end < start] included, the
    merged list is sorted by start with consecutive intervals strictly
    apart, is no longer than the input and is empty only for an empty
    input; every start of a merged interval is the start of an input pair
    and every end is the end of an input pair. *)
Theorem merge_intervals_shape (X : list interval) :
  let M := merge_intervals X in
  starts_sorted M /\ separated M /\ (length M <= length X)%nat
  /\ (X <> [] -> M <> [])
  /\ forall iv, In iv M ->
                (exists x, In x X /\ fst iv = fst x)
                /\ (exists x, In x X /\ snd iv = snd x).
Proof.
  intros M.
  assert (Hp := sort_by_start_perm X).
  assert (Hs := sort_by_start_sorted X).
  split; [|split; [|split; [exact (merge_intervals_length X)|split]]].
  - unfold M, merge_intervals. rewrite merge_sorted_run.
    destruct (sort_by_start X) as [|x r]; [exact I|].
    apply merge_from_starts_sorted, Hs.
  - unfold M, merge_intervals. rewrite merge_sorted_run.
    destruct (sort_by_start X) as [|x r]; [exact I|].
    apply merge_from_separated.
  - intros Hne. unfold M, merge_intervals. rewrite merge_sorted_run.
    destruct (sort_by_start X) as [|x r] eqn:E.
    + apply Permutation_sym, Permutation_nil in Hp. contradiction.
    + simpl. destruct (merge_from_head x r) as (e & l & -> & _). discriminate.
  - intros iv Hin. unfold M, merge_intervals in Hin.
    rewrite merge_sorted_run in Hin.
    destruct (sort_by_start X) as [|c r] eqn:E; [destruct Hin|].
    simpl in Hin. apply merge_from_bounds in Hin.
    assert (Hmem : forall x, In x (c :: r) -> In x X).
    { intros x Hx. eapply Permutation_in; [apply Permutation_sym|];
        eassumption. }
    destruct Hin as [Hst He]. split.
    + destruct Hst as [Hst | (x & Hx & Hst)];
        [exists c|exists x]; (split; [apply Hmem; simpl; tauto|exact Hst]).
    + destruct He as [He | (x & Hx & He)];
        [exists c|exists x]; (split; [apply Hmem; simpl; tauto|exact He]).
Qed.

Lemma between (lo hi : Z) :
  lo <= hi ->
  let p := ((inject_Z lo + inject_Z hi) * (1 # 2))%Q in
  (inject_Z lo <= p /\ p <= inject_Z hi)%Q.
Proof.
  intros H p. apply inj_le in H. unfold p. clear p. split; Lqa.lra.
Qed.

Lemma covered_overlap l (qs qe : Z) :
  qs < qe ->
  (exists iv, In iv l /\ well_formed iv /\ qs < snd iv /\ fst iv < qe) <->
  (exists q, covered_by l q /\ (inject_Z qs < q /\ q < inject_Z qe)%Q
             /\ exists iv, In iv l /\ covers iv q /\ well_formed iv).
Proof.
  intros Hw. split.
  - intros ([s e] & Hin & Hwf & H1 & H2). unfold well_formed in Hwf.
    simpl in *.
    set (lo := Z.max qs s). set (hi := Z.min qe e).
    assert (Hlh : lo <= hi) by (unfold lo, hi; lia).
    destruct (between lo hi Hlh) as [Hp1 Hp2].
    set (p := ((inject_Z lo + inject_Z hi) * (1 # 2))%Q) in *.
    assert (Q1 : (inject_Z qs <= inject_Z lo)%Q)
      by (apply (proj1 (inj_le _ _)); unfold lo; lia).
    assert (Q2 : (inject_Z s <= inject_Z lo)%Q)
      by (apply (proj1 (inj_le _ _)); unfold lo; lia).
    assert (Q3 : (inject_Z hi <= inject_Z qe)%Q)
      by (apply (proj1 (inj_le _ _)); unfold hi; lia).
    assert (Q4 : (inject_Z hi <= inject_Z e)%Q)
      by (apply (proj1 (inj_le _ _)); unfold hi; lia).
    assert (Q5 : (inject_Z qs < inject_Z hi)%Q)
      by (apply (proj1 (inj_lt _ _)); unfold hi; lia).
    assert (Q6 : (inject_Z lo < inject_Z qe)%Q)
      by (apply (proj1 (inj_lt _ _)); unfold lo; lia).
    assert (Hmid : (2 * p == inject_Z lo + inject_Z hi)%Q)
      by (unfold p; Lqa.lra).
    assert (Hc : covers (s, e) p) by (unfold covers; simpl; split; Lqa.lra).
    exists p. split; [exists (s, e); tauto|].
    split; [split; Lqa.lra|]. exists (s, e). unfold well_formed. simpl. tauto.
  - intros (q & _ & [Hq1 Hq2] & [s e] & Hin & [Hc1 Hc2] & Hwf).
    exists (s, e). simpl in *. repeat split; try assumption.
    + apply (proj2 (inj_lt _ _)). Lqa.lra.
    + apply (proj2 (inj_lt _ _)). Lqa.lra.
Qed.

(** X18.  Merging does not change the answer of the overlap query: for
    pairs with [start <= end] and a window with [qStart < qEnd], some
    merged interval meets the window exactly when some input pair does. *)
Theorem merge_preserves_overlap (X : list interval) (qStart qEnd : Z) :
  Forall well_formed X -> qStart < qEnd ->
  (exists iv, In iv (merge_intervals X) /\ qStart < snd iv /\ qEnd > fst iv)
  <-> (exists iv, In iv X /\ qStart < snd iv /\ qEnd > fst iv).
Proof.
  intros Hwf Hw.
  assert (HwfM : Forall well_formed (merge_intervals X))
    by (apply merge_intervals_canonical, Hwf).
  rewrite List.Forall_forall in Hwf, HwfM.
  assert (Hside : forall l, (forall iv, In iv l -> well_formed iv) ->
            ((exists iv, In iv l /\ qStart < snd iv /\ qEnd > fst iv) <->
             exists q, covered_by l q
                       /\ (inject_Z qStart < q /\ q < inject_Z qEnd)%Q)).
  { intros l Hl. split.
    - intros (iv & Hin & H1 & H2).
      destruct (proj1 (covered_overlap l qStart qEnd Hw)) as (q & Hc & Hq & _).
      + exists iv. repeat split; auto. lia.
      + exists q. tauto.
    - intros (q & (iv & Hin & Hc) & Hq).
      destruct (proj2 (covered_overlap l qStart qEnd Hw)) as (iv' & Hin' & _ & H).
      + exists q. split; [exists iv; tauto|]. split; [exact Hq|].
        exists iv. auto.
      + exists iv'. split; [exact Hin'|]. lia. }
  rewrite (Hside _ HwfM), (Hside _ (fun iv H => Hwf iv H)).
  split; intros (q & Hc & Hq); exists q; (split; [|exact Hq]);
    apply (merge_intervals_covered X q); try assumption;
    apply List.Forall_forall; exact Hwf.
Qed.

Lemma merge_preserves_overlap_witness :
  let X := [(10, 20); (15, 25); (30, 40)] in
  Forall well_formed X /\ 18 < 22 /\
  ((exists iv, In iv (merge_intervals X) /\ 18 < snd iv /\ 22 > fst iv)
   <-> (exists iv, In iv X /\ 18 < snd iv /\ 22 > fst iv)).
Proof.
  intros X.
  assert (Hw : Forall well_formed X)
    by (repeat constructor; unfold well_formed; simpl; lia).
  assert (Hq : 18 < 22) by lia.
  split; [exact Hw|]. split; [exact Hq|].
  exact (merge_preserves_overlap X 18 22 Hw Hq).
Defined.

Section Overlap.

Variable strptime : string -> option Z.

Lemma time_overlaps_app l1 l2 qs qe :
  time_overlaps strptime (l1 ++ l2) qs qe
  = time_overlaps strptime l1 qs qe || time_overlaps strptime l2 qs qe.
Proof.
  induction l1 as [|iv l1 IH]; simpl; [reflexivity|].
  destruct (strptime (av_start iv)), (strptime (av_end iv)); try exact IH.
  destruct ((qs <? z0) && (qe >? z)); [reflexivity|exact IH].
Qed.

Lemma time_overlaps_readable l qs qe :
  time_overlaps strptime l qs qe
  = time_overlaps strptime (List.filter (readable strptime) l) qs qe.
Proof.
  induction l as [|iv l IH]; simpl; [reflexivity|]. unfold readable at 1.
  destruct (strptime (av_start iv)) eqn:Es,
           (strptime (av_end iv)) eqn:Ee; try exact IH.
  simpl. rewrite Es, Ee, IH. reflexivity.
Qed.

Lemma time_overlaps_widen l qs qe qs' qe' :
  qs' <= qs -> qe <= qe' ->
  time_overlaps strptime l qs qe = true ->
  time_overlaps strptime l qs' qe' = true.
Proof.
  intros H1 H2. induction l as [|iv l IH]; simpl; [discriminate|].
  destruct (strptime (av_start iv)), (strptime (av_end iv)); try exact IH.
  destruct ((qs <? z0) && (qe >? z)) eqn:E.
  - intros _. apply andb_true_iff in E. destruct E as [E1 E2].
    apply Z.ltb_lt in E1. apply Z.gtb_lt in E2.
    assert (E' : (qs' <? z0) && (qe' >? z) = true).
    { apply andb_true_iff. split; [apply Z.ltb_lt|apply Z.gtb_lt]; lia. }
    rewrite E'. reflexivity.
  - intros H. rewrite (IH H). destruct ((qs' <? z0) && (qe' >? z));
      reflexivity.
Qed.

End Overlap.

(** X19.  The overlap predicate ignores the intervals one of whose bounds
    [strptime] cannot read, answers over a concatenation as the
    disjunction of the answers over its parts (so it is false without a
    readable interval), and stays true when the window is widened. *)
Theorem time_overlaps_structure strptime :
  (forall l qs qe,
      time_overlaps strptime l qs qe
      = time_overlaps strptime (List.filter (readable strptime) l) qs qe)
  /\ (forall l1 l2 qs qe,
         time_overlaps strptime (l1 ++ l2) qs qe
         = time_overlaps strptime l1 qs qe
           || time_overlaps strptime l2 qs qe)
  /\ (forall l qs qe qs' qe',
         qs' <= qs -> qe <= qe' ->
         time_overlaps strptime l qs qe = true ->
         time_overlaps strptime l qs' qe' = true).
Proof.
  split; [|split].
  - apply time_overlaps_readable.
  - apply time_overlaps_app.
  - apply time_overlaps_widen.
Qed.

Lemma time_overlaps_structure_witness :
  18 <= 18 /\ 22 <= 30 /\
  time_overlaps Py.strptime
    (availability_intervals Py.strftime [(10, 25); (30, 40)]) 18 30 = true.
Proof.
  assert (H1 : 18 <= 18) by lia. assert (H2 : 22 <= 30) by lia.
  split; [exact H1|]. split; [exact H2|].
  apply (proj2 (proj2 (time_overlaps_structure Py.strptime)) _ 18 22 18 30
           H1 H2).
  reflexivity.
Defined.

End AvailabilityMore.

(** ** The input helpers *)

Module UtilsFacts.
Import Availability FlowSynthesis Simulation Utils MoreSpec.

Lemma group_fold rows groups k :
  k <> EmptyString ->
  fold_left group_row rows groups !! k
  = match groups !! k with
    | Some l => Some (l ++ rows_of k rows)
    | None => match rows_of k rows with
              | [] => None
              | l => Some l
              end
    end.
Proof.
  intros Hk. revert groups. unfold rows_of.
  induction rows as [|r rows IH]; intros groups; simpl.
  - destruct (groups !! k); [rewrite app_nil_r|]; reflexivity.
  - rewrite IH. unfold group_row.
    destruct (String.eqb_spec (row_key r) EmptyString) as [He|Hne].
    + destruct (String.eqb_spec (row_key r) k) as [Hrk|_]; [congruence|].
      reflexivity.
    + destruct (String.eqb_spec (row_key r) k) as [->|Hrk].
      * rewrite lookup_insert_eq.
        destruct (groups !! k) as [l|]; simpl;
          [rewrite <- app_assoc|]; reflexivity.
      * rewrite lookup_insert_ne by exact Hrk. reflexivity.
Qed.

Lemma group_fold_empty rows groups :
  fold_left group_row rows groups !! EmptyString = groups !! EmptyString.
Proof.
  revert groups. induction rows as [|r rows IH]; intros groups; simpl;
    [reflexivity|].
  rewrite IH. unfold group_row.
  destruct (String.eqb_spec (row_key r) EmptyString) as [He|Hne];
    [reflexivity|].
  apply lookup_insert_ne. exact Hne.
Qed.

Lemma group_rows_lookup rows k :
  group_rows rows !! k
  = if String.eqb k EmptyString then None
    else match rows_of k rows with
         | [] => None
         | l => Some l
         end.
Proof.
  unfold group_rows. destruct (String.eqb_spec k EmptyString) as [->|Hk].
  - rewrite group_fold_empty. apply lookup_empty.
  - rewrite (group_fold rows ∅ k Hk), lookup_empty. reflexivity.
Qed.

(** X20.  Grouping the CSV rows by centreline id keeps, under each id, the
    rows of that id in file order; an id without rows has no group (never
    an empty one), and rows whose id is empty after stripping are in no
    group.  A header without [centreline_id] or [start_time] is
    refused. *)
Theorem group_rows_by_id data_csv_file (data : csv_data) :
  (key_in "centreline_id" (fieldnames data) = true ->
   key_in "start_time" (fieldnames data) = true ->
   exists groups,
     load_rows_by_id data_csv_file data = inr groups /\
     (forall k, groups !! k
                = if String.eqb k EmptyString then None
                  else match rows_of k (csv_rows data) with
                       | [] => None
                       | l => Some l
                       end))
  /\ (key_in "centreline_id" (fieldnames data) = false
      \/ key_in "start_time" (fieldnames data) = false ->
      exists msg, load_rows_by_id data_csv_file data = inl msg).
Proof.
  unfold load_rows_by_id. split.
  - intros -> ->. simpl. eexists. split; [reflexivity|].
    apply group_rows_lookup.
  - intros [-> | H]; simpl; [eexists; reflexivity|].
    rewrite H. destruct (key_in "centreline_id" (fieldnames data));
      simpl; eexists; reflexivity.
Qed.

Lemma group_rows_by_id_witness :
  exists groups,
    load_rows_by_id "data.csv"
      {| fieldnames := ["centreline_id"; "start_time"; "end_time";
                        "n_appr_cars_t"]%string;
         csv_rows := [scenario_row] |} = inr groups
    /\ groups !! "1001"%string = Some [scenario_row].
Proof.
  destruct (proj1 (group_rows_by_id "data.csv"
              {| fieldnames := ["centreline_id"; "start_time"; "end_time";
                                "n_appr_cars_t"]%string;
                 csv_rows := [scenario_row] |}) eq_refl eq_refl)
    as (groups & Hload & Hget).
  exists groups. split; [exact Hload|]. rewrite Hget. reflexivity.
Defined.

Section Range.

Variable fromisoformat : string -> option Z.
Variable valid : gset string.

Lemma range_step_extremes seen acc r :
  extremes seen acc ->
  extremes (seen ++ counted_starts fromisoformat valid [r])
           (range_step fromisoformat valid acc r).
Proof.
  unfold counted_starts, range_step. simpl. rewrite app_nil_r.
  destruct (decide (row_key r ∈ valid)); [|rewrite app_nil_r; auto].
  destruct (row_get "start_time" r) as [text|]; [|rewrite app_nil_r; auto].
  destruct (fromisoformat text) as [dt|]; [|rewrite app_nil_r; auto].
  destruct acc as [[lo|] [hi|]]; simpl; intros H; try contradiction.
  - destruct H as (Hlo & Hhi & Hb).
    destruct (dt <? lo) eqn:E1; destruct (dt >? hi) eqn:E2;
      rewrite ?Z.gtb_ltb in E2;
      try apply Z.ltb_lt in E1; try apply Z.ltb_ge in E1;
      try apply Z.ltb_lt in E2; try apply Z.ltb_ge in E2;
      (split; [apply in_app_iff; simpl; tauto|]);
      (split; [apply in_app_iff; simpl; tauto|]);
      intros x Hx; apply in_app_iff in Hx;
      pose proof (Hb lo Hlo); pose proof (Hb hi Hhi);
      (destruct Hx as [Hx | [<- | []]];
       [pose proof (Hb x Hx); lia|lia]).
  - subst seen. simpl. split; [tauto|]. split; [tauto|].
    intros x [<- | []]. lia.
Qed.

Lemma counted_starts_app rows1 rows2 :
  counted_starts fromisoformat valid (rows1 ++ rows2)
  = counted_starts fromisoformat valid rows1
    ++ counted_starts fromisoformat valid rows2.
Proof. unfold counted_starts. apply flat_map_app. Qed.

Lemma range_scan_extremes rows seen acc :
  extremes seen acc ->
  extremes (seen ++ counted_starts fromisoformat valid rows)
           (fold_left (range_step fromisoformat valid) rows acc).
Proof.
  revert seen acc. induction rows as [|r rows IH]; intros seen acc H.
  - unfold counted_starts. simpl. rewrite app_nil_r. exact H.
  - cbn [fold_left].
    change (counted_starts fromisoformat valid (r :: rows))
      with (counted_starts fromisoformat valid ([r] ++ rows)).
    rewrite counted_starts_app, app_assoc.
    apply IH, range_step_extremes, H.
Qed.

End Range.

(** X21.  With both required columns present, [get_overall_time_range]
    returns the least and the greatest of the start times that parse among
    the rows whose stripped id is one of the intersections': both are
    attained, every such start lies between them, and the call raises
    "Could not determine overall time range" exactly when there is no such
    start.  Without one of the columns it raises whatever the rows. *)
Theorem overall_time_range_extremes fromisoformat intersections
    data_csv_file (data : csv_data) :
  let starts := counted_starts fromisoformat (valid_ids intersections)
                               (csv_rows data) in
  (key_in "start_time" (fieldnames data) = true ->
   key_in "centreline_id" (fieldnames data) = true ->
   (forall lo hi,
       get_overall_time_range fromisoformat intersections data_csv_file data
       = Ok (lo, hi) ->
       In lo starts /\ In hi starts /\ lo <= hi /\
       forall x, In x starts -> lo <= x <= hi)
   /\ (get_overall_time_range fromisoformat intersections data_csv_file data
       = Raise (ValueError
           "Could not determine overall time range from traffic data.")
       <-> starts = [])
   /\ (starts <> [] ->
       exists lo hi,
         get_overall_time_range fromisoformat intersections data_csv_file
                                data = Ok (lo, hi)))
  /\ (key_in "start_time" (fieldnames data) = false
      \/ key_in "centreline_id" (fieldnames data) = false ->
      exists e,
        get_overall_time_range fromisoformat intersections data_csv_file data
        = Raise e).
Proof.
  intros starts. unfold get_overall_time_range. split.
  - intros -> ->. simpl.
    pose proof (range_scan_extremes fromisoformat (valid_ids intersections)
                  (csv_rows data) [] (None, None) eq_refl) as H.
    simpl in H. fold starts in H.
    destruct (fold_left _ (csv_rows data) (None, None)) as [[lo|] [hi|]];
      simpl in H; try contradiction.
    + destruct H as (Hlo & Hhi & Hb). split; [|split].
      * intros lo' hi' [= <- <-]. split; [exact Hlo|]. split; [exact Hhi|].
        split; [pose proof (Hb lo Hlo); lia|exact Hb].
      * split; [discriminate|]. intros Hnil. rewrite Hnil in Hlo.
        destruct Hlo.
      * intros _. eauto.
    + split; [|split].
      * discriminate.
      * tauto.
      * intros Hne. contradiction.
  - intros [-> | H]; simpl; [eexists; reflexivity|].
    rewrite H. destruct (key_in "start_time" (fieldnames data));
      simpl; eexists; reflexivity.
Qed.

Lemma overall_time_range_extremes_witness :
  let data := {| fieldnames := ["centreline_id"; "start_time"; "end_time";
                                "n_appr_cars_t"]%string;
                 csv_rows := [scenario_row] |} in
  exists lo hi,
    get_overall_time_range Py.fromisoformat [scenario_intersection]
                           "data.csv" data = Ok (lo, hi).
Proof.
  intros data.
  apply (proj2 (proj2 (proj1 (overall_time_range_extremes Py.fromisoformat
           [scenario_intersection] "data.csv" data) eq_refl eq_refl))).
  vm_compute. discriminate.
Defined.

End UtilsFacts.

(** ** The availability report and the pipeline *)

Module ReportFacts.
Import Availability Bearing EdgeMapping FlowSynthesis Database Simulation.
Import Utils MoreSpec.

Section Report.

Variable fromisoformat : string -> option Z.
Variable strftime : Z -> string.
Variable valid : gset string.

Lemma row_intervals_cons r rows :
  row_intervals fromisoformat (r :: rows)
  = match row_times fromisoformat r with
    | Some iv => [iv]
    | None => []
    end ++ row_intervals fromisoformat rows.
Proof. reflexivity. Qed.

Lemma collect_fold rows av k :
  fold_left (collect_step fromisoformat valid) rows av !! k
  = match av !! k with
    | Some l =>
        Some (l ++ if decide (k ∈ valid)
                   then row_intervals fromisoformat (rows_of k rows)
                   else [])
    | None => None
    end.
Proof.
  revert av. induction rows as [|r rows IH]; intros av.
  - simpl. destruct (av !! k); [|reflexivity].
    destruct (decide (k ∈ valid)); rewrite app_nil_r; reflexivity.
  - cbn [fold_left]. rewrite IH. unfold collect_step, rows_of.
    cbn [List.filter].
    destruct (decide (row_key r ∈ valid)) as [Hin|Hout].
    + destruct (String.eqb_spec (row_key r) k) as [Heq|Hne]; cbv beta iota.
      * rewrite Heq in *. destruct (row_times fromisoformat r) as [iv|] eqn:Et.
        -- rewrite lookup_alter_eq. destruct (av !! k) as [l|]; simpl;
             [|reflexivity].
           destruct (decide (k ∈ valid)); [|contradiction].
           rewrite ?row_intervals_cons, Et, <- app_assoc. reflexivity.
        -- destruct (av !! k) as [l|]; [|reflexivity].
           destruct (decide (k ∈ valid)); [|contradiction].
           rewrite ?row_intervals_cons, Et. reflexivity.
      * destruct (row_times fromisoformat r) as [iv|];
          [rewrite lookup_alter_ne by exact Hne|]; reflexivity.
    + destruct (String.eqb_spec (row_key r) k) as [Heq|Hne]; cbv beta iota;
        [|reflexivity].
      rewrite Heq in *. destruct (av !! k) as [l|]; [|reflexivity].
      destruct (decide (k ∈ valid)); [contradiction|reflexivity].
Qed.

Lemma collected_lookup rows k :
  fold_left (collect_step fromisoformat valid) rows (gset_to_gmap [] valid)
  !! k
  = if decide (k ∈ valid)
    then Some (row_intervals fromisoformat (rows_of k rows))
    else None.
Proof.
  rewrite collect_fold, lookup_gset_to_gmap.
  destruct (decide (k ∈ valid)) as [Hin|Hout].
  - rewrite option_guard_True by exact Hin. reflexivity.
  - rewrite option_guard_False by exact Hout. reflexivity.
Qed.

End Report.

(** X22.  With both required columns present,
    [get_data_availability_by_intersection] reports, for each stripped
    centreline id of the intersections that has at least one row with two
    readable times, the merge of the intervals of these rows (taken in file
    order), formatted; ids without such a row, and ids of no intersection,
    are absent from the report. *)
Theorem availability_report fromisoformat strftime intersections
    (data : csv_data) :
  key_in "start_time" (fieldnames data) = true ->
  key_in "centreline_id" (fieldnames data) = true ->
  exists report,
    get_data_availability_by_intersection fromisoformat strftime
      intersections data = Ok report
    /\ forall k,
         report !! k
         = if decide (k ∈ valid_ids intersections) then
             match row_intervals fromisoformat
                     (rows_of k (csv_rows data)) with
             | [] => None
             | intervals =>
                 Some (availability_intervals strftime
                         (merge_intervals intervals))
             end
           else None.
Proof.
  intros Hs Hc. unfold get_data_availability_by_intersection.
  rewrite Hs, Hc. simpl. eexists. split; [reflexivity|].
  intros k. rewrite lookup_omap, collected_lookup.
  destruct (decide (k ∈ valid_ids intersections)); [|reflexivity].
  simpl. destruct (row_intervals fromisoformat (rows_of k (csv_rows data)));
    reflexivity.
Qed.

Lemma availability_report_witness :
  exists report,
    get_data_availability_by_intersection Py.fromisoformat Py.strftime
      [scenario_intersection]
      {| fieldnames := ["centreline_id"; "start_time"; "end_time";
                        "n_appr_cars_t"]%string;
         csv_rows := [scenario_row] |} = Ok report.
Proof.
  destruct (availability_report Py.fromisoformat Py.strftime
              [scenario_intersection]
              {| fieldnames := ["centreline_id"; "start_time"; "end_time";
                                "n_appr_cars_t"]%string;
                 csv_rows := [scenario_row] |} eq_refl eq_refl)
    as (report & H & _).
  exists report. exact H.
Defined.

End ReportFacts.

(** ** Further properties of the pipeline *)

Module PipelineMore.
Import Availability Bearing EdgeMapping FlowSynthesis Database Simulation.
Import Utils MoreSpec UtilsFacts ReportFacts.

Section Preparation.

Variable fromisoformat : string -> option Z.
Variable strptime : string -> option Z.
Variable strftime : Z -> string.
Variable parse_float : string -> result R.
Variable reply : string -> string.
Variable net : network.
Variable data_rows_by_id : gmap string (list row).
Variable processed_db : gmap string cache_record.
Variables simulation_start_dt simulation_end_dt : Z.

Local Abbreviation prepare' :=
  (prepare fromisoformat strptime strftime parse_float reply net
           data_rows_by_id processed_db simulation_start_dt
           simulation_end_dt).
(** What a successful preparation has established. *)
Lemma prepare_inv file inter p :
  prepare' file inter = inr p ->
  exists cid coords,
    inter_centreline_id inter = Some cid /\ cid <> EmptyString /\
    p_unique_id p = Py.strip cid /\
    locate parse_float reply net data_rows_by_id inter (p_location_name p)
           (p_unique_id p) = inr (p_junction_id p, coords) /\
    row_intervals fromisoformat
      (default [] (data_rows_by_id !! p_unique_id p)) <> [] /\
    p_availability p
    = availability_intervals strftime
        (merge_intervals
           (row_intervals fromisoformat
              (default [] (data_rows_by_id !! p_unique_id p)))) /\
    time_overlaps strptime (p_availability p) simulation_start_dt
                  simulation_end_dt = true /\
    resolve_mapping net processed_db inter (p_location_name p)
                    (p_unique_id p) (p_junction_id p) coords
                    (p_availability p) file
    = inr (p_mapping p, p_db_file p).
Proof.
  unfold prepare. intros H.
  destruct (inter_centreline_id inter) as [[|c cid]|] eqn:Ec;
    try discriminate.
  set (loc := match inter_location_name inter with
              | Some name => name
              | None => _
              end) in *.
  set (uid := Py.strip (String c cid)) in *.
  destruct (locate parse_float reply net data_rows_by_id inter loc uid)
    as [msg|[jid coords]] eqn:El; [discriminate|].
  destruct (row_intervals fromisoformat (default [] (data_rows_by_id !! uid)))
    as [|iv ivs] eqn:Er; [discriminate|].
  set (av := availability_intervals strftime (merge_intervals (iv :: ivs)))
    in *.
  destruct (time_overlaps strptime av simulation_start_dt simulation_end_dt)
    eqn:Eo; simpl in H; [|discriminate].
  destruct (resolve_mapping net processed_db inter loc uid jid coords av file)
    as [msg|[m file']] eqn:Em; [discriminate|].
  injection H as <-. simpl.
  exists (String c cid), coords. rewrite Er.
  repeat split; try assumption; try reflexivity; discriminate.
Qed.

(** The mapping of a prepared intersection: the cached one if the snapshot
    of the cache has the junction, else the one supplied with the
    intersection, else the one computed from the network. *)
Lemma prepare_mapping_source file inter p :
  prepare' file inter = inr p ->
  match processed_db !! p_junction_id p with
  | Some record =>
      p_mapping p = rec_edge_mapping record /\ p_db_file p = file
  | None =>
      match inter_mapped_edges inter with
      | Some m => p_mapping p = m
      | None => map_junction_edges net (p_junction_id p) = Ok (p_mapping p)
      end
      /\ exists junction_node record,
           getNode net (p_junction_id p) = Ok junction_node /\
           p_db_file p = update_processed_db (p_junction_id p) record file /\
           rec_edge_mapping record = p_mapping p /\
           rec_intersection_id record = p_junction_id p /\
           rec_centreline_id record = p_unique_id p /\
           rec_location_name record = p_location_name p /\
           rec_data_availability record = p_availability p /\
           rec_network_coordinates record = node_coord junction_node
  end.
Proof.
  intros H. apply prepare_inv in H.
  destruct H as (cid & coords & _ & _ & _ & _ & _ & _ & _ & Hres).
  unfold resolve_mapping in Hres.
  destruct (processed_db !! p_junction_id p) as [record|].
  - injection Hres as <- <-. tauto.
  - destruct (inter_mapped_edges inter) as [m|].
    + destruct (getNode net (p_junction_id p)) as [n|e]; [|discriminate].
      injection Hres as <- <-. split; [reflexivity|].
      eexists n, _. repeat split; reflexivity.
    + destruct (map_junction_edges net (p_junction_id p)) as [m|e];
        [|discriminate].
      destruct (getNode net (p_junction_id p)) as [n|e]; [|discriminate].
      injection Hres as <- <-. split; [reflexivity|].
      eexists n, _. repeat split; reflexivity.
Qed.

End Preparation.

Section Pipeline.

Variable fromisoformat : string -> option Z.
Variable parse_int : string -> option Z.
Variable strptime : string -> option Z.
Variable strftime : Z -> string.
Variable parse_float : string -> result R.
Variable reply : string -> string.
Variable net : network.
Variable data_rows_by_id : gmap string (list row).
Variable processed_db : gmap string cache_record.
Variables simulation_start_dt simulation_end_dt : Z.

Local Abbreviation prepare' :=
  (prepare fromisoformat strptime strftime parse_float reply net
           data_rows_by_id processed_db simulation_start_dt
           simulation_end_dt).
Local Abbreviation process' :=
  (process_intersection fromisoformat parse_int strptime strftime
     parse_float reply net data_rows_by_id processed_db simulation_start_dt
     simulation_end_dt).
Local Abbreviation loop' :=
  (simulate_loop fromisoformat parse_int strptime strftime parse_float reply
     net data_rows_by_id processed_db simulation_start_dt simulation_end_dt).

(** X23.  For every intersection the loop body does one of two things: it
    appends exactly one diagnostic and leaves the flows and the detail
    records as they were, or it appends at least one flow and exactly one
    detail record and no diagnostic; in the second case the flows are those
    that flow generation returned for the prepared intersection. *)
Theorem intersection_accounted_once (st : sim_state) (inter : intersection) :
  let st' := process' st inter in
  (routes_root st' = routes_root st
   /\ simulation_details st' = simulation_details st
   /\ exists msg, incomplete_data st' = incomplete_data st ++ [msg])
  \/ (incomplete_data st' = incomplete_data st
      /\ exists p flows d,
          prepare' (db_file st) inter = inr p /\
          generate_flows_for_intersection fromisoformat parse_int
            (p_mapping p) (default [] (data_rows_by_id !! p_unique_id p))
            (p_junction_id p) simulation_start_dt simulation_end_dt
          = Ok flows /\
          flows <> [] /\
          routes_root st' = routes_root st ++ flows /\
          simulation_details st' = simulation_details st ++ [d] /\
          d_intersection_id d = p_junction_id p /\
          d_centreline_id d = p_unique_id p /\
          db_file st' = p_db_file p).
Proof.
  intros st'. unfold st', process_intersection.
  destruct (prepare' (db_file st) inter) as [msg|p] eqn:Ep.
  - left. simpl. eauto.
  - unfold commit_flows.
    destruct (generate_flows_for_intersection fromisoformat parse_int
                (p_mapping p) (default [] (data_rows_by_id !! p_unique_id p))
                (p_junction_id p) simulation_start_dt simulation_end_dt)
      as [[|fl flows]|e] eqn:Eg.
    + left. simpl. eauto.
    + right. simpl. split; [reflexivity|].
      eexists p, (fl :: flows), _.
      split; [reflexivity|]. split; [exact Eg|].
      split; [discriminate|]. repeat split; reflexivity.
    + left. simpl. eauto.
Qed.

Lemma step_accounting st inter :
  exists flows msgs ds,
    routes_root (process' st inter) = routes_root st ++ flows /\
    incomplete_data (process' st inter) = incomplete_data st ++ msgs /\
    simulation_details (process' st inter) = simulation_details st ++ ds /\
    (length msgs + length ds = 1)%nat /\ (length ds <= length flows)%nat /\
    (ds = [] -> flows = []).
Proof.
  unfold process_intersection.
  destruct (prepare' (db_file st) inter) as [msg|p].
  - exists [], [msg], []. simpl. rewrite !app_nil_r. auto 7.
  - unfold commit_flows.
    destruct (generate_flows_for_intersection _ _ _ _ _ _ _)
      as [[|fl flows]|e].
    + eexists [], [_], []. simpl. rewrite !app_nil_r. auto 7.
    + eexists (fl :: flows), [], [_]. simpl. rewrite !app_nil_r.
      repeat split; auto; [lia|discriminate].
    + eexists [], [_], []. simpl. rewrite !app_nil_r. auto 7.
Qed.

Lemma loop_accounting intersections st :
  exists flows msgs ds,
    routes_root (loop' intersections st) = routes_root st ++ flows /\
    incomplete_data (loop' intersections st) = incomplete_data st ++ msgs /\
    simulation_details (loop' intersections st)
    = simulation_details st ++ ds /\
    (length msgs + length ds = length intersections)%nat /\
    (length ds <= length flows)%nat /\ (ds = [] -> flows = []).
Proof.
  revert st. induction intersections as [|inter rest IH]; intros st.
  - exists [], [], []. unfold simulate_loop. simpl. rewrite !app_nil_r.
    repeat split; auto.
  - unfold simulate_loop. simpl. fold (loop' rest (process' st inter)).
    destruct (step_accounting st inter)
      as (f1 & m1 & d1 & Hr1 & Hm1 & Hd1 & Hl1 & Hle1 & Hn1).
    destruct (IH (process' st inter))
      as (f2 & m2 & d2 & Hr2 & Hm2 & Hd2 & Hl2 & Hle2 & Hn2).
    exists (f1 ++ f2), (m1 ++ m2), (d1 ++ d2).
    rewrite Hr2, Hm2, Hd2, Hr1, Hm1, Hd1, <- !app_assoc.
    rewrite !length_app. repeat split; try reflexivity; try lia.
    intros Hnil. apply app_eq_nil in Hnil. destruct Hnil as [H1 H2].
    rewrite (Hn1 H1), (Hn2 H2). reflexivity.
Qed.

(** X24.  The loop never drops or alters what it has produced: after any
    list of intersections the flows, diagnostics and detail records present
    before are prefixes of those present after, the numbers of new
    diagnostics and new detail records add up to the number of
    intersections, and there are new flows exactly when there are new
    detail records, at least one flow for each record. *)
Theorem loop_only_appends (intersections : list intersection)
    (st : sim_state) :
  let st' := loop' intersections st in
  exists flows msgs ds,
    routes_root st' = routes_root st ++ flows /\
    incomplete_data st' = incomplete_data st ++ msgs /\
    simulation_details st' = simulation_details st ++ ds /\
    (length msgs + length ds = length intersections)%nat /\
    (length ds <= length flows)%nat /\
    (flows = [] <-> ds = []).
Proof.
  intros st'.
  destruct (loop_accounting intersections st)
    as (flows & msgs & ds & H1 & H2 & H3 & H4 & H5 & H6).
  exists flows, msgs, ds. repeat split; auto.
  intros ->. destruct ds; [reflexivity|simpl in H5; lia].
Qed.

End Pipeline.

(** X25.  The pipeline gets the edge mapping of a prepared intersection
    from the snapshot of the cache if the junction is there, and then does
    not touch the cache file; otherwise it takes the mapping supplied with
    the intersection, or else computes it from the network, and rewrites
    the cache file with one record for the junction that holds this
    mapping, the ids, the name, the availability and the node
    coordinates. *)
Theorem mapping_get_or_compute fromisoformat strptime strftime parse_float
    reply net data_rows_by_id processed_db simulation_start_dt
    simulation_end_dt file inter p :
  prepare fromisoformat strptime strftime parse_float reply net
          data_rows_by_id processed_db simulation_start_dt simulation_end_dt
          file inter = inr p ->
  match processed_db !! p_junction_id p with
  | Some record =>
      p_mapping p = rec_edge_mapping record /\ p_db_file p = file
  | None =>
      match inter_mapped_edges inter with
      | Some m => p_mapping p = m
      | None => map_junction_edges net (p_junction_id p) = Ok (p_mapping p)
      end
      /\ exists junction_node record,
           getNode net (p_junction_id p) = Ok junction_node /\
           p_db_file p = update_processed_db (p_junction_id p) record file /\
           rec_edge_mapping record = p_mapping p /\
           rec_intersection_id record = p_junction_id p /\
           rec_centreline_id record = p_unique_id p /\
           rec_location_name record = p_location_name p /\
           rec_data_availability record = p_availability p /\
           rec_network_coordinates record = node_coord junction_node
  end.
Proof.
  intros H. exact (prepare_mapping_source _ _ _ _ _ _ _ _ _ _ _ _ _ H).
Qed.

Lemma scenario_prepared :
  prepare Py.fromisoformat Py.strptime Py.strftime
    (fun _ => Raise (ValueError "not a number")) (fun _ => "n"%string)
    demo_net scenario_rows scenario_cache
    (instant "2024-01-01T08:00:00") (instant "2024-01-01T08:30:00")
    (Document scenario_cache) scenario_intersection
  = inr {| p_location_name := "Main St"; p_unique_id := "1001";
           p_junction_id := "J";
           p_availability :=
             [{| av_start := "2024-01-01 08:00:00";
                 av_end := "2024-01-01 08:15:00" |}];
           p_mapping := {| incoming := [(north, ["e1"%string])];
                           outgoing := [] |};
           p_db_file := Document scenario_cache |}.
Proof. reflexivity. Qed.

Lemma mapping_get_or_compute_witness :
  p_db_file
    {| p_location_name := "Main St"; p_unique_id := "1001";
       p_junction_id := "J";
       p_availability :=
         [{| av_start := "2024-01-01 08:00:00";
             av_end := "2024-01-01 08:15:00" |}];
       p_mapping := {| incoming := [(north, ["e1"%string])];
                       outgoing := [] |};
       p_db_file := Document scenario_cache |}
  = Document scenario_cache.
Proof.
  pose proof (mapping_get_or_compute _ _ _ _ _ _ _ _ _ _ _ _ _
                scenario_prepared) as H.
  change (scenario_cache !! "J"%string)
    with (Some {| rec_intersection_id := "J";
                  rec_centreline_id := "1001";
                  rec_location_name := "Main St";
                  rec_input_coordinates := None;
                  rec_network_coordinates := (0%R, 0%R);
                  rec_data_availability := [];
                  rec_edge_mapping := {| incoming := [(north, ["e1"%string])];
                                         outgoing := [] |} |}) in H.
  exact (proj2 H).
Defined.

(** X26.  [simulate_simulation] returns at most one warning per
    intersection; it returns no routes exactly when every intersection
    gave a warning, and the routes it returns are never an empty list. *)
Theorem simulate_simulation_outcome fromisoformat parse_int strptime strftime
    parse_float reply intersections net data_rows_by_id file
    simulation_start_dt simulation_end_dt route warnings :
  simulate_simulation fromisoformat parse_int strptime strftime parse_float
    reply intersections net data_rows_by_id file simulation_start_dt
    simulation_end_dt = (route, warnings) ->
  (length warnings <= length intersections)%nat
  /\ (route = None <-> length warnings = length intersections)
  /\ (forall flows, route = Some flows -> flows <> []).
Proof.
  unfold simulate_simulation.
  destruct (loop_accounting fromisoformat parse_int strptime strftime
              parse_float reply net data_rows_by_id (load_processed_db file)
              simulation_start_dt simulation_end_dt intersections
              {| routes_root := []; incomplete_data := [];
                 simulation_details := []; db_file := file |})
    as (flows & msgs & ds & Hr & Hm & Hd & Hl & Hle & Hnil).
  simpl in Hr, Hm, Hd. rewrite Hr, Hm.
  destruct flows as [|fl flows]; intros [= <- <-].
  - destruct ds; [|simpl in Hle; lia]. simpl in Hl.
    split; [lia|]. split; [split; [intros _; lia|reflexivity]|discriminate].
  - split; [lia|]. split.
    + split; [discriminate|]. intros Hall.
      destruct ds; [specialize (Hnil eq_refl); discriminate|simpl in *; lia].
    + intros flows' [= <-]. discriminate.
Qed.

Lemma simulate_simulation_outcome_witness :
  (length ["Intersection 'Main St' (ID: J) CSV processing error: Incomplete edge mapping for key 'n_appr_cars_t': missing incoming 'north' or outgoing 'south'."%string]
   <= length [scenario_intersection])%nat.
Proof.
  refine (proj1 (simulate_simulation_outcome Py.fromisoformat Py.int_of_str
            Py.strptime Py.strftime
            (fun _ => Raise (ValueError "not a number"))
            (fun _ => "n"%string) [scenario_intersection] demo_net
            scenario_rows (Document scenario_cache)
            (instant "2024-01-01T08:00:00") (instant "2024-01-01T08:30:00")
            None _ _)).
  reflexivity.
Defined.

(** X27.  For an intersection that the pipeline prepares from the grouped
    rows of a CSV file, the availability it records is the entry that
    [get_data_availability_by_intersection] reports for the intersection's
    stripped centreline id on the same file, and it overlaps the
    simulation window. *)
Theorem pipeline_availability_is_report fromisoformat strptime strftime
    parse_float reply net processed_db simulation_start_dt simulation_end_dt
    file intersections inter p (data : csv_data) :
  key_in "start_time" (fieldnames data) = true ->
  key_in "centreline_id" (fieldnames data) = true ->
  In inter intersections ->
  prepare fromisoformat strptime strftime parse_float reply net
          (group_rows (csv_rows data)) processed_db simulation_start_dt
          simulation_end_dt file inter = inr p ->
  time_overlaps strptime (p_availability p) simulation_start_dt
                simulation_end_dt = true
  /\ exists report,
       get_data_availability_by_intersection fromisoformat strftime
         intersections data = Ok report
       /\ report !! p_unique_id p = Some (p_availability p).
Proof.
  intros Hs Hc Hin Hp. apply prepare_inv in Hp.
  destruct Hp as (cid & coords & Hcid & Hne & Huid & _ & Hrows & Hav & Hov & _).
  split; [exact Hov|].
  unfold get_data_availability_by_intersection. rewrite Hs, Hc. simpl.
  eexists. split; [reflexivity|].
  rewrite lookup_omap, collected_lookup.
  assert (Hvalid : p_unique_id p ∈ valid_ids intersections).
  { unfold valid_ids. apply elem_of_list_to_set, list_elem_of_In.
    apply in_flat_map. exists inter. split; [exact Hin|].
    rewrite Hcid, Huid. destruct cid; [contradiction|]. left. reflexivity. }
  destruct (decide (p_unique_id p ∈ valid_ids intersections));
    [|contradiction].
  assert (Hd : default [] (group_rows (csv_rows data) !! p_unique_id p)
               = rows_of (p_unique_id p) (csv_rows data)).
  { revert Hrows. rewrite group_rows_lookup.
    destruct (String.eqb (p_unique_id p) EmptyString).
    - intros Hrows. exfalso. apply Hrows. reflexivity.
    - intros _.
      destruct (rows_of (p_unique_id p) (csv_rows data)); reflexivity. }
  rewrite Hd in Hrows, Hav. cbn [mbind option_bind].
  destruct (row_intervals fromisoformat
              (rows_of (p_unique_id p) (csv_rows data))) as [|iv ivs];
    [contradiction|].
  rewrite Hav. reflexivity.
Qed.

Lemma pipeline_availability_is_report_witness :
  exists report,
    get_data_availability_by_intersection Py.fromisoformat Py.strftime
      [scenario_intersection]
      {| fieldnames := ["centreline_id"; "start_time"; "end_time";
                        "n_appr_cars_t"]%string;
         csv_rows := [scenario_row] |} = Ok report
    /\ report !! "1001"%string
       = Some [{| av_start := "2024-01-01 08:00:00";
                  av_end := "2024-01-01 08:15:00" |}].
Proof.
  refine (proj2 (pipeline_availability_is_report Py.fromisoformat
            Py.strptime Py.strftime
            (fun _ => Raise (ValueError "not a number"))
            (fun _ => "n"%string) demo_net scenario_cache
            (instant "2024-01-01T08:00:00") (instant "2024-01-01T08:30:00")
            (Document scenario_cache) [scenario_intersection]
            scenario_intersection
            {| p_location_name := "Main St"; p_unique_id := "1001";
               p_junction_id := "J";
               p_availability :=
                 [{| av_start := "2024-01-01 08:00:00";
                     av_end := "2024-01-01 08:15:00" |}];
               p_mapping := {| incoming := [(north, ["e1"%string])];
                               outgoing := [] |};
               p_db_file := Document scenario_cache |}
            {| fieldnames := ["centreline_id"; "start_time"; "end_time";
                              "n_appr_cars_t"]%string;
               csv_rows := [scenario_row] |}
            eq_refl eq_refl (or_introl eq_refl) _)).
  reflexivity.
Defined.

End PipelineMore.
